(** * plex-db: a file-backed document store

    Shallow embedding of the storage engine and the collection layer of
    [PlexDB] / [PlexServer] (TypeScript), and the properties of its
    specification that were checked against it.

    Layout: the Node.js [path] functions the program calls, JSON values and
    [pathsafe], a model of the file system calls ([fs], [fs/promises]), the
    [Map] object used as a cache, the state-and-exception monad the
    operations run in, [storage], [Collection]; then the lemmas. *)

From Stdlib Require Import ZArith Ascii String Lia.
From stdpp Require Import base option list gmap strings.

Local Open Scope Z_scope.
Local Open Scope stdpp_scope.

(** ** Node.js [path] (posix) *)

Module Path.

Definition is_slash (c : ascii) : bool := bool_decide (c = "/"%char).

(** [s.split("/")]: one piece more than there are separators. *)
Fixpoint split (s : string) : list string :=
  match s with
  | EmptyString => [""]
  | String c s' =>
      if is_slash c then "" :: split s'
      else match split s' with
           | [] => [String c ""]
           | w :: ws => String c w :: ws
           end
  end.

(** [l.join("/")]. *)
Fixpoint join (l : list string) : string :=
  match l with
  | [] => ""
  | [x] => x
  | x :: xs => x +:+ "/" +:+ join xs
  end.

(** One segment of [normalizeString]; the segments kept so far are held
    most recent first. *)
Definition norm_step (above : bool) (acc : list string) (seg : string)
  : list string :=
  if bool_decide (seg = "") then acc
  else if bool_decide (seg = ".") then acc
  else if bool_decide (seg = "..") then
    match acc with
    | [] => if above then [".."] else []
    | top :: rest =>
        if bool_decide (top = "..")
        then (if above then ".." :: acc else acc)
        else rest
    end
  else seg :: acc.

(** [normalizeString(path, allowAboveRoot, "/", ...)], on segments. *)
Definition normalize_segs (above : bool) (segs : list string) : list string :=
  rev (foldl (norm_step above) [] segs).

Definition is_absolute (s : string) : bool :=
  match s with
  | String c _ => is_slash c
  | EmptyString => false
  end.

Fixpoint ends_with_slash (s : string) : bool :=
  match s with
  | EmptyString => false
  | String c EmptyString => is_slash c
  | String _ s' => ends_with_slash s'
  end.

(** [path.posix.normalize]. *)
Definition normalize (p : string) : string :=
  if bool_decide (p = "") then "."
  else
    let abs := is_absolute p in
    let trailing := ends_with_slash p in
    let res := join (normalize_segs (negb abs) (split p)) in
    if bool_decide (res = "") then
      (if abs then "/" else if trailing then "./" else ".")
    else
      (if abs then "/" else "") +:+ res +:+ (if trailing then "/" else "").

(** [path.posix.join(...args)]: empty arguments are skipped. *)
Definition posix_join (args : list string) : string :=
  match filter (λ a, a ≠ "") args with
  | [] => "."
  | parts => normalize (join parts)
  end.

(** [path.resolve(p)] with the working directory [cwd]. *)
Definition resolve (cwd p : string) : string :=
  let r1 := if bool_decide (p = "") then "" else p +:+ "/" in
  let abs1 := is_absolute p in
  let r2 := if abs1 then r1
            else if bool_decide (cwd = "") then r1
            else cwd +:+ "/" +:+ r1 in
  let abs2 := abs1 || is_absolute cwd in
  let res := join (normalize_segs (negb abs2) (split r2)) in
  if abs2 then "/" +:+ res
  else if bool_decide (res = "") then "." else res.

Fixpoint drop_while (f : ascii → bool) (l : list ascii) : list ascii :=
  match l with
  | [] => []
  | c :: l' => if f c then drop_while f l' else l
  end.

(** [path.posix.dirname]: scans from the end down to index 1. *)
Definition dirname (p : string) : string :=
  match p with
  | EmptyString => "."
  | String c0 rest =>
      let has_root := is_slash c0 in
      let r := rev (list_ascii_of_string rest) in
      let r1 := drop_while is_slash r in
      let r2 := drop_while (λ c, negb (is_slash c)) r1 in
      match r2 with
      | [] => if has_root then "/" else "."
      | _ :: before =>
          if has_root && bool_decide (before = []) then "//"
          else String c0 (string_of_list_ascii (rev before))
      end
  end.

(** [String.prototype.startsWith]. *)
Fixpoint starts_with (pre s : string) : bool :=
  match pre, s with
  | EmptyString, _ => true
  | String a pre', String b s' => bool_decide (a = b) && starts_with pre' s'
  | String _ _, EmptyString => false
  end.

(** A segment that survives normalisation as it is. *)
Definition plain (seg : string) : Prop :=
  seg ≠ "" ∧ seg ≠ "." ∧ seg ≠ ".." ∧ split seg = [seg].

(** The absolute path with the segments [l]. *)
Definition abs_path (l : list string) : string := "/" +:+ join l.

End Path.


(** ** JavaScript data values

    Stored values are JSON data.  Numbers are the integers (in the range a
    double represents exactly); strings are sequences of bytes (the UTF-8
    form [Buffer.from(_, "utf-8")] yields).  [undefined] is not JSON: a
    JavaScript value is [None] for [undefined] or [Some j]. *)

#[warnings="-register-all"]
Inductive Json :=
| JNull
| JBool (b : bool)
| JNum (z : Z)
| JStr (s : string)
| JArr (l : list Json)
| JObj (kvs : list (string * Json)).

Abbreviation JsVal := (option Json).

(** A document, and any object held by a caller: own properties in
    property order.  Field names are taken not to be array indices, so
    property order is insertion order. *)
Abbreviation Doc := (list (string * Json)).

(** A query object may carry [undefined] as a value
    ([Object.fromEntries([[key, data[key]]])]). *)
Abbreviation Query := (list (string * JsVal)).

(** [obj[key]] on own properties. *)
Fixpoint obj_get {A} (o : list (string * A)) (key : string) : option A :=
  match o with
  | [] => None
  | (k, v) :: o' => if bool_decide (k = key) then Some v else obj_get o' key
  end.

(** [obj[key] = v]: an existing property keeps its place. *)
Fixpoint obj_set {A} (o : list (string * A)) (key : string) (v : A)
  : list (string * A) :=
  match o with
  | [] => [(key, v)]
  | (k, w) :: o' =>
      if bool_decide (k = key) then (k, v) :: o' else (k, w) :: obj_set o' key v
  end.

(** [Object.keys(obj)]. *)
Definition obj_keys {A} (o : list (string * A)) : list string := o.*1.

Definition doc_query (d : Doc) : Query := (λ kv, (kv.1, Some kv.2)) <$> d.

(** [!!v]. *)
Definition truthy (v : JsVal) : bool :=
  match v with
  | None => false
  | Some JNull => false
  | Some (JBool b) => b
  | Some (JNum z) => negb (z =? 0)
  | Some (JStr s) => negb (bool_decide (s = ""))
  | Some (JArr _) => true
  | Some (JObj _) => true
  end.

(** [a === b] where [b] was produced by [JSON.parse]: primitives compare
    by value; an array or object just parsed is a fresh reference, equal
    to nothing else. *)
Definition strict_eq (a b : JsVal) : bool :=
  match a, b with
  | None, None => true
  | Some JNull, Some JNull => true
  | Some (JBool x), Some (JBool y) => bool_decide (x = y)
  | Some (JNum x), Some (JNum y) => bool_decide (x = y)
  | Some (JStr x), Some (JStr y) => bool_decide (x = y)
  | _, _ => false
  end.


(** *** [JSON.stringify] and [pathsafe] *)

Definition hex_digit (n : N) : ascii :=
  match n with
  | 0 => "0" | 1 => "1" | 2 => "2" | 3 => "3" | 4 => "4" | 5 => "5"
  | 6 => "6" | 7 => "7" | 8 => "8" | 9 => "9" | 10 => "a" | 11 => "b"
  | 12 => "c" | 13 => "d" | 14 => "e" | _ => "f"
  end%N%char.

Definition hex_byte (c : ascii) : string :=
  let n := N_of_ascii c in
  String (hex_digit (n / 16)) (String (hex_digit (n mod 16)) "").

(** [Buffer.from(s, "utf-8").toString("hex")]. *)
Fixpoint hex_encode (s : string) : string :=
  match s with
  | EmptyString => ""
  | String c s' => hex_byte c +:+ hex_encode s'
  end.

Definition escape_char (c : ascii) : string :=
  let n := N_of_ascii c in
  if (n =? 34)%N then String (ascii_of_N 92) (String (ascii_of_N 34) "")
  else if (n =? 92)%N then String (ascii_of_N 92) (String (ascii_of_N 92) "")
  else if (n =? 8)%N then "\b"
  else if (n =? 9)%N then "\t"
  else if (n =? 10)%N then "\n"
  else if (n =? 12)%N then "\f"
  else if (n =? 13)%N then "\r"
  else if (n <? 32)%N then "\u00" +:+ hex_byte c
  else String c "".

Fixpoint escape_string (s : string) : string :=
  match s with
  | EmptyString => ""
  | String c s' => escape_char c +:+ escape_string s'
  end.

Definition quote (s : string) : string :=
  String (ascii_of_N 34) (escape_string s +:+ String (ascii_of_N 34) "").

Fixpoint digits_of (fuel : nat) (n : N) (acc : string) : string :=
  match fuel with
  | O => acc
  | S fuel' =>
      let acc' := String (hex_digit (n mod 10)) acc in
      if (n / 10 =? 0)%N then acc' else digits_of fuel' (n / 10)%N acc'
  end.

Definition decimal (z : Z) : string :=
  let n := Z.to_N (Z.abs z) in
  (if z <? 0 then "-" else "") +:+ digits_of (S (N.to_nat (N.log2 n))) n "".

Definition sep_by (sep : string) (l : list string) : string :=
  match l with
  | [] => ""
  | x :: xs => x +:+ foldr (λ y acc, sep +:+ y +:+ acc) "" xs
  end.

Fixpoint json_stringify (j : Json) : string :=
  match j with
  | JNull => "null"
  | JBool true => "true"
  | JBool false => "false"
  | JNum z => decimal z
  | JStr s => quote s
  | JArr l => "[" +:+ sep_by "," (map json_stringify l) +:+ "]"
  | JObj kvs =>
      "{" +:+ sep_by ","
        (map (λ kv : string * Json,
                quote kv.1 +:+ ":" +:+ json_stringify kv.2) kvs) +:+ "}"
  end.

(** ** Errors and outcomes *)

Inductive Error :=
| PathEscapeError            (* "Requested path is outside of the DB" *)
| MissingRequiredFieldError  (* "Required value not supplied and no default defined!" *)
| UniqueConstraintViolation  (* "Schema requires unique value, but query found collision" *)
| TypeError                  (* raised by the JavaScript runtime or Node's argument checks *)
| SyntaxError                (* [JSON.parse] *)
| IOError (code : string)    (* a failed file system call *)
| Hangs.                     (* the call never returns *)

Inductive Outcome (A : Type) :=
| Ret (a : A)
| Throw (e : Error).
Arguments Ret {A} a.
Arguments Throw {A} e.

(** [pathsafe(data)]: [JSON.stringify(undefined)] is [undefined], which
    [Buffer.from] rejects. *)
Definition pathsafe (v : JsVal) : Outcome string :=
  match v with
  | None => Throw TypeError
  | Some j => Ret (hex_encode (json_stringify j))
  end.

(** ** The file system ([fs], [fs/promises])

    A file the program wrote holds the text [JSON.stringify] produced; it
    is represented by the value that text denotes.  Any other file is
    [OtherText].  Nodes are keyed by the segments of their canonical
    absolute path; every path the program passes to a file system call is
    absolute (an output of [path.resolve]). *)

Inductive FileText :=
| JsonText (j : Json)
| OtherText.

Inductive Node :=
| File (t : FileText)
| Dir.

Abbreviation FS := (gmap (list string) Node).

Module Fs.

Definition key (p : string) : list string :=
  Path.normalize_segs false (Path.split p).

(** The root directory is always there. *)
Definition lookup (fs : FS) (k : list string) : option Node :=
  match k with
  | [] => Some Dir
  | _ => fs !! k
  end.

Definition parent (k : list string) : list string := take (length k - 1) k.

(** [existsSync(p)]. *)
Definition exists_sync (fs : FS) (p : string) : bool :=
  match lookup fs (key p) with
  | Some _ => true
  | None => false
  end.

(** [readFile(p, "utf-8")]. *)
Definition read_file (fs : FS) (p : string) : Outcome FileText :=
  match lookup fs (key p) with
  | Some (File t) => Ret t
  | Some Dir => Throw (IOError "EISDIR")
  | None => Throw (IOError "ENOENT")
  end.

(** [writeFile(p, text, "utf-8")]. *)
Definition write_file (fs : FS) (p : string) (t : FileText) : Outcome FS :=
  let k := key p in
  match lookup fs k with
  | Some Dir => Throw (IOError "EISDIR")
  | _ =>
      match lookup fs (parent k) with
      | Some Dir => Ret (<[k := File t]> fs)
      | Some (File _) => Throw (IOError "ENOTDIR")
      | None => Throw (IOError "ENOENT")
      end
  end.

Fixpoint mkdir_from (fs : FS) (made todo : list string) : Outcome FS :=
  match todo with
  | [] => Ret fs
  | seg :: todo' =>
      let k := made ++ [seg] in
      match fs !! k with
      | Some (File _) =>
          Throw (IOError (match todo' with [] => "EEXIST" | _ => "ENOTDIR" end))
      | Some Dir => mkdir_from fs k todo'
      | None => mkdir_from (<[k := Dir]> fs) k todo'
      end
  end.

(** [mkdir(p, {recursive: true})]. *)
Definition mkdir_p (fs : FS) (p : string) : Outcome FS :=
  mkdir_from fs [] (key p).

(** [rm(p, {force: true, recursive: true})]. *)
Definition rm_rf (fs : FS) (p : string) : FS :=
  filter (λ kv : list string * Node, ¬ key p `prefix_of` kv.1) fs.

Definition child_of (k k' : list string) : option string :=
  match drop (length k) k' with
  | [x] => if bool_decide (take (length k) k' = k) then Some x else None
  | _ => None
  end.

(** [readdir(p, "utf-8")]; the order of the names is the map's. *)
Definition readdir (fs : FS) (p : string) : Outcome (list string) :=
  match lookup fs (key p) with
  | Some Dir => Ret (omap (λ kv : list string * Node, child_of (key p) kv.1)
                          (map_to_list fs))
  | Some (File _) => Throw (IOError "ENOTDIR")
  | None => Throw (IOError "ENOENT")
  end.

End Fs.

(** [JSON.parse] of a file's text. *)
Definition json_parse (t : FileText) : Outcome Json :=
  match t with
  | JsonText j => Ret j
  | OtherText => Throw SyntaxError
  end.

(** ** The [Map] object used as the cache

    [entries] are the Map's entries in insertion order, [own] the
    properties set on the object itself, [proto] its prototype when that is
    no longer [Map.prototype].  The program stores with [cache[path] = data]
    (a property) and asks with [cache.has(path)] (an entry).  The values are
    data, never functions. *)

Record JsMap := {
  entries : list (string * JsVal);
  own : gmap string JsVal;
  proto : option Json;
}.

Module Cache.

Definition empty : JsMap := {| entries := []; own := ∅; proto := None |}.

(** [cache.m] is still the method of [Map.prototype]: no own property
    shadows it (a data value is not callable) and the prototype is in
    place. *)
Definition has_method (c : JsMap) (m : string) : bool :=
  match own c !! m, proto c with
  | None, None => true
  | _, _ => false
  end.

(** [cache.has(k)]. *)
Definition has (c : JsMap) (k : string) : Outcome bool :=
  if has_method c "has"
  then Ret (bool_decide (k ∈ (entries c).*1))
  else Throw TypeError.

(** [cache.delete(k)]. *)
Definition delete (c : JsMap) (k : string) : Outcome JsMap :=
  if has_method c "delete"
  then Ret {| entries := filter (λ kv, kv.1 ≠ k) (entries c);
              own := own c; proto := proto c |}
  else Throw TypeError.

Definition is_object (v : JsVal) : option Json :=
  match v with
  | Some ((JObj _ | JArr _ | JNull) as j) => Some j
  | _ => None
  end.

(** Whether the [__proto__] setter of [Object.prototype] is what an
    assignment to [cache.__proto__] reaches. *)
Definition proto_setter_reached (c : JsMap) : bool :=
  match own c !! "__proto__", proto c with
  | Some _, _ => false
  | None, None => true
  | None, Some JNull => false
  | None, Some (JObj kvs) =>
      match obj_get kvs "__proto__" with Some _ => false | None => true end
  | None, Some _ => true
  end.

(** [cache[k] = v] in strict code (a class body is strict).  [size] is an
    accessor of [Map.prototype] with no setter; [__proto__] is an accessor
    of [Object.prototype]. *)
Definition assign (c : JsMap) (k : string) (v : JsVal) : Outcome JsMap :=
  let set_own := Ret {| entries := entries c; own := <[k := v]> (own c);
                        proto := proto c |} in
  match own c !! k with
  | Some _ => set_own
  | None =>
      if bool_decide (k = "size") && bool_decide (proto c = None)
      then Throw TypeError
      else if bool_decide (k = "__proto__") && proto_setter_reached c
      then match is_object v with
           | Some j => Ret {| entries := entries c; own := own c;
                              proto := Some j |}
           | None => Ret c
           end
      else set_own
  end.

(** [cache[k]], as far as it is a data value. *)
Definition get (c : JsMap) (k : string) : JsVal :=
  match own c !! k with
  | Some v => v
  | None =>
      match proto c with
      | Some (JObj kvs) => obj_get kvs k
      | _ => None
      end
  end.

(** What the object keeps alive: its entries and its own properties. *)
Definition resident (c : JsMap) : nat :=
  length (entries c) + size (own c).

(** [cache.size]. *)
Definition size (c : JsMap) : JsVal :=
  match own c !! "size", proto c with
  | Some v, _ => v
  | None, None => Some (JNum (Z.of_nat (length (entries c))))
  | None, Some (JObj kvs) => obj_get kvs "size"
  | None, Some _ => None
  end.

Section Eviction.

(** [v < 10000] and [v >= 10000] for a string, array or object [v]: the
    comparison coerces [v] to a number, which can raise ([None]). *)
Variables coerce_lt coerce_ge : Json → option bool.

Definition below_mark (v : JsVal) : option bool :=
  match v with
  | None => Some false
  | Some JNull => Some true
  | Some (JBool _) => Some true
  | Some (JNum z) => Some (z <? 10000)
  | Some j => coerce_lt j
  end.

Definition at_mark (v : JsVal) : option bool :=
  match v with
  | None => Some false
  | Some JNull => Some false
  | Some (JBool _) => Some false
  | Some (JNum z) => Some (10000 <=? z)
  | Some j => coerce_ge j
  end.

(** [cache.keys()] returns an iterator: the Map's, or the array iterator
    when the prototype was replaced by an array. *)
Definition keys_callable (c : JsMap) : bool :=
  match own c !! "keys", proto c with
  | None, None => true
  | None, Some (JArr _) => true
  | _, _ => false
  end.

(** [while (cache.size >= 10000) for (i < 200) cache.delete(keys.next().value)]:
    each round deletes the 200 oldest entries. *)
Fixpoint evict (fuel : nat) (c : JsMap) : Outcome JsMap :=
  match at_mark (size c) with
  | None => Throw TypeError
  | Some false => Ret c
  | Some true =>
      if has_method c "delete" then
        match fuel with
        | O => Throw Hangs
        | S fuel' =>
            evict fuel' {| entries := drop 200 (entries c); own := own c;
                           proto := proto c |}
        end
      else Throw TypeError
  end.

(** The body of the [cacheClear] timer. *)
Definition clear (c : JsMap) : Outcome JsMap :=
  match below_mark (size c) with
  | None => Throw TypeError
  | Some true => Ret c
  | Some false =>
      if keys_callable c then evict (S (length (entries c))) c
      else Throw TypeError
  end.

End Eviction.

End Cache.

(** ** Program state and the monad of operations

    [heap] holds the objects callers pass by reference, [seed] the entropy
    consumed by [randomUUID] and by default producers, [events] what was
    emitted on the event bus, oldest first.  An asynchronous call is run to
    completion before the next one starts (every caller awaits), and a
    thrown error keeps the effects made before it. *)

Inductive Variant := PlexDB | PlexServer.

Inductive Event :=
| EvWrite (d : Doc)
| EvCreate (ref : nat)
| EvDelete (id : JsVal)
| EvQuery (q : Query) (results : list JsVal).

Record State := {
  fs : FS;
  cache : JsMap;
  heap : gmap nat Doc;
  seed : nat;
  events : list Event;
}.

Record Db := {
  root : string;
  cwd : string;
  variant : Variant;
}.

Definition M (A : Type) : Type := State → Outcome A * State.

Definition ret {A} (a : A) : M A := λ s, (Ret a, s).
Definition throw {A} (e : Error) : M A := λ s, (Throw e, s).
Definition bind {A B} (m : M A) (k : A → M B) : M B :=
  λ s, match m s with
       | (Ret a, s') => k a s'
       | (Throw e, s') => (Throw e, s')
       end.

Notation "x <- m ;; k" := (bind m (λ x, k))
  (at level 100, m at next level, k at level 200, only parsing).

Definition lift {A} (o : Outcome A) : M A := λ s, (o, s).
Definition gets {A} (f : State → A) : M A := λ s, (Ret (f s), s).

Definition set_fs (f : FS) : M unit :=
  λ s, (Ret tt, {| fs := f; cache := cache s; heap := heap s;
                   seed := seed s; events := events s |}).
Definition set_cache (c : JsMap) : M unit :=
  λ s, (Ret tt, {| fs := fs s; cache := c; heap := heap s;
                   seed := seed s; events := events s |}).
Definition set_heap (h : gmap nat Doc) : M unit :=
  λ s, (Ret tt, {| fs := fs s; cache := cache s; heap := h;
                   seed := seed s; events := events s |}).

(** One draw of entropy. *)
Definition fresh : M nat :=
  λ s, (Ret (seed s), {| fs := fs s; cache := cache s; heap := heap s;
                         seed := S (seed s); events := events s |}).

(** [this.db.events.emit(...)]: only [PlexDB] has these events. *)
Definition emit (db : Db) (e : Event) : M unit :=
  λ s, match variant db with
       | PlexDB => (Ret tt, {| fs := fs s; cache := cache s; heap := heap s;
                               seed := seed s; events := events s ++ [e] |})
       | PlexServer => (Ret tt, s)
       end.

(** [Promise.all(ms)] where each promise runs to completion in turn: a
    rejection does not stop the others, and the first one is reported. *)
Fixpoint promise_all (ms : list (M unit)) : M unit :=
  match ms with
  | [] => ret tt
  | m :: ms' =>
      λ s, match m s with
           | (Ret _, s') => promise_all ms' s'
           | (Throw e, s') => (Throw e, (promise_all ms' s').2)
           end
  end.

(** The constructors: [PlexDB] resolves the folder, [PlexServer] keeps it
    as given. *)
Definition open_PlexDB (cwd folder : string) : Db :=
  {| root := Path.resolve cwd folder; cwd := cwd; variant := PlexDB |}.
Definition open_PlexServer (cwd folder : string) : Db :=
  {| root := folder; cwd := cwd; variant := PlexServer |}.

Definition initial_state (f : FS) : State :=
  {| fs := f; cache := Cache.empty; heap := ∅; seed := O; events := [] |}.

(** ** [storage] *)

(** [storage.prefix]. *)
Definition storage_prefix (db : Db) (path : string) : M string :=
  let p := Path.resolve (cwd db)
             (Path.normalize (Path.posix_join [root db; path])) in
  if Path.starts_with (root db) p then ret p else throw PathEscapeError.

(** [storage.read]. *)
Definition storage_read (db : Db) (path : string) : M JsVal :=
  c <- gets cache ;;
  hit <- lift (Cache.has c path) ;;
  if hit then ret (Cache.get c path)
  else
    p <- storage_prefix db path ;;
    f <- gets fs ;;
    if negb (Fs.exists_sync f p) then ret None
    else
      t <- lift (Fs.read_file f p) ;;
      j <- lift (json_parse t) ;;
      ret (Some j).

(** [writeFile(path, JSON.stringify(data), "utf-8")]: [undefined] is
    refused before the file is touched. *)
Definition write_json (p : string) (data : JsVal) : M unit :=
  match data with
  | None => throw TypeError
  | Some j =>
      f <- gets fs ;;
      f' <- lift (Fs.write_file f p (JsonText j)) ;;
      set_fs f'
  end.

(** [storage.write]. *)
Definition storage_write (db : Db) (path : string) (data : JsVal) : M unit :=
  c <- gets cache ;;
  c' <- lift (Cache.assign c path data) ;;
  _ <- set_cache c' ;;
  p <- storage_prefix db path ;;
  f <- gets fs ;;
  _ <- (if negb (Fs.exists_sync f (Path.dirname p))
        then (f' <- lift (Fs.mkdir_p f (Path.dirname p)) ;; set_fs f')
        else ret tt) ;;
  write_json p data.

(** [storage.exists]. *)
Definition storage_exists (db : Db) (path : string) : M bool :=
  c <- gets cache ;;
  hit <- lift (Cache.has c path) ;;
  if hit then ret true
  else
    p <- storage_prefix db path ;;
    f <- gets fs ;;
    ret (Fs.exists_sync f p).

(** [storage.list]. *)
Definition storage_list (db : Db) (path : string) : M (option (list string)) :=
  e <- storage_exists db path ;;
  if negb e then ret None
  else
    p <- storage_prefix db path ;;
    f <- gets fs ;;
    l <- lift (Fs.readdir f p) ;;
    ret (Some l).

(** [storage.remove]: the argument of [cache.delete] is evaluated before
    the call. *)
Definition storage_remove (db : Db) (path : string) : M unit :=
  p <- storage_prefix db path ;;
  c <- gets cache ;;
  c' <- lift (Cache.delete c p) ;;
  _ <- set_cache c' ;;
  e <- storage_exists db path ;;
  if e then
    p' <- storage_prefix db path ;;
    f <- gets fs ;;
    set_fs (Fs.rm_rf f p')
  else ret tt.

(** [storage.makedir]. *)
Definition storage_makedir (db : Db) (path : string) : M unit :=
  p <- storage_prefix db path ;;
  f <- gets fs ;;
  f' <- lift (Fs.mkdir_p f p) ;;
  set_fs f'.

(** [storage.cacheClear], one tick of the timer. *)
Definition storage_cacheClear (coerce_lt coerce_ge : Json → option bool)
  : M unit :=
  c <- gets cache ;;
  c' <- lift (Cache.clear coerce_lt coerce_ge c) ;;
  set_cache c'.

(** ** Schemas and collections *)

Inductive Default :=
| NoDefault
| Constant (j : Json)
| Producer (g : nat → Json).   (* a function of the entropy it draws; awaited when asynchronous *)

Record FieldDesc := {
  fd_index : bool;
  fd_unique : bool;
  fd_required : bool;
  fd_default : Default;
}.

Abbreviation Schema := (list (string * FieldDesc)).

Record Collection := {
  c_name : string;
  c_schema : Schema;
  c_db : Db;
}.

(** The descriptor the constructor installs for [id]; [PlexServer] spells
    the flag [uniqure], which leaves [unique] unset. *)
Definition id_descriptor (v : Variant) (randomUUID : nat → string) : FieldDesc :=
  {| fd_index := true;
     fd_unique := match v with PlexDB => true | PlexServer => false end;
     fd_required := true;
     fd_default := Producer (λ n, JStr (randomUUID n)) |}.



Module Collection.

(** [q[key]] for a query object. *)
Definition query_get (q : Query) (key : string) : JsVal :=
  mjoin (obj_get q key).

(** [candidates.add(v)]: a Set keeps one copy of a primitive; values just
    parsed from a file are distinct objects. *)
Definition add_candidate (cands : list JsVal) (v : JsVal) : list JsVal :=
  if existsb (strict_eq v) cands then cands else cands ++ [v].

Definition index_path (c : Collection) (key : string) (v : JsVal)
  : Outcome string :=
  match pathsafe v with
  | Ret h => Ret (Path.posix_join ["index"; c_name c; key; h])
  | Throw e => Throw e
  end.

(** The callback mapped over [Object.keys(data)] in [findAll] and
    [findOne]. *)
Definition probe (c : Collection) (q : Query) (cands : list JsVal)
    (key : string) : M (list JsVal) :=
  if bool_decide (key = "id") then ret cands
  else
    match obj_get (c_schema c) key with
    | None => ret cands
    | Some fd =>
        if fd_index fd then
          indexPath <- lift (index_path c key (query_get q key)) ;;
          e <- storage_exists (c_db c) indexPath ;;
          if negb e then ret cands
          else
            fileContent <- storage_read (c_db c) indexPath ;;
            if fd_unique fd then ret (add_candidate cands fileContent)
            else
              match fileContent with
              | Some (JArr l) => ret (foldl add_candidate cands (Some <$> l))
              | _ => throw TypeError
              end
        else ret cands
    end.

(** The probes only read, so running them in key order and stopping at
    the first rejection leaves the same state as [Promise.all]. *)
Fixpoint gather (c : Collection) (q : Query) (keys : list string)
    (cands : list JsVal) : M (list JsVal) :=
  match keys with
  | [] => ret cands
  | key :: keys' =>
      cands' <- probe c q cands key ;;
      gather c q keys' cands'
  end.

(** [join("data", this.name, candidate)]: [join] wants strings. *)
Definition data_path (c : Collection) (id : JsVal) : Outcome string :=
  match id with
  | Some (JStr i) => Ret (Path.posix_join ["data"; c_name c; i])
  | _ => Throw TypeError
  end.

Fixpoint parse_nat (s : string) (acc : nat) : option nat :=
  match s with
  | EmptyString => Some acc
  | String ch s' =>
      match Ascii.is_nat ch with
      | Some dgt => parse_nat s' (10 * acc + dgt)%nat
      | None => None
      end
  end.

(** [obj[key]] as far as it is data: own properties of an object, the
    elements and length of an array, the length and characters of a
    string of ASCII text. *)
Definition field_of (obj : JsVal) (key : string) : Outcome JsVal :=
  match obj with
  | None | Some JNull => Throw TypeError
  | Some (JObj kvs) => Ret (obj_get kvs key)
  | Some (JArr l) =>
      if bool_decide (key = "length") then Ret (Some (JNum (Z.of_nat (length l))))
      else match parse_nat key O with
           | Some n => if bool_decide (decimal (Z.of_nat n) = key ∧ key ≠ "")
                       then Ret (l !! n) else Ret None
           | None => Ret None
           end
  | Some (JStr s) =>
      if bool_decide (key = "length")
      then Ret (Some (JNum (Z.of_nat (String.length s))))
      else match parse_nat key O with
           | Some n => if bool_decide (decimal (Z.of_nat n) = key ∧ key ≠ "")
                       then Ret ((λ ch, JStr (String ch "")) <$> String.get n s)
                       else Ret None
           | None => Ret None
           end
  | Some _ => Ret None
  end.

(** [Object.keys(data).every(key => data[key] === obj[key])]. *)
Fixpoint every_match (q : Query) (keys : list string) (obj : JsVal)
  : Outcome bool :=
  match keys with
  | [] => Ret true
  | key :: keys' =>
      match field_of obj key with
      | Throw e => Throw e
      | Ret v =>
          if strict_eq (query_get q key) v then every_match q keys' obj
          else Ret false
      end
  end.

Fixpoint collect (c : Collection) (q : Query) (cands : list JsVal)
    (results : list JsVal) : M (list JsVal) :=
  match cands with
  | [] => ret results
  | candidate :: cands' =>
      p <- lift (data_path c candidate) ;;
      obj <- storage_read (c_db c) p ;;
      ok <- lift (every_match q (obj_keys q) obj) ;;
      collect c q cands' (if ok then results ++ [obj] else results)
  end.

(** [findAll]. *)
Definition findAll (c : Collection) (q : Query) : M (list JsVal) :=
  candidates <- gather c q (obj_keys q) [] ;;
  results <- collect c q candidates [] ;;
  _ <- emit (c_db c) (EvQuery q results) ;;
  ret results.

Fixpoint first_match (c : Collection) (q : Query) (cands : list JsVal)
  : M JsVal :=
  match cands with
  | [] => ret None
  | candidate :: cands' =>
      p <- lift (data_path c candidate) ;;
      obj <- storage_read (c_db c) p ;;
      ok <- lift (every_match q (obj_keys q) obj) ;;
      if ok then (_ <- emit (c_db c) (EvQuery q [obj]) ;; ret obj)
      else first_match c q cands'
  end.

(** [findOne]. *)
Definition findOne (c : Collection) (q : Query) : M JsVal :=
  candidates <- gather c q (obj_keys q) [] ;;
  first_match c q candidates.

(** The callback mapped over [Object.keys(data)] in [delete]. *)
Definition unindex (c : Collection) (d : Doc) (key : string) : M unit :=
  if bool_decide (key = "id") then ret tt
  else
    match obj_get (c_schema c) key with
    | None => throw TypeError
    | Some fd =>
        if fd_index fd then
          p <- lift (index_path c key (obj_get d key)) ;;
          _ <- storage_remove (c_db c) p ;;
          emit (c_db c) (EvDelete (obj_get d "id"))
        else ret tt
    end.

(** [delete]. *)
Definition delete (c : Collection) (d : Doc) : M unit :=
  p <- lift (data_path c (obj_get d "id")) ;;
  promise_all (storage_remove (c_db c) p :: (unindex c d <$> obj_keys d)).

(** [get]. *)
Definition get (c : Collection) (id : string) : M JsVal :=
  storage_read (c_db c) (Path.posix_join ["data"; c_name c; id]).

(** [ids.push(data.id)] on what [read(indexPath) || []] gave. *)
Definition push_id (ids : JsVal) (id : JsVal) : Outcome Json :=
  match id with
  | None => Throw TypeError
  | Some i =>
      if truthy ids then
        match ids with
        | Some (JArr l) => Ret (JArr (l ++ [i]))
        | _ => Throw TypeError
        end
      else Ret (JArr [i])
  end.

(** The callback mapped over [Object.keys(data)] in [write]. *)
Definition reindex (c : Collection) (d : Doc) (key : string) : M unit :=
  if bool_decide (key = "id") then ret tt
  else
    match obj_get (c_schema c) key with
    | None => throw TypeError
    | Some fd =>
        if fd_index fd then
          indexPath <- lift (index_path c key (obj_get d key)) ;;
          if fd_unique fd then
            storage_write (c_db c) indexPath (obj_get d "id")
          else
            ids <- storage_read (c_db c) indexPath ;;
            ids' <- lift (push_id ids (obj_get d "id")) ;;
            _ <- storage_write (c_db c) indexPath (Some ids') ;;
            emit (c_db c) (EvWrite d)
        else ret tt
    end.

(** [write]. *)
Definition write (c : Collection) (d : Doc) : M unit :=
  _ <- emit (c_db c) (EvWrite d) ;;
  p <- lift (data_path c (obj_get d "id")) ;;
  promise_all (storage_write (c_db c) p (Some (JObj d))
                 :: (reindex c d <$> obj_keys d)).

(** [data[key]] and [data[key] = v] on the caller's object. *)
Definition deref (ref : nat) : M Doc :=
  λ s, match heap s !! ref with
       | Some d => (Ret d, s)
       | None => (Throw TypeError, s)
       end.

Definition set_field (ref : nat) (key : string) (v : Json) : M unit :=
  d <- deref ref ;;
  h <- gets heap ;;
  set_heap (<[ref := obj_set d key v]> h).

(** [!this.schema[key].default]. *)
Definition no_default (dflt : Default) : bool :=
  match dflt with
  | NoDefault => true
  | Constant j => negb (truthy (Some j))
  | Producer _ => false
  end.

(** One round of the loop of [create]. *)
Definition create_field (c : Collection) (ref : nat) (key : string) : M unit :=
  match obj_get (c_schema c) key with
  | None => throw TypeError
  | Some fd =>
      if bool_decide (key = "id") then
        match fd_default fd with
        | Producer g => n <- fresh ;; set_field ref key (g n)
        | _ => throw TypeError
        end
      else
        d <- deref ref ;;
        _ <- (if fd_required fd && negb (truthy (obj_get d key)) then
                if no_default (fd_default fd)
                then throw MissingRequiredFieldError
                else
                  match fd_default fd with
                  | Producer g => n <- fresh ;; set_field ref key (g n)
                  | Constant j => set_field ref key j
                  | NoDefault => ret tt
                  end
              else ret tt) ;;
        if fd_unique fd then
          d' <- deref ref ;;
          found <- findOne c [(key, obj_get d' key)] ;;
          if truthy found then throw UniqueConstraintViolation else ret tt
        else ret tt
  end.

Fixpoint create_fields (c : Collection) (ref : nat) (keys : list string)
  : M unit :=
  match keys with
  | [] => ret tt
  | key :: keys' =>
      _ <- create_field c ref key ;;
      create_fields c ref keys'
  end.

(** [create]: the argument is the reference the caller holds, and it is
    that reference which is returned. *)
Definition create (c : Collection) (ref : nat) : M nat :=
  _ <- create_fields c ref (obj_keys (c_schema c)) ;;
  _ <- emit (c_db c) (EvCreate ref) ;;
  ret ref.

End Collection.

(** ** A storage engine with no cache

    The reference the cached engine is compared with: the same calls on
    the file system, with every line that mentions [cache] left out. *)

Module NoCache.


Definition write (d : Db) (path : string) (data : JsVal) : M unit :=
  p <- storage_prefix d path ;;
  f <- gets fs ;;
  _ <- (if negb (Fs.exists_sync f (Path.dirname p))
        then (f' <- lift (Fs.mkdir_p f (Path.dirname p)) ;; set_fs f')
        else ret tt) ;;
  write_json p data.

Definition exists_ (d : Db) (path : string) : M bool :=
  p <- storage_prefix d path ;;
  f <- gets fs ;;
  ret (Fs.exists_sync f p).

Definition list (d : Db) (path : string) : M (option (list string)) :=
  e <- exists_ d path ;;
  if negb e then ret None
  else
    p <- storage_prefix d path ;;
    f <- gets fs ;;
    l <- lift (Fs.readdir f p) ;;
    ret (Some l).



End NoCache.

(** ** Calls on the storage engine, and what a caller observes *)

Inductive Op :=
| OpRead (path : string)
| OpWrite (path : string) (data : JsVal)
| OpExists (path : string)
| OpList (path : string)
| OpRemove (path : string)
| OpMakedir (path : string)
| OpTick.                      (* the eviction timer fires *)

Inductive Obs :=
| ObsValue (v : JsVal)
| ObsBool (b : bool)
| ObsNames (l : option (list string))
| ObsDone
| ObsError (e : Error).

Definition observe {A} (f : A → Obs) (m : M A) : State → Obs * State :=
  λ s, match m s with
       | (Ret a, s') => (f a, s')
       | (Throw e, s') => (ObsError e, s')
       end.


Section Traces.

Variables coerce_lt coerce_ge : Json → option bool.
Variable d : Db.

Definition run_op (o : Op) : State → Obs * State :=
  match o with
  | OpRead p => observe ObsValue (storage_read d p)
  | OpWrite p v => observe (λ _, ObsDone) (storage_write d p v)
  | OpExists p => observe ObsBool (storage_exists d p)
  | OpList p => observe ObsNames (storage_list d p)
  | OpRemove p => observe (λ _, ObsDone) (storage_remove d p)
  | OpMakedir p => observe (λ _, ObsDone) (storage_makedir d p)
  | OpTick => observe (λ _, ObsDone) (storage_cacheClear coerce_lt coerce_ge)
  end.


Fixpoint run_trace (step : Op → State → Obs * State) (ops : list Op)
    (s : State) : list Obs * State :=
  match ops with
  | [] => ([], s)
  | o :: ops' =>
      let '(b, s') := step o s in
      let '(bs, s'') := run_trace step ops' s' in
      (b :: bs, s'')
  end.

End Traces.

(** The names of the members of the Map object that a stored property
    would shadow or hit. *)
Definition member_names : list string := ["has"; "delete"; "size"; "__proto__"].

(** The cache is as the constructor left it, apart from data properties. *)
Definition cache_usable (c : JsMap) : Prop :=
  entries c = [] ∧ proto c = None ∧
  own c !! "has" = None ∧ own c !! "delete" = None ∧ own c !! "size" = None.

(** ** Well-formed databases, collections and identifiers *)

Fixpoint slash_free (s : string) : bool :=
  match s with
  | EmptyString => true
  | String ch s' => negb (Path.is_slash ch) && slash_free s'
  end.

(** The root is a canonical absolute path, as [path.resolve] returns. *)
Definition canonical_root (d : Db) (rs : list string) : Prop :=
  Forall Path.plain rs ∧ root d = Path.abs_path rs.

(** The collection name and the field names are single path segments, and
    the schema is an object: one descriptor per name. *)
Definition collection_ok (c : Collection) : Prop :=
  Path.plain (c_name c) ∧ Forall Path.plain (c_schema c).*1 ∧
  NoDup (c_schema c).*1.

Definition is_hex_char (ch : ascii) : bool :=
  match ch with
  | "0" | "1" | "2" | "3" | "4" | "5" | "6" | "7" | "8" | "9"
  | "a" | "b" | "c" | "d" | "e" | "f" => true
  | _ => false
  end%char.

Fixpoint all_hex (s : string) : bool :=
  match s with
  | EmptyString => true
  | String ch s' => is_hex_char ch && all_hex s'
  end.

Fixpoint matches_shape (shape : list bool) (s : string) : bool :=
  match shape, s with
  | [], EmptyString => true
  | dash :: shape', String ch s' =>
      (if dash : bool then bool_decide (ch = "-"%char) else is_hex_char ch)
      && matches_shape shape' s'
  | _, _ => false
  end.

(** The form of what [crypto.randomUUID] returns: 8-4-4-4-12. *)
Definition is_uuid (s : string) : bool :=
  matches_shape
    (replicate 8 false ++ [true] ++ replicate 4 false ++ [true] ++
     replicate 4 false ++ [true] ++ replicate 4 false ++ [true] ++
     replicate 12 false) s.

(** The document has a string [id] that is a single path segment. *)
Definition has_id (d : Doc) (i : string) : Prop :=
  obj_get d "id" = Some (JStr i) ∧ Path.plain i.

(** [for (const d of ds) await collection.write(d)]. *)
Fixpoint write_each (c : Collection) (ds : list Doc) : M unit :=
  match ds with
  | [] => ret tt
  | d :: ds' => _ <- Collection.write c d ;; write_each c ds'
  end.

(** ** Effects of the storage calls on the file system *)


(** [f'] is [f] after one [storage.remove] of the node [k]. *)
Definition removed (k : list string) (f f' : FS) : Prop :=
  f' !! k = None ∧
  (∀ k', ¬ k `prefix_of` k' → f' !! k' = f !! k') ∧
  (∀ k', f !! k' = None → f' !! k' = None).


(** What [storage.read] returns for a node of the file system. *)
Definition read_node (n : option Node) : Outcome JsVal :=
  match n with
  | None => Ret None
  | Some (File (JsonText j)) => Ret (Some j)
  | Some (File OtherText) => Throw SyntaxError
  | Some Dir => Throw (IOError "EISDIR")
  end.

Definition node_exists (n : option Node) : bool :=
  match n with
  | Some _ => true
  | None => false
  end.

(** The nodes a collection keeps its documents and index entries at. *)
Definition data_key (rs : list string) (c : Collection) (i : string)
  : list string :=
  rs ++ ["data"; c_name c; i].

Definition index_key (rs : list string) (c : Collection) (key : string)
    (v : Json) : list string :=
  rs ++ ["index"; c_name c; key; hex_encode (json_stringify v)].

(** The index entry of the non-unique field [f] for the value [v] lists
    the documents [idocs] (identifier and document, in the order they
    were written), and each of them is stored with [v] in that field.
    Before the first write the entry may be missing. *)
Definition index_holds (rs : list string) (c : Collection) (f : string)
    (v : Json) (idocs : list (string * Doc)) (fsys : FS) : Prop :=
  (fsys !! index_key rs c f v
     = Some (File (JsonText (JArr (JStr <$> idocs.*1))))
   ∨ (idocs = [] ∧ fsys !! index_key rs c f v = None)) ∧
  NoDup idocs.*1 ∧
  Forall (λ id : string * Doc,
            has_id id.2 id.1 ∧ obj_get id.2 f = Some v ∧
            fsys !! data_key rs c id.1 = Some (File (JsonText (JObj id.2))))
         idocs.

(** The parts of the state a query cannot change. *)
Definition same_store (s s' : State) : Prop :=
  fs s' = fs s ∧ cache s' = cache s ∧ heap s' = heap s ∧ seed s' = seed s.

(** The caller's object after one round of the loop of [create] for the
    field [key], which found it as [d] and drew entropy [n]: what the
    round assigns, whether it then returns or throws. *)
Definition resolved (fd : FieldDesc) (key : string) (d : Doc) (n : nat) : Doc :=
  if bool_decide (key = "id") then
    match fd_default fd with
    | Producer g => obj_set d key (g n)
    | _ => d
    end
  else if fd_required fd && negb (truthy (obj_get d key)) then
    match fd_default fd with
    | Producer g => obj_set d key (g n)
    | Constant j => if truthy (Some j) then obj_set d key j else d
    | NoDefault => d
    end
  else d.

(** The [id] descriptor is the one the constructor installs, with a
    generator of well-formed identifiers. *)
Definition id_generated (c : Collection) (randomUUID : nat → string) : Prop :=
  obj_get (c_schema c) "id"
    = Some (id_descriptor (variant (c_db c)) randomUUID) ∧
  ∀ n, is_uuid (randomUUID n) = true.

(** The queried fields the schema marks as indexed. *)
Definition is_indexed (c : Collection) (key : string) : bool :=
  match obj_get (c_schema c) key with
  | Some fd => fd_index fd
  | None => false
  end.




(** ** Example data *)

Definition demo_uuid (n : nat) : string :=
  "00000000-0000-4000-8000-00000000000"
    +:+ String (hex_digit (N.of_nat n mod 16)) "".

Definition demo_db : Db := open_PlexDB "/" "/db".

Definition field (ix uq rq : bool) (dflt : Default) : FieldDesc :=
  {| fd_index := ix; fd_unique := uq; fd_required := rq; fd_default := dflt |}.

(** The [user] collection of the entry point, with two more fields. *)
Definition demo_schema : Schema :=
  [("id", field false false false NoDefault);
   ("username", field true true true
                  (Producer (λ n, JStr ("user" +:+ decimal (Z.of_nat n)))));
   ("team", field true false false NoDefault);
   ("note", field false false false NoDefault)].

Definition demo_users : Collection :=
  {| c_name := "user";
     c_schema := obj_set demo_schema "id" (id_descriptor PlexDB demo_uuid);
     c_db := demo_db |}.

(** A caller holding two objects. *)
Definition demo_start : State :=
  {| fs := ∅; cache := Cache.empty;
     heap := {[ 0%nat := [("username", JStr "alice"); ("team", JStr "red");
                          ("note", JStr "first")];
                1%nat := [("username", JStr "alice")] ]};
     seed := O; events := [] |}.

(** [create] of the first object, then [write] of the result. *)
Definition demo_created : State := (Collection.create demo_users 0%nat demo_start).2.

Definition demo_alice : Doc :=
  [("username", JStr "alice"); ("team", JStr "red"); ("note", JStr "first");
   ("id", JStr (demo_uuid 0))].

Definition demo_written : State := (Collection.write demo_users demo_alice demo_created).2.

(** [n] writes to distinct logical paths. *)
Fixpoint stroke (n : nat) : string :=
  match n with
  | O => ""
  | S n' => String "k" (stroke n')
  end.

Definition tally_path (i : nat) : string := "tally/" +:+ stroke i.

Definition tally_writes (n : nat) : list Op :=
  (λ i, OpWrite (tally_path i) (Some (JNum (Z.of_nat i)))) <$> seq 0 n.

(** What [storage.prefix] returns, which does not depend on the state. *)
Definition prefix_outcome (d : Db) (path : string) : Outcome string :=
  let p := Path.resolve (cwd d)
             (Path.normalize (Path.posix_join [root d; path])) in
  if Path.starts_with (root d) p then Ret p else Throw PathEscapeError.





(** Two documents of one team. *)
Definition demo_bob : Doc :=
  [("username", JStr "bob"); ("team", JStr "red"); ("id", JStr (demo_uuid 1))].

Definition demo_carol : Doc :=
  [("username", JStr "carol"); ("team", JStr "red"); ("id", JStr (demo_uuid 2))].

Definition demo_team : State :=
  (write_each demo_users [demo_bob; demo_carol] (initial_state ∅)).2.




(** No coercion is needed where the Map is intact. *)
Definition no_coercion : Json → option bool := λ _, None.

(** ** Setting a database up, opening and closing it *)

(** [stat(p).isDirectory()] and [mkdir(p)] without [recursive]. *)
Module FsMore.

Definition is_directory (fs : FS) (p : string) : Outcome bool :=
  match Fs.lookup fs (Fs.key p) with
  | Some Dir => Ret true
  | Some (File _) => Ret false
  | None => Throw (IOError "ENOENT")
  end.

Definition mkdir (fs : FS) (p : string) : Outcome FS :=
  let k := Fs.key p in
  match Fs.lookup fs k with
  | Some _ => Throw (IOError "EEXIST")
  | None =>
      match Fs.lookup fs (Fs.parent k) with
      | Some Dir => Ret (<[k := Dir]> fs)
      | Some (File _) => Throw (IOError "ENOTDIR")
      | None => Throw (IOError "ENOENT")
      end
  end.

(** The node [k'] as [readdir(p, {recursive: true})] names it from [k]:
    every node below, by its path from there. *)
Definition below (k k' : list string) : option string :=
  if bool_decide (take (length k) k' = k ∧ (length k < length k')%nat)
  then Some (Path.join (drop (length k) k'))
  else None.

(** [readdir(p, {recursive: true, encoding: "utf-8"})]; the order of the
    names is the map's. *)
Definition readdir_recursive (fs : FS) (p : string) : Outcome (list string) :=
  match Fs.lookup fs (Fs.key p) with
  | Some Dir => Ret (omap (λ kv : list string * Node, below (Fs.key p) kv.1)
                          (map_to_list fs))
  | Some (File _) => Throw (IOError "ENOTDIR")
  | None => Throw (IOError "ENOENT")
  end.

End FsMore.

(** The metadata [createNew] writes. *)
Definition plexmeta0 : Json :=
  JObj [("collections", JArr []); ("indexes", JObj []); ("name", JStr "db0")].

(** How [createNew] ends: [Promise.all] rejects with the rejection that
    comes first, which is one of those listed. *)
Inductive SetupOutcome :=
| Created
| CannotCreateHere (path : string)   (* "Cannot create DB here! " + path *)
| Failed (e : Error)
| FailedOneOf (es : list Error).

(** The three promises [createNew] hands to [Promise.all], each run on
    the files the one before left. *)
Definition setup_files (meta_name : string) (cwd path : string) (f : FS)
  : list Error * FS :=
  let r1 := Fs.write_file f (Path.resolve cwd (Path.posix_join [path; meta_name]))
              (JsonText plexmeta0) in
  let f1 := match r1 with Ret f' => f' | Throw _ => f end in
  let r2 := FsMore.mkdir f1 (Path.resolve cwd (Path.posix_join [path; "index"])) in
  let f2 := match r2 with Ret f' => f' | Throw _ => f1 end in
  let r3 := FsMore.mkdir f2 (Path.resolve cwd (Path.posix_join [path; "data"])) in
  let f3 := match r3 with Ret f' => f' | Throw _ => f2 end in
  (omap (λ r : Outcome FS, match r with Throw e => Some e | Ret _ => None end)
        [r1; r2; r3], f3).

(** [PlexDB.createNew(path)] and [PlexServer.createNew(path)]; a relative
    path is taken from the working directory [cwd]. *)
Definition createNew (cwd path : string) (f : FS) : SetupOutcome * FS :=
  match FsMore.is_directory f (Path.resolve cwd (Path.dirname path)) with
  | Throw e => (Failed e, f)
  | Ret false => (CannotCreateHere path, f)
  | Ret true =>
      match (if Fs.exists_sync f (Path.resolve cwd path) then Ret f
             else FsMore.mkdir f (Path.resolve cwd path)) with
      | Throw e => (Failed e, f)
      | Ret f1 =>
          match setup_files ".plexmeta" cwd path f1 with
          | ([], f2) => (Created, f2)
          | (es, f2) => (FailedOneOf es, f2)
          end
      end
  end.

(** [new PlexDB(folder)] and [new PlexServer(folder)]: the metadata is
    read when the object is made. *)
Definition read_meta (cwd p : string) (f : FS) : Outcome Json :=
  match Fs.read_file f (Path.resolve cwd p) with
  | Ret t => json_parse t
  | Throw e => Throw e
  end.

Definition new_PlexDB (cwd folder : string) (f : FS) : Outcome (Db * Json) :=
  let d := open_PlexDB cwd folder in
  match read_meta cwd (Path.posix_join [root d; ".plexmeta"]) f with
  | Ret meta => Ret (d, meta)
  | Throw e => Throw e
  end.

Definition new_PlexServer (cwd folder : string) (f : FS)
  : Outcome (Db * Json) :=
  let d := open_PlexServer cwd folder in
  match read_meta cwd (Path.posix_join [root d; ".plexmeta"]) f with
  | Ret meta => Ret (d, meta)
  | Throw e => Throw e
  end.



(** [storage.tree]. *)
Definition storage_tree (db : Db) (path : string)
  : M (option (list string)) :=
  e <- storage_exists db path ;;
  if negb e then ret None
  else
    p <- storage_prefix db path ;;
    f <- gets fs ;;
    l <- lift (FsMore.readdir_recursive f p) ;;
    ret (Some l).

(** ** [queryAll] *)

(** [Promise.all] over promises with values, run in turn as in
    [promise_all]: the values in the order of the promises, or the first
    rejection. *)
Fixpoint promise_all_values {A} (ms : list (M A)) : M (list A) :=
  match ms with
  | [] => ret []
  | m :: ms' =>
      λ s, match m s with
           | (Ret a, s') =>
               match promise_all_values ms' s' with
               | (Ret l, s'') => (Ret (a :: l), s'')
               | (Throw e, s'') => (Throw e, s'')
               end
           | (Throw e, s') => (Throw e, (promise_all_values ms' s').2)
           end
  end.

(** [queryAll(task, runtime)] for a task that touches neither the
    database nor the caller's objects: it maps a document to the value
    its promise resolves to, or rejects.  [wait] only delays. *)
Definition queryAll {R} (c : Collection) (task : JsVal → Outcome R)
  : M (list R) :=
  l <- storage_list (c_db c) (Path.posix_join ["data"; c_name c]) ;;
  match l with
  | None => throw TypeError
  | Some ids =>
      promise_all_values
        ((λ id,
            data <- storage_read (c_db c)
                      (Path.posix_join ["data"; c_name c; id]) ;;
            _ <- emit (c_db c) (EvQuery [] [data]) ;;
            lift (task data)) <$> ids)
  end.

(** ** Reading an escaped string back

    The inverse of one step of the escaping [JSON.stringify] applies to a
    string, by which distinct strings are shown to have distinct texts. *)

Definition hex_val (ch : ascii) : option N :=
  let n := N_of_ascii ch in
  if (48 <=? n)%N && (n <=? 57)%N then Some (n - 48)%N
  else if (97 <=? n)%N && (n <=? 102)%N then Some (n - 87)%N
  else None.

Definition unescape_head (s : string) : option (ascii * string) :=
  match s with
  | EmptyString => None
  | String c r =>
      if (N_of_ascii c =? 34)%N then None
      else if (N_of_ascii c =? 92)%N then
        match r with
        | String x r' =>
            if (N_of_ascii x =? 34)%N then Some (ascii_of_N 34, r')
            else if (N_of_ascii x =? 92)%N then Some (ascii_of_N 92, r')
            else match x with
                 | "b" => Some (ascii_of_N 8, r')
                 | "t" => Some (ascii_of_N 9, r')
                 | "n" => Some (ascii_of_N 10, r')
                 | "f" => Some (ascii_of_N 12, r')
                 | "r" => Some (ascii_of_N 13, r')
                 | "u" =>
                     match r' with
                     | String "0" (String "0" (String h1 (String h2 r''))) =>
                         match hex_val h1, hex_val h2 with
                         | Some a, Some b => Some (ascii_of_N (16 * a + b), r'')
                         | _, _ => None
                         end
                     | _ => None
                     end
                 | _ => None
                 end%char
        | EmptyString => None
        end
      else Some (c, r)
  end.

(** ** More example data *)

(** A Map object with entries, as [cache.set] would have made it. *)
Definition full_map : JsMap :=
  {| entries := (λ i, (tally_path i, Some (JNum (Z.of_nat i)))) <$> seq 0 (Z.to_nat 10050);
     own := ∅; proto := None |}.

(** A collection with a unique, indexed field that is not required, and
    a required field with no default. *)
Definition strict_users : Collection :=
  {| c_name := "member";
     c_schema := obj_set [("nick", field true true false NoDefault);
                          ("email", field false false true NoDefault)]
                   "id" (id_descriptor PlexDB demo_uuid);
     c_db := demo_db |}.

Definition strict_start : State :=
  {| fs := ∅; cache := Cache.empty;
     heap := {[ 0%nat := [("nick", JStr "al")]; 1%nat := [] ]};
     seed := O; events := [] |}.

(** A collection whose unique field is not indexed. *)
Definition loose_users : Collection :=
  {| c_name := "guest";
     c_schema := obj_set [("name", field false true false NoDefault)]
                   "id" (id_descriptor PlexDB demo_uuid);
     c_db := demo_db |}.






(** The files of a database just set up at [/db]. *)
Definition fresh_db : FS := (createNew "/" "/db" ∅).2.

(** * Properties *)

(** ** Strings and paths *)

Lemma append_cons (ch : ascii) (a b : string) :
  String ch a +:+ b = String ch (a +:+ b).
Proof. reflexivity. Qed.

Lemma append_empty_l (b : string) : "" +:+ b = b.
Proof. reflexivity. Qed.

Lemma append_empty_r (a : string) : a +:+ "" = a.
Proof. induction a as [|ch a IH]; [done|]. by rewrite append_cons, IH. Qed.

Lemma append_assoc (a b c : string) : (a +:+ b) +:+ c = a +:+ (b +:+ c).
Proof.
  induction a as [|ch a IH]; [done|]. by rewrite !append_cons, IH.
Qed.

Lemma append_eq_empty (a b : string) : a +:+ b = "" → a = "" ∧ b = "".
Proof. destruct a; [done|]. by rewrite append_cons. Qed.

Lemma chars_append (a b : string) :
  list_ascii_of_string (a +:+ b)
  = list_ascii_of_string a ++ list_ascii_of_string b.
Proof.
  induction a as [|ch a IH]; [done|]. rewrite append_cons. simpl. by rewrite IH.
Qed.

Lemma starts_with_append (a b : string) : Path.starts_with a (a +:+ b) = true.
Proof.
  induction a as [|ch a IH]; [done|]. rewrite append_cons. simpl.
  rewrite bool_decide_eq_true_2 by done. exact IH.
Qed.

Lemma split_nonempty (s : string) : Path.split s ≠ [].
Proof.
  induction s as [|ch s IH]; [done|]. simpl.
  destruct (Path.is_slash ch); [done|]. by destruct (Path.split s).
Qed.

(** Splitting at a separator that is written out. *)
Lemma split_append_slash (a b : string) :
  Path.split (a +:+ "/" +:+ b) = Path.split a ++ Path.split b.
Proof.
  induction a as [|ch a IH]; [done|].
  rewrite append_cons. simpl. destruct (Path.is_slash ch).
  - by rewrite IH.
  - rewrite IH. pose proof (split_nonempty a). by destruct (Path.split a).
Qed.

Lemma split_slash_free (s : string) : slash_free s = true → Path.split s = [s].
Proof.
  induction s as [|ch s IH]; [done|]. simpl.
  destruct (Path.is_slash ch); [done|]. simpl. intros H. by rewrite IH.
Qed.

Lemma slash_free_split (s : string) : Path.split s = [s] → slash_free s = true.
Proof.
  induction s as [|ch s IH]; [done|]. simpl.
  destruct (Path.is_slash ch); [discriminate|]. simpl.
  destruct (Path.split s) as [|w ws] eqn:E.
  - by intros [= <-].
  - intros [= -> ->]. by apply IH.
Qed.

Lemma plain_slash_free (x : string) : Path.plain x → slash_free x = true.
Proof. intros (_ & _ & _ & H). by apply slash_free_split. Qed.

Lemma plain_nonempty (x : string) : Path.plain x → x ≠ "".
Proof. by intros (? & _). Qed.

Lemma join_cons (x : string) (l : list string) :
  l ≠ [] → Path.join (x :: l) = x +:+ "/" +:+ Path.join l.
Proof. by destruct l. Qed.

Lemma join_app (l1 l2 : list string) :
  l1 ≠ [] → l2 ≠ [] →
  Path.join (l1 ++ l2) = Path.join l1 +:+ "/" +:+ Path.join l2.
Proof.
  induction l1 as [|x l1 IH]; [done|]. intros _ H2.
  destruct l1 as [|y l1].
  - simpl app. by rewrite join_cons.
  - change ((x :: y :: l1) ++ l2) with (x :: ((y :: l1) ++ l2)).
    rewrite !join_cons by done. rewrite IH by done.
    by rewrite !append_assoc.
Qed.

Lemma join_nonempty (l : list string) :
  Forall Path.plain l → l ≠ [] → Path.join l ≠ "".
Proof.
  destruct l as [|x l]; [done|]. intros Hp _.
  apply Forall_cons in Hp as [Hx _]. apply plain_nonempty in Hx.
  destruct l.
  - done.
  - rewrite join_cons by done. intros [? _]%append_eq_empty. done.
Qed.

Lemma split_join (l : list string) :
  Forall Path.plain l → l ≠ [] → Path.split (Path.join l) = l.
Proof.
  induction l as [|x l IH]; [done|]. intros Hp _.
  apply Forall_cons in Hp as [Hx Hl].
  destruct l as [|y l].
  - simpl. by destruct Hx as (_ & _ & _ & ?).
  - rewrite join_cons by done. rewrite split_append_slash.
    rewrite IH by done. by destruct Hx as (_ & _ & _ & ->).
Qed.

Lemma norm_step_plain (above : bool) (acc : list string) (x : string) :
  Path.plain x → Path.norm_step above acc x = x :: acc.
Proof.
  intros (H1 & H2 & H3 & _). unfold Path.norm_step.
  by rewrite !bool_decide_eq_false_2.
Qed.

Lemma foldl_norm_step_plain (above : bool) (l acc : list string) :
  Forall Path.plain l →
  foldl (Path.norm_step above) acc l = rev l ++ acc.
Proof.
  revert acc. induction l as [|x l IH]; intros acc Hp; [done|].
  apply Forall_cons in Hp as [Hx Hl]. simpl.
  rewrite norm_step_plain by done. rewrite IH by done.
  by rewrite <- app_assoc.
Qed.

Lemma normalize_segs_plain (above : bool) (l : list string) :
  Forall Path.plain l → Path.normalize_segs above l = l.
Proof.
  intros Hp. unfold Path.normalize_segs.
  rewrite foldl_norm_step_plain by done. rewrite app_nil_r. apply rev_involutive.
Qed.

Lemma normalize_segs_empty_l (above : bool) (l : list string) :
  Path.normalize_segs above ("" :: l) = Path.normalize_segs above l.
Proof. reflexivity. Qed.


Lemma is_absolute_abs_path (l : list string) :
  Path.is_absolute (Path.abs_path l) = true.
Proof. reflexivity. Qed.

Lemma is_absolute_append (a b : string) :
  a ≠ "" → Path.is_absolute (a +:+ b) = Path.is_absolute a.
Proof. by destruct a. Qed.

Lemma is_absolute_slash_free (x : string) :
  slash_free x = true → Path.is_absolute x = false.
Proof.
  destruct x as [|ch x]; [done|]. simpl. by destruct (Path.is_slash ch).
Qed.

Lemma ends_with_slash_append (a b : string) :
  b ≠ "" → Path.ends_with_slash (a +:+ b) = Path.ends_with_slash b.
Proof.
  intros Hb. induction a as [|ch a IH]; [done|].
  rewrite append_cons. simpl. rewrite IH.
  destruct (a +:+ b) eqn:E; [|done].
  apply append_eq_empty in E as [_ Hb0]. by destruct Hb.
Qed.

Lemma ends_with_slash_slash_free (x : string) :
  slash_free x = true → Path.ends_with_slash x = false.
Proof.
  induction x as [|ch x IH]; [done|]. simpl.
  destruct (Path.is_slash ch); [done|]. simpl. intros H.
  destruct x; [done|]. by apply IH.
Qed.

Lemma ends_with_slash_join (l : list string) :
  Forall Path.plain l → l ≠ [] → Path.ends_with_slash (Path.join l) = false.
Proof.
  induction l as [|x l IH]; [done|]. intros Hp _.
  apply Forall_cons in Hp as [Hx Hl]. destruct l as [|y l].
  - simpl. by apply ends_with_slash_slash_free, plain_slash_free.
  - rewrite join_cons by done.
    rewrite ends_with_slash_append by done.
    rewrite ends_with_slash_append by (by apply join_nonempty).
    by apply IH.
Qed.

Lemma filter_nonempty_plain (l : list string) :
  Forall Path.plain l → filter (λ a : string, a ≠ "") l = l.
Proof.
  induction 1 as [|x l Hx Hl IH]; [done|].
  rewrite filter_cons_True by (by apply plain_nonempty). by rewrite IH.
Qed.

Lemma is_absolute_join (l : list string) :
  Forall Path.plain l → Path.is_absolute (Path.join l) = false.
Proof.
  destruct l as [|x l]; [done|]. intros [Hx Hl]%Forall_cons.
  destruct l.
  - by apply is_absolute_slash_free, plain_slash_free.
  - rewrite join_cons by done.
    rewrite is_absolute_append by (by apply plain_nonempty).
    by apply is_absolute_slash_free, plain_slash_free.
Qed.

(** [join] of plain segments is the path with those segments. *)
Lemma posix_join_plain (l : list string) :
  Forall Path.plain l → l ≠ [] → Path.posix_join l = Path.join l.
Proof.
  intros Hp Hne. unfold Path.posix_join.
  rewrite filter_nonempty_plain by done.
  destruct l as [|x l]; [done|]. unfold Path.normalize.
  pose proof (join_nonempty _ Hp Hne) as Hj.
  rewrite bool_decide_eq_false_2 by done.
  rewrite is_absolute_join by done. rewrite ends_with_slash_join by done.
  rewrite split_join by done. simpl negb.
  rewrite normalize_segs_plain by done.
  rewrite bool_decide_eq_false_2 by done.
  by rewrite append_empty_l, append_empty_r.
Qed.

Lemma split_abs_path (l : list string) :
  Forall Path.plain l → l ≠ [] → Path.split (Path.abs_path l) = "" :: l.
Proof.
  intros Hp Hne. unfold Path.abs_path.
  change ("/" +:+ Path.join l) with ("" +:+ "/" +:+ Path.join l).
  rewrite split_append_slash. by rewrite split_join.
Qed.

Lemma abs_path_nil : Path.abs_path [] = "/".
Proof. reflexivity. Qed.

Lemma key_abs_path (l : list string) :
  Forall Path.plain l → Fs.key (Path.abs_path l) = l.
Proof.
  intros Hp. unfold Fs.key. destruct l as [|x l]; [done|].
  rewrite split_abs_path by done. rewrite normalize_segs_empty_l.
  by apply normalize_segs_plain.
Qed.

Lemma normalize_abs_path (l : list string) :
  Forall Path.plain l → l ≠ [] →
  Path.normalize (Path.abs_path l) = Path.abs_path l.
Proof.
  intros Hp Hne. unfold Path.normalize.
  rewrite bool_decide_eq_false_2 by done.
  rewrite is_absolute_abs_path. simpl negb.
  rewrite split_abs_path by done. rewrite normalize_segs_empty_l.
  rewrite normalize_segs_plain by done.
  rewrite bool_decide_eq_false_2 by (by apply join_nonempty).
  unfold Path.abs_path at 1.
  rewrite ends_with_slash_append by (by apply join_nonempty).
  rewrite ends_with_slash_join by done.
  by rewrite append_empty_r.
Qed.

Lemma norm_step_empty (above : bool) (acc : list string) :
  Path.norm_step above acc "" = acc.
Proof. reflexivity. Qed.

Lemma resolve_abs_path (wd : string) (l : list string) :
  Forall Path.plain l → l ≠ [] →
  Path.resolve wd (Path.abs_path l) = Path.abs_path l.
Proof.
  intros Hp Hne. unfold Path.resolve.
  rewrite bool_decide_eq_false_2 by done.
  rewrite is_absolute_abs_path. simpl orb. simpl negb. cbv iota.
  replace (Path.abs_path l +:+ "/") with (Path.abs_path l +:+ "/" +:+ "")
    by done.
  rewrite split_append_slash. rewrite split_abs_path by done.
  change (("" :: l) ++ Path.split "") with ("" :: (l ++ [""])).
  rewrite normalize_segs_empty_l. unfold Path.normalize_segs.
  rewrite foldl_app. rewrite (foldl_norm_step_plain _ l) by done.
  simpl foldl. rewrite norm_step_empty. by rewrite app_nil_r, rev_involutive.
Qed.

Lemma posix_join_root (rs ls : list string) :
  Forall Path.plain rs → Forall Path.plain ls → ls ≠ [] →
  Path.posix_join [Path.abs_path rs; Path.join ls] = Path.abs_path (rs ++ ls).
Proof.
  intros Hr Hl Hne. unfold Path.posix_join.
  pose proof (join_nonempty _ Hl Hne) as Hj.
  rewrite filter_cons_True by done. rewrite filter_cons_True by done.
  rewrite filter_nil. rewrite join_cons by done. simpl Path.join.
  unfold Path.normalize.
  rewrite bool_decide_eq_false_2 by done.
  rewrite is_absolute_append by done. rewrite is_absolute_abs_path.
  simpl negb.
  rewrite ends_with_slash_append by done.
  rewrite ends_with_slash_append by done.
  rewrite ends_with_slash_join by done.
  rewrite split_append_slash. rewrite split_join by done.
  assert (Path.normalize_segs false (Path.split (Path.abs_path rs) ++ ls)
          = rs ++ ls) as ->.
  { destruct rs as [|r rs].
    - change (Path.split (Path.abs_path [])) with [""; ""]. simpl app.
      rewrite !normalize_segs_empty_l. by apply normalize_segs_plain.
    - rewrite split_abs_path by done.
      change (("" :: r :: rs) ++ ls) with ("" :: ((r :: rs) ++ ls)).
      rewrite normalize_segs_empty_l. apply normalize_segs_plain.
      by apply Forall_app. }
  rewrite bool_decide_eq_false_2.
  - by rewrite append_empty_r.
  - apply join_nonempty; [by apply Forall_app|]. by destruct rs, ls.
Qed.

Lemma starts_with_abs_path (rs ls : list string) :
  ls ≠ [] → Path.starts_with (Path.abs_path rs) (Path.abs_path (rs ++ ls)) = true.
Proof.
  intros Hne. unfold Path.abs_path. destruct rs as [|r rs].
  - done.
  - rewrite join_app by done. rewrite <- append_assoc.
    apply starts_with_append.
Qed.

(** [storage.prefix] on a logical path made of plain segments. *)
Lemma storage_prefix_plain (d : Db) (rs ls : list string) (s : State) :
  canonical_root d rs → Forall Path.plain ls → ls ≠ [] →
  storage_prefix d (Path.join ls) s = (Ret (Path.abs_path (rs ++ ls)), s).
Proof.
  intros [Hr Hroot] Hl Hne. unfold storage_prefix. rewrite Hroot.
  rewrite posix_join_root by done.
  assert (Forall Path.plain (rs ++ ls)) by (by apply Forall_app).
  assert (rs ++ ls ≠ []) by (by destruct rs, ls).
  rewrite normalize_abs_path by done. rewrite resolve_abs_path by done.
  by rewrite starts_with_abs_path.
Qed.
Lemma drop_while_stop (f : ascii → bool) (a r : list ascii) :
  a ≠ [] → Forall (λ ch, f ch = false) a →
  Path.drop_while f (a ++ r) = a ++ r.
Proof.
  destruct a as [|ch a]; [done|]. intros _ [Hc _]%Forall_cons.
  simpl. by rewrite Hc.
Qed.

Lemma drop_while_all (f : ascii → bool) (a r : list ascii) :
  Forall (λ ch, f ch = true) a →
  Path.drop_while f (a ++ r) = Path.drop_while f r.
Proof.
  induction 1 as [|ch a Hc _ IH]; [done|]. simpl. by rewrite Hc.
Qed.

Lemma slash_free_chars (x : string) :
  slash_free x = true →
  Forall (λ ch, Path.is_slash ch = false) (list_ascii_of_string x).
Proof.
  induction x as [|ch x IH]; simpl; [constructor|].
  intros [Hc Hx]%andb_true_iff. constructor; [|by apply IH].
  by destruct (Path.is_slash ch).
Qed.

Lemma chars_nonempty (x : string) : x ≠ "" → list_ascii_of_string x ≠ [].
Proof. by destruct x. Qed.

Lemma dirname_abs_path (l : list string) (x : string) :
  Forall Path.plain l → Path.plain x →
  Path.dirname (Path.abs_path (l ++ [x])) = Path.abs_path l.
Proof.
  intros Hl Hx.
  pose proof (slash_free_chars x (plain_slash_free x Hx)) as Hfree.
  pose proof (chars_nonempty x (plain_nonempty x Hx)) as Hne.
  change (Path.abs_path (l ++ [x])) with (String "/" (Path.join (l ++ [x]))).
  unfold Path.dirname. change (Path.is_slash "/") with true.
  assert (Forall (λ ch, Path.is_slash ch = false)
            (rev (list_ascii_of_string x))) as Hrev.
  { by apply List.Forall_rev. }
  assert (rev (list_ascii_of_string x) ≠ []) as Hrne.
  { intros E. apply Hne. rewrite <- (rev_involutive (list_ascii_of_string x)).
    by rewrite E. }
  destruct l as [|y l].
  - simpl app. simpl Path.join.
    rewrite <- (app_nil_r (rev (list_ascii_of_string x))).
    rewrite drop_while_stop by done.
    rewrite drop_while_all; [done|].
    eapply Forall_impl; [exact Hrev|]. intros ch ->. done.
  - rewrite join_app by done. simpl (Path.join [x]).
    assert (Path.join (y :: l) ≠ "") as Hj by (by apply join_nonempty).
    unfold Path.abs_path. generalize dependent (Path.join (y :: l)).
    intros j Hj. change ("/" +:+ j) with (String "/" j).
    rewrite !chars_append. rewrite !rev_app_distr. simpl (rev (list_ascii_of_string "/")).
    rewrite <- !app_assoc.
    rewrite drop_while_stop by done.
    rewrite drop_while_all
      by (eapply Forall_impl; [exact Hrev|]; by intros ch ->).
    simpl. rewrite bool_decide_eq_false_2.
    + rewrite rev_involutive, string_of_list_ascii_of_string. done.
    + intros E. apply Hj.
      rewrite <- (string_of_list_ascii_of_string j).
      rewrite <- (rev_involutive (list_ascii_of_string j)).
      by rewrite E.
Qed.

Lemma key_dirname (l : list string) (x : string) :
  Forall Path.plain l → Path.plain x →
  Fs.key (Path.dirname (Path.abs_path (l ++ [x]))) = l.
Proof. intros. rewrite dirname_abs_path by done. by apply key_abs_path. Qed.
Lemma mkdir_from_spec (todo made : list string) (f f' : FS) :
  Fs.mkdir_from f made todo = Ret f' →
  ∀ k, f' !! k = f !! k ∨
       (f !! k = None ∧ f' !! k = Some Dir ∧ k `prefix_of` (made ++ todo)).
Proof.
  revert made f. induction todo as [|seg todo IH]; intros made f H k.
  - left. by injection H as ->.
  - simpl in H.
    replace (made ++ seg :: todo) with ((made ++ [seg]) ++ todo)
      by (by rewrite <- app_assoc).
    destruct (f !! (made ++ [seg])) as [[t|]|] eqn:E.
    + done.
    + destruct (IH _ _ H k) as [Hk|(?&?&?)]; [by left|by right].
    + destruct (IH _ _ H k) as [Hk|(Hn&?&Hp)].
      * destruct (decide (k = made ++ [seg])) as [->|Hne].
        -- right. rewrite Hk, lookup_insert_eq. split_and!; [done..|].
           by apply prefix_app_r.
        -- left. by rewrite Hk, lookup_insert_ne.
      * right. split_and!; [|done..].
        destruct (decide (k = made ++ [seg])) as [->|Hne].
        -- by rewrite lookup_insert_eq in Hn.
        -- by rewrite lookup_insert_ne in Hn.
Qed.

Lemma mkdir_from_target (todo made : list string) (f f' : FS) :
  Fs.mkdir_from f made todo = Ret f' → todo ≠ [] →
  f' !! (made ++ todo) = Some Dir.
Proof.
  revert made f. induction todo as [|seg todo IH]; intros made f H Hne; [done|].
  simpl in H.
  assert (∀ g, g !! (made ++ [seg]) = Some Dir →
               Fs.mkdir_from g (made ++ [seg]) todo = Ret f' →
               f' !! (made ++ seg :: todo) = Some Dir) as Hstep.
  { intros g Hg Hm. destruct todo as [|seg' todo].
    - by injection Hm as <-.
    - replace (made ++ seg :: seg' :: todo)
        with ((made ++ [seg]) ++ seg' :: todo) by (by rewrite <- app_assoc).
      by eapply IH. }
  destruct (f !! (made ++ [seg])) as [[t|]|] eqn:E; [done|..].
  - by eapply Hstep.
  - eapply Hstep; [|done]. by rewrite lookup_insert_eq.
Qed.
(** ** The storage engine on plain logical paths *)

Lemma cache_has_usable (c : JsMap) (p : string) :
  cache_usable c → Cache.has c p = Ret false.
Proof.
  intros (He & Hp & Hh & _). unfold Cache.has, Cache.has_method.
  by rewrite Hh, Hp, He.
Qed.

Lemma cache_delete_usable (c : JsMap) (p : string) :
  cache_usable c → Cache.delete c p = Ret c.
Proof.
  intros (He & Hp & _ & Hd & _). unfold Cache.delete, Cache.has_method.
  rewrite Hd, Hp, He. destruct c; simpl in *; by subst.
Qed.

Lemma fs_lookup_cons (f : FS) (k : list string) :
  k ≠ [] → Fs.lookup f k = f !! k.
Proof. by destruct k. Qed.

Section PlainPaths.

Context (d : Db) (rs : list string) (Hroot : canonical_root d rs).

Lemma plain_key (ls : list string) :
  Forall Path.plain ls → Fs.key (Path.abs_path (rs ++ ls)) = rs ++ ls.
Proof.
  intros. apply key_abs_path. apply Forall_app. by destruct Hroot.
Qed.

Lemma storage_read_plain (ls : list string) (s : State) :
  Forall Path.plain ls → ls ≠ [] → cache_usable (cache s) →
  storage_read d (Path.join ls) s = (read_node (fs s !! (rs ++ ls)), s).
Proof.
  intros Hl Hne Hc. unfold storage_read, bind, gets, lift.
  rewrite cache_has_usable by done.
  rewrite (storage_prefix_plain d rs ls) by done.
  unfold Fs.exists_sync, Fs.read_file. rewrite plain_key by done.
  rewrite fs_lookup_cons by (by destruct rs, ls).
  by destruct (fs s !! (rs ++ ls)) as [[[]|]|].
Qed.

Lemma storage_exists_plain (ls : list string) (s : State) :
  Forall Path.plain ls → ls ≠ [] → cache_usable (cache s) →
  storage_exists d (Path.join ls) s = (Ret (node_exists (fs s !! (rs ++ ls))), s).
Proof.
  intros Hl Hne Hc. unfold storage_exists, bind, gets, lift.
  rewrite cache_has_usable by done.
  rewrite (storage_prefix_plain d rs ls) by done.
  unfold Fs.exists_sync. rewrite plain_key by done.
  by rewrite fs_lookup_cons by (by destruct rs, ls).
Qed.

End PlainPaths.
Arguments Path.dirname : simpl never.
Arguments Path.abs_path : simpl never.
Arguments Path.join : simpl never.
Arguments Path.posix_join : simpl never.
Arguments Path.normalize : simpl never.
Arguments Path.resolve : simpl never.
Arguments Fs.key : simpl never.
Arguments Fs.mkdir_p : simpl never.
Arguments Fs.write_file : simpl never.
Arguments Fs.rm_rf : simpl never.
Arguments hex_encode : simpl never.
Arguments json_stringify : simpl never.



(** A logical path with a separator in it names no member of the Map. *)
Lemma cache_assign_path (c : JsMap) (k : string) (v : JsVal) :
  slash_free k = false →
  Cache.assign c k v
  = Ret {| entries := entries c; own := <[k := v]> (own c); proto := proto c |}.
Proof.
  intros Hk. unfold Cache.assign. destruct (own c !! k); [done|].
  rewrite (bool_decide_eq_false_2 (k = "size")) by (by intros ->).
  rewrite (bool_decide_eq_false_2 (k = "__proto__")) by (by intros ->).
  done.
Qed.



Section PlainWrites.

Context (d : Db) (rs : list string) (Hroot : canonical_root d rs).


Lemma storage_remove_plain (ls : list string) (s : State) :
  Forall Path.plain ls → ls ≠ [] → cache_usable (cache s) →
  ∃ s', storage_remove d (Path.join ls) s = (Ret tt, s') ∧
        removed (rs ++ ls) (fs s) (fs s') ∧ cache s' = cache s ∧
        heap s' = heap s ∧ seed s' = seed s ∧ events s' = events s.
Proof.
  intros Hl Hne Hc.
  assert (Forall Path.plain (rs ++ ls)) as Hall
    by (apply Forall_app; by destruct Hroot).
  unfold storage_remove, bind, gets, lift, set_cache, set_fs, ret.
  rewrite (storage_prefix_plain d rs ls) by done.
  rewrite cache_delete_usable by done.
  rewrite (storage_exists_plain d rs) by done. simpl.
  destruct (fs s !! (rs ++ ls)) as [n|] eqn:E; simpl.
  - rewrite (storage_prefix_plain d rs ls) by done. simpl. eexists. split; [done|]. simpl. split_and!; try done.
    unfold removed, Fs.rm_rf. rewrite key_abs_path by done. split_and!.
    + apply map_lookup_filter_None. right. intros n' _ Hn. by apply Hn.
    + intros k' Hk'. destruct (fs s !! k') as [n'|] eqn:E'.
      * by apply map_lookup_filter_Some.
      * apply map_lookup_filter_None. by left.
    + intros k' Hk'. apply map_lookup_filter_None. by left.
  - exists s. split; [by destruct s|]. split_and!; try done.
Qed.

End PlainWrites.
(** ** Paths used by a collection *)

Lemma hex_digit_is_hex (n : N) : is_hex_char (hex_digit n) = true.
Proof.
  destruct n as [|p]; [done|].
  do 4 (destruct p as [p|p|]; try done).
Qed.

Lemma is_hex_char_plain (ch : ascii) :
  is_hex_char ch = true → Path.is_slash ch = false ∧ ch ≠ "."%char.
Proof.
  intros H. split.
  - unfold Path.is_slash. apply bool_decide_eq_false_2. by intros ->.
  - by intros ->.
Qed.

Lemma all_hex_append (a b : string) :
  all_hex (a +:+ b) = all_hex a && all_hex b.
Proof.
  induction a as [|ch a IH]; [done|]. rewrite append_cons. simpl.
  by rewrite IH, andb_assoc.
Qed.

Lemma all_hex_encode (s : string) : all_hex (hex_encode s) = true.
Proof.
  induction s as [|ch s IH]; [done|].
  change (hex_encode (String ch s)) with (hex_byte ch +:+ hex_encode s).
  rewrite all_hex_append, IH. unfold hex_byte. simpl.
  by rewrite !hex_digit_is_hex.
Qed.

Lemma all_hex_plain (s : string) : all_hex s = true → s ≠ "" → Path.plain s.
Proof.
  intros Hh Hne. unfold Path.plain. split_and!; [done|..].
  - intros ->. done.
  - intros ->. done.
  - apply split_slash_free. clear Hne. induction s as [|ch s IH]; [done|].
    simpl in *. apply andb_true_iff in Hh as [Hc Hs].
    apply is_hex_char_plain in Hc as [-> _]. by apply IH.
Qed.

Lemma hex_encode_nonempty (s : string) : s ≠ "" → hex_encode s ≠ "".
Proof. by destruct s. Qed.

Lemma digits_of_nonempty (fuel : nat) (n : N) (acc : string) :
  acc ≠ "" → digits_of fuel n acc ≠ "".
Proof.
  revert n acc. induction fuel as [|fuel IH]; intros n acc Hacc; [done|].
  simpl. destruct (n / 10 =? 0)%N; [done|]. by apply IH.
Qed.

Lemma json_stringify_nonempty (j : Json) : json_stringify j ≠ "".
Proof.
  destruct j as [|[]|z|s|l|kvs]; try done.
  unfold json_stringify, decimal. simpl digits_of.
  destruct (z <? 0); [done|]. rewrite append_empty_l.
  destruct (_ =? 0)%N; [done|]. by apply digits_of_nonempty.
Qed.

Lemma pathsafe_plain (v : JsVal) (h : string) :
  pathsafe v = Ret h → Path.plain h.
Proof.
  destruct v as [j|]; [|done]. intros [= <-].
  apply all_hex_plain; [apply all_hex_encode|].
  apply hex_encode_nonempty, json_stringify_nonempty.
Qed.

Lemma plain_data : Path.plain "data".
Proof. by unfold Path.plain. Qed.

Lemma plain_index : Path.plain "index".
Proof. by unfold Path.plain. Qed.


(** ** Collections on well-formed input *)

Lemma obj_get_elem {A} (o : list (string * A)) (key : string) (v : A) :
  obj_get o key = Some v → key ∈ obj_keys o.
Proof.
  induction o as [|[k w] o IH]; [done|]. simpl. case_bool_decide as Hk.
  - intros _. subst. apply list_elem_of_here.
  - intros Hg. apply list_elem_of_further. by apply IH.
Qed.

Lemma obj_get_is_Some {A} (o : list (string * A)) (key : string) :
  key ∈ obj_keys o → is_Some (obj_get o key).
Proof.
  induction o as [|[k w] o IH]; [by intros ?%elem_of_nil|].
  simpl. intros [->|H]%elem_of_cons.
  - rewrite bool_decide_eq_true_2 by done. by eexists.
  - case_bool_decide; [by eexists|]. by apply IH.
Qed.

Lemma prefix_app_same {A} (k l1 l2 : list A) :
  (k ++ l1) `prefix_of` (k ++ l2) → l1 `prefix_of` l2.
Proof. intros [t Ht]. exists t. rewrite <- app_assoc in Ht. by simplify_list_eq. Qed.

Section CollectionPaths.

Context (c : Collection) (rs : list string).
Context (Hroot : canonical_root (c_db c) rs) (Hok : collection_ok c).

Lemma schema_key_plain (key : string) (fd : FieldDesc) :
  obj_get (c_schema c) key = Some fd → Path.plain key.
Proof.
  intros H%obj_get_elem. destruct Hok as (_ & Hp & _).
  by eapply Forall_forall in Hp.
Qed.

Lemma name_plain : Path.plain (c_name c).
Proof. by destruct Hok. Qed.

Lemma hex_plain (v : Json) : Path.plain (hex_encode (json_stringify v)).
Proof. by eapply (pathsafe_plain (Some v)). Qed.

Ltac plain_list :=
  repeat first
    [ apply Forall_nil_2
    | apply Forall_cons_2;
      [ first [ apply plain_data | apply plain_index | apply name_plain
              | apply hex_plain | assumption ] | ] ].

Lemma data_path_plain (i : string) :
  Path.plain i →
  Collection.data_path c (Some (JStr i))
  = Ret (Path.join (["data"; c_name c] ++ [i])).
Proof.
  intros Hi. unfold Collection.data_path. rewrite posix_join_plain; [done| |done].
  plain_list.
Qed.

Lemma index_path_plain (key : string) (v : Json) :
  Path.plain key →
  Collection.index_path c key (Some v)
  = Ret (Path.join (["index"; c_name c; key] ++ [hex_encode (json_stringify v)])).
Proof.
  intros Hk. unfold Collection.index_path. simpl pathsafe. cbv iota beta.
  rewrite posix_join_plain; [done| |done].
  plain_list.
Qed.




Lemma index_key_not_under_data (i key : string) (v : Json) :
  ¬ index_key rs c key v `prefix_of` data_key rs c i.
Proof. intros H%prefix_app_same. by apply prefix_cons_inv_1 in H. Qed.


Lemma data_key_prefix (i i' : string) :
  data_key rs c i `prefix_of` data_key rs c i' → i = i'.
Proof.
  intros H%prefix_app_same.
  apply prefix_cons_inv_2, prefix_cons_inv_2, prefix_cons_inv_1 in H. done.
Qed.

Lemma read_data (i : string) (s : State) :
  Path.plain i → cache_usable (cache s) →
  storage_read (c_db c) (Path.join (["data"; c_name c] ++ [i])) s
  = (read_node (fs s !! data_key rs c i), s).
Proof.
  intros Hi Hc. rewrite (storage_read_plain _ rs); [done|done| |done|done].
  simpl app. plain_list.
Qed.

Lemma read_index (key : string) (v : Json) (s : State) :
  Path.plain key → cache_usable (cache s) →
  storage_read (c_db c)
    (Path.join (["index"; c_name c; key] ++ [hex_encode (json_stringify v)])) s
  = (read_node (fs s !! index_key rs c key v), s).
Proof.
  intros Hk Hc. rewrite (storage_read_plain _ rs); [done|done| |done|done].
  simpl app. plain_list.
Qed.

Lemma exists_index (key : string) (v : Json) (s : State) :
  Path.plain key → cache_usable (cache s) →
  storage_exists (c_db c)
    (Path.join (["index"; c_name c; key] ++ [hex_encode (json_stringify v)])) s
  = (Ret (node_exists (fs s !! index_key rs c key v)), s).
Proof.
  intros Hk Hc. rewrite (storage_exists_plain _ rs); [done|done| |done|done].
  simpl app. plain_list.
Qed.

End CollectionPaths.

Ltac plain_list3 c Hok :=
  repeat first
    [ apply Forall_nil_2
    | apply Forall_cons_2;
      [ first [ apply plain_data | apply plain_index | apply (name_plain c Hok)
              | apply hex_plain | assumption ] | ] ].
(** ** Effects of [write] and [delete] *)


Lemma removed_frame (k k' : list string) (f f' : FS) :
  removed k f f' → ¬ k `prefix_of` k' → f' !! k' = f !! k'.
Proof. intros (_ & H & _) Hk'. by apply H. Qed.


Lemma emit_state (d : Db) (e : Event) (s : State) :
  ∃ s', emit d e s = (Ret tt, s') ∧ fs s' = fs s ∧ cache s' = cache s ∧
        heap s' = heap s ∧ seed s' = seed s.
Proof. unfold emit. destruct (variant d); by eexists. Qed.

Section WriteEffects.

Context (c : Collection) (rs : list string).
Context (Hroot : canonical_root (c_db c) rs) (Hok : collection_ok c).




End WriteEffects.
Section WriteWhole.

Context (c : Collection) (rs : list string).
Context (Hroot : canonical_root (c_db c) rs) (Hok : collection_ok c).


End WriteWhole.
(** ** Queries on one field *)

Arguments strict_eq : simpl never.
Arguments Collection.data_path : simpl never.
Arguments Collection.index_path : simpl never.
Arguments Collection.every_match : simpl never.
Arguments storage_read : simpl never.
Arguments storage_exists : simpl never.
Arguments storage_write : simpl never.
Arguments storage_remove : simpl never.
Arguments emit : simpl never.



Lemma bind_ret_r {A} (m : M A) (s : State) : bind m ret s = m s.
Proof. unfold bind, ret. by destruct (m s) as [[]]. Qed.

Section Queries.

Context (c : Collection) (rs : list string).
Context (Hroot : canonical_root (c_db c) rs) (Hok : collection_ok c).

(** A query on [id] alone probes nothing. *)
Lemma findOne_id (x : JsVal) (s : State) :
  Collection.findOne c [("id", x)] s = (Ret None, s).
Proof. reflexivity. Qed.


Section OneField.

Context (f : string) (fd : FieldDesc) (v : Json).
Context (Hf : f ≠ "id") (Hfd : obj_get (c_schema c) f = Some fd).
Context (Hidx : fd_index fd = true).

Lemma probe_single (cands : list JsVal) (s : State) :
  cache_usable (cache s) →
  Collection.probe c [(f, Some v)] cands f s
  = match fs s !! index_key rs c f v with
    | None => (Ret cands, s)
    | Some n =>
        match read_node (Some n) with
        | Throw e => (Throw e, s)
        | Ret content =>
            if fd_unique fd then (Ret (Collection.add_candidate cands content), s)
            else match content with
                 | Some (JArr l) =>
                     (Ret (foldl Collection.add_candidate cands (Some <$> l)), s)
                 | _ => (Throw TypeError, s)
                 end
        end
    end.
Proof.
  intros Hc. pose proof (schema_key_plain c Hok _ _ Hfd) as Hplain.
  unfold Collection.probe. rewrite bool_decide_eq_false_2 by done.
  rewrite Hfd, Hidx. unfold Collection.query_get. simpl obj_get.
  rewrite bool_decide_eq_true_2 by done. simpl mjoin.
  unfold bind at 1, lift. rewrite (index_path_plain c Hok) by done.
  unfold bind at 1. rewrite (exists_index c rs Hroot Hok) by done.
  destruct (fs s !! index_key rs c f v) as [n|] eqn:En; [|done].
  change (negb (node_exists (Some n))) with false. cbv iota beta.
  unfold bind.
  rewrite (read_index c rs Hroot Hok) by done. rewrite En.
  destruct (read_node (Some n)) as [content|]; [|done].
  destruct (fd_unique fd); [done|]. by destruct content as [[]|].
Qed.

Lemma gather_single (s : State) :
  Collection.gather c [(f, Some v)] [f] [] s
  = Collection.probe c [(f, Some v)] [] f s.
Proof. apply bind_ret_r. Qed.





End OneField.

End Queries.
(** ** Reads leave the state alone *)

Lemma storage_prefix_state (d : Db) (p : string) (s : State) :
  (storage_prefix d p s).2 = s.
Proof. unfold storage_prefix. by case_match. Qed.

Lemma storage_read_state (d : Db) (p : string) (s : State) :
  (storage_read d p s).2 = s.
Proof.
  unfold storage_read, bind, gets, lift, ret.
  destruct (Cache.has (cache s) p) as [[]|]; try done.
  pose proof (storage_prefix_state d p s) as Hp.
  destruct (storage_prefix d p s) as [[q|] s0]; simpl in Hp; subst; [|done].
  destruct (negb _); [done|].
  destruct (Fs.read_file (fs s) q) as [t|]; [|done].
  by destruct (json_parse t).
Qed.

Lemma storage_exists_state (d : Db) (p : string) (s : State) :
  (storage_exists d p s).2 = s.
Proof.
  unfold storage_exists, bind, gets, lift, ret.
  destruct (Cache.has (cache s) p) as [[]|]; try done.
  pose proof (storage_prefix_state d p s) as Hp.
  by destruct (storage_prefix d p s) as [[q|] s0]; simpl in Hp; subst.
Qed.

Lemma probe_state (c : Collection) (q : Query) (cands : list JsVal)
    (key : string) (s : State) :
  (Collection.probe c q cands key s).2 = s.
Proof.
  unfold Collection.probe. case_bool_decide; [done|].
  destruct (obj_get (c_schema c) key) as [fd|]; [|done].
  destruct (fd_index fd); [|done].
  unfold bind, lift. destruct (Collection.index_path c key _) as [p|]; [|done].
  pose proof (storage_exists_state (c_db c) p s) as He.
  destruct (storage_exists (c_db c) p s) as [[e|] s0]; simpl in He; subst; [|done].
  destruct (negb e); [done|].
  pose proof (storage_read_state (c_db c) p s) as Hr.
  destruct (storage_read (c_db c) p s) as [[content|] s0]; simpl in Hr; subst; [|done].
  destruct (fd_unique fd); [done|]. by destruct content as [[]|].
Qed.

Lemma gather_state (c : Collection) (q : Query) (keys : list string)
    (cands : list JsVal) (s : State) :
  (Collection.gather c q keys cands s).2 = s.
Proof.
  revert cands. induction keys as [|key keys IH]; intros cands; [done|].
  simpl. unfold bind. pose proof (probe_state c q cands key s) as Hp.
  destruct (Collection.probe c q cands key s) as [[cands'|] s0];
    simpl in Hp; subst; [|done]. apply IH.
Qed.

Lemma same_store_refl (s : State) : same_store s s.
Proof. by unfold same_store. Qed.

Lemma emit_same_store (d : Db) (e : Event) (s : State) :
  same_store s (emit d e s).2 ∧ (emit d e s).1 = Ret tt.
Proof. unfold emit. by destruct (variant d). Qed.

Lemma first_match_same_store (c : Collection) (q : Query)
    (cands : list JsVal) (s : State) :
  same_store s (Collection.first_match c q cands s).2.
Proof.
  induction cands as [|cand cands IH]; [apply same_store_refl|].
  simpl. unfold bind, lift.
  destruct (Collection.data_path c cand) as [p|]; [|apply same_store_refl].
  pose proof (storage_read_state (c_db c) p s) as Hr.
  destruct (storage_read (c_db c) p s) as [[obj|] s0]; simpl in Hr; subst;
    [|apply same_store_refl].
  destruct (Collection.every_match q (obj_keys q) obj) as [[]|];
    [|done|apply same_store_refl].
  destruct (emit_same_store (c_db c) (EvQuery q [obj]) s) as [Hs He].
  destruct (emit (c_db c) (EvQuery q [obj]) s) as [[[]|] s0]; by simpl in *.
Qed.

Lemma findOne_same_store (c : Collection) (q : Query) (s : State) :
  same_store s (Collection.findOne c q s).2.
Proof.
  unfold Collection.findOne, bind.
  pose proof (gather_state c q (obj_keys q) [] s) as Hg.
  destruct (Collection.gather c q (obj_keys q) [] s) as [[cands|] s0];
    simpl in Hg; subst; [|apply same_store_refl].
  apply first_match_same_store.
Qed.
(** ** [create] and the caller's object *)

Arguments truthy : simpl never.

Lemma obj_get_set_eq {A} (o : list (string * A)) (key : string) (v : A) :
  obj_get (obj_set o key v) key = Some v.
Proof.
  induction o as [|[k w] o IH]; simpl.
  - by rewrite bool_decide_eq_true_2.
  - case_bool_decide as Hk; simpl.
    + by rewrite bool_decide_eq_true_2.
    + by rewrite bool_decide_eq_false_2.
Qed.

Lemma obj_get_set_ne {A} (o : list (string * A)) (key key' : string) (v : A) :
  key' ≠ key → obj_get (obj_set o key v) key' = obj_get o key'.
Proof.
  intros Hne. induction o as [|[k w] o IH]; simpl.
  - by rewrite bool_decide_eq_false_2.
  - case_bool_decide as Hk; simpl.
    + subst. by rewrite !bool_decide_eq_false_2.
    + by rewrite IH.
Qed.

Lemma resolved_other (fd : FieldDesc) (key key' : string) (d : Doc) (n : nat) :
  key' ≠ key → obj_get (resolved fd key d n) key' = obj_get d key'.
Proof.
  intros Hne. unfold resolved.
  repeat case_match; try done; by apply obj_get_set_ne.
Qed.

Lemma set_field_run (ref : nat) (key : string) (v : Json) (s : State) :
  Collection.set_field ref key v s
  = match heap s !! ref with
    | Some d => (Ret tt, {| fs := fs s; cache := cache s;
                            heap := <[ref := obj_set d key v]> (heap s);
                            seed := seed s; events := events s |})
    | None => (Throw TypeError, s)
    end.
Proof.
  unfold Collection.set_field, bind, Collection.deref, gets, set_heap.
  by destruct (heap s !! ref).
Qed.

Lemma bind_run {A B} (m : M A) (k : A → M B) (a : A) (s s1 : State) :
  m s = (Ret a, s1) → bind m k s = k a s1.
Proof. unfold bind. by intros ->. Qed.

Lemma bind_throw {A B} (m : M A) (k : A → M B) (e : Error) (s s1 : State) :
  m s = (Throw e, s1) → bind m k s = (Throw e, s1).
Proof. unfold bind. by intros ->. Qed.

Lemma deref_run (ref : nat) (d : Doc) (s : State) :
  heap s !! ref = Some d → Collection.deref ref s = (Ret d, s).
Proof. unfold Collection.deref. by intros ->. Qed.

(** The uniqueness check of a round changes neither the store nor the
    heap. *)
Lemma unique_check_frame (c : Collection) (ref : nat) (key : string)
    (d : Doc) (s : State) :
  heap s !! ref = Some d →
  let s' := ((d' <- Collection.deref ref ;;
              found <- Collection.findOne c [(key, obj_get d' key)] ;;
              if truthy found then throw UniqueConstraintViolation
              else ret tt) s).2 in
  fs s' = fs s ∧ cache s' = cache s ∧ heap s' = heap s ∧ seed s' = seed s.
Proof.
  intros Hd. rewrite (bind_run _ _ _ _ _ (deref_run _ _ _ Hd)).
  unfold bind.
  pose proof (findOne_same_store c [(key, obj_get d key)] s) as Hsame.
  destruct (Collection.findOne c _ s) as [[found|] s2]; simpl in *; [|done].
  by destruct (truthy found).
Qed.

(** One round of the loop: the store is not touched, and the caller's
    object becomes [resolved], whatever the outcome. *)
Lemma create_field_round (c : Collection) (ref : nat) (key : string)
    (fd : FieldDesc) (d : Doc) (s : State) :
  obj_get (c_schema c) key = Some fd → heap s !! ref = Some d →
  let s' := (Collection.create_field c ref key s).2 in
  fs s' = fs s ∧ cache s' = cache s ∧
  heap s' !! ref = Some (resolved fd key d (seed s)) ∧
  (∀ r, r ≠ ref → heap s' !! r = heap s !! r).
Proof.
  intros Hfd Hd. unfold Collection.create_field, resolved. rewrite Hfd.
  case_bool_decide as Hkey.
  { destruct (fd_default fd) as [|j|g]; try done.
    unfold bind, fresh. rewrite set_field_run. simpl. rewrite Hd. simpl.
    rewrite lookup_insert_eq. split_and!; try done.
    intros r Hr. by rewrite lookup_insert_ne. }
  rewrite (bind_run _ _ _ _ _ (deref_run _ _ _ Hd)).
  assert (∀ s1 d1, fs s1 = fs s → cache s1 = cache s →
            heap s1 !! ref = Some d1 →
            (∀ r, r ≠ ref → heap s1 !! r = heap s !! r) →
            let s' := ((if fd_unique fd
                        then d' <- Collection.deref ref ;;
                             found <- Collection.findOne c [(key, obj_get d' key)] ;;
                             if truthy found then throw UniqueConstraintViolation
                             else ret tt
                        else ret tt) s1).2 in
            fs s' = fs s ∧ cache s' = cache s ∧ heap s' !! ref = Some d1 ∧
            (∀ r, r ≠ ref → heap s' !! r = heap s !! r))
    as Hcheck.
  { intros s1 d1 Hf1 Hc1 Hh1 Hr1. destruct (fd_unique fd); [|done].
    destruct (unique_check_frame c ref key d1 s1 Hh1) as (Hf & Hc & Hh & _).
    cbv zeta. rewrite Hf, Hc, Hh. done. }
  destruct (fd_required fd && negb (truthy (obj_get d key))).
  - destruct (fd_default fd) as [|j|g]; unfold Collection.no_default; cbv iota.
    + by rewrite (bind_throw _ _ MissingRequiredFieldError s s).
    + destruct (truthy (Some j)) eqn:Hj; simpl negb; cbv iota.
      * erewrite bind_run; [|by rewrite set_field_run, Hd].
        apply Hcheck; simpl; try done; [by rewrite lookup_insert_eq|].
        intros r Hr. by rewrite lookup_insert_ne.
      * by rewrite (bind_throw _ _ MissingRequiredFieldError s s).
    + erewrite bind_run;
        [|unfold bind, fresh; by rewrite set_field_run; simpl; rewrite Hd].
      apply Hcheck; simpl; try done; [by rewrite lookup_insert_eq|].
      intros r Hr. by rewrite lookup_insert_ne.
  - erewrite bind_run; [|done]. by apply Hcheck.
Qed.
Lemma create_field_store (c : Collection) (ref : nat) (key : string)
    (s : State) :
  let s' := (Collection.create_field c ref key s).2 in
  fs s' = fs s ∧ cache s' = cache s.
Proof.
  destruct (obj_get (c_schema c) key) as [fd|] eqn:Hfd.
  2:{ unfold Collection.create_field. by rewrite Hfd. }
  destruct (heap s !! ref) as [d|] eqn:Hd.
  { by destruct (create_field_round c ref key fd d s Hfd Hd) as (? & ? & _). }
  unfold Collection.create_field. rewrite Hfd. case_bool_decide.
  - destruct (fd_default fd); try done.
    unfold bind, fresh. rewrite set_field_run. simpl. rewrite Hd.
    split; reflexivity.
  - rewrite (bind_throw _ _ TypeError s s); [done|].
    unfold Collection.deref. by rewrite Hd.
Qed.

Lemma create_fields_store (c : Collection) (ref : nat) (keys : list string)
    (s : State) :
  let s' := (Collection.create_fields c ref keys s).2 in
  fs s' = fs s ∧ cache s' = cache s.
Proof.
  revert s. induction keys as [|key keys IH]; intros s; [done|].
  simpl. unfold bind.
  pose proof (create_field_store c ref key s) as [Hf Hc].
  destruct (Collection.create_field c ref key s) as [[[]|] s1]; simpl in *;
    [|done].
  destruct (IH s1) as [Hf' Hc']. by rewrite Hf', Hc'.
Qed.

Lemma create_fields_app (c : Collection) (ref : nat) (a b : list string)
    (s : State) :
  Collection.create_fields c ref (a ++ b) s
  = bind (Collection.create_fields c ref a)
         (λ _, Collection.create_fields c ref b) s.
Proof.
  revert s. induction a as [|key a IH]; intros s; [done|].
  simpl. unfold bind.
  destruct (Collection.create_field c ref key s) as [[[]|] s1]; [|done].
  rewrite IH. done.
Qed.

(** Later rounds leave the fields of earlier rounds alone. *)
Lemma create_fields_preserve (c : Collection) (ref : nat)
    (keys : list string) (d : Doc) (s : State) :
  heap s !! ref = Some d →
  ∃ d', heap (Collection.create_fields c ref keys s).2 !! ref = Some d' ∧
        ∀ k, k ∉ keys → obj_get d' k = obj_get d k.
Proof.
  revert s d. induction keys as [|key keys IH]; intros s d Hd.
  { by exists d. }
  simpl. unfold bind.
  destruct (obj_get (c_schema c) key) as [fd|] eqn:Hfd.
  - pose proof (create_field_round c ref key fd d s Hfd Hd) as (_ & _ & Hh & _).
    destruct (Collection.create_field c ref key s) as [[[]|] s1]; simpl in *.
    + destruct (IH s1 _ Hh) as (d' & Hd' & Hsame). exists d'. split; [done|].
      intros k [Hk1 Hk2]%not_elem_of_cons.
      rewrite Hsame by done. by apply resolved_other.
    + eexists. split; [done|]. intros k [Hk1 Hk2]%not_elem_of_cons.
      by apply resolved_other.
  - unfold Collection.create_field. rewrite Hfd. simpl. by exists d.
Qed.



(** ** [delete] *)

Lemma promise_all_cons_ret (m : M unit) (ms : list (M unit)) (s s1 : State) :
  m s = (Ret tt, s1) → promise_all (m :: ms) s = promise_all ms s1.
Proof. simpl. by intros ->. Qed.

Section DeleteEffects.

Context (c : Collection) (rs : list string).
Context (Hroot : canonical_root (c_db c) rs) (Hok : collection_ok c).



Lemma unindex_run (d : Doc) (key : string) (s : State) :
  cache_usable (cache s) →
  key = "id" ∨ is_Some (obj_get (c_schema c) key) →
  is_Some (obj_get d key) →
  ∃ s', Collection.unindex c d key s = (Ret tt, s') ∧
        cache s' = cache s ∧ heap s' = heap s ∧ seed s' = seed s ∧
        (∀ k, fs s !! k = None → fs s' !! k = None) ∧
        (∀ fd v, key ≠ "id" → obj_get (c_schema c) key = Some fd →
                 fd_index fd = true → obj_get d key = Some v →
                 fs s' !! index_key rs c key v = None).
Proof.
  intros Hc Hknown [w Hw]. unfold Collection.unindex.
  case_bool_decide as Hkey.
  { exists s. by split_and!. }
  destruct Hknown as [?|[fd Hfd]]; [done|]. rewrite Hfd.
  destruct (fd_index fd) eqn:Hidx.
  2:{ exists s. split_and!; try done. intros ???. congruence. }
  pose proof (schema_key_plain c Hok _ _ Hfd) as Hplain.
  rewrite Hw. unfold bind at 1, lift at 1.
  rewrite (index_path_plain c Hok) by done.
  destruct (storage_remove_plain (c_db c) rs Hroot
              (["index"; c_name c; key] ++ [hex_encode (json_stringify w)]) s)
    as (s1 & Hrm & (Hgone & Hframe & Hnone) & Hc1 & Hh1 & Hs1 & _);
    [simpl app; by plain_list3 c Hok|done|done|].
  rewrite (bind_run _ _ _ _ _ Hrm).
  destruct (emit_state (c_db c) (EvDelete (obj_get d "id")) s1)
    as (s2 & He & Hf2 & Hc2 & Hh2 & Hs2).
  exists s2. rewrite He, Hf2, Hc2, Hh2, Hs2. split_and!; try done.
  intros fd' v _ _ _ [= <-]. exact Hgone.
Qed.

Lemma unindex_all (d : Doc) (keys : list string) (s : State) :
  cache_usable (cache s) →
  (∀ key, key ∈ keys → key = "id" ∨ is_Some (obj_get (c_schema c) key)) →
  (∀ key, key ∈ keys → is_Some (obj_get d key)) →
  ∃ s', promise_all (Collection.unindex c d <$> keys) s = (Ret tt, s') ∧
        cache s' = cache s ∧ heap s' = heap s ∧ seed s' = seed s ∧
        (∀ k, fs s !! k = None → fs s' !! k = None) ∧
        (∀ f fd v, f ∈ keys → f ≠ "id" → obj_get (c_schema c) f = Some fd →
                   fd_index fd = true → obj_get d f = Some v →
                   fs s' !! index_key rs c f v = None).
Proof.
  revert s. induction keys as [|key keys IH]; intros s Hc Hknown Hd.
  { exists s. split_and!; try done. by intros ??? ?%elem_of_nil. }
  destruct (unindex_run d key s Hc) as (s1 & H1 & Hc1 & Hh1 & Hs1 & Hn1 & Hg1).
  { apply Hknown, list_elem_of_here. }
  { apply Hd, list_elem_of_here. }
  destruct (IH s1) as (s' & Hrest & Hc' & Hh' & Hs' & Hn' & Hg').
  { by rewrite Hc1. }
  { intros ??. by apply Hknown, list_elem_of_further. }
  { intros ??. by apply Hd, list_elem_of_further. }
  exists s'. rewrite fmap_cons, (promise_all_cons_ret _ _ _ _ H1).
  split; [exact Hrest|].
  split_and!; try congruence.
  - intros k Hk. by apply Hn', Hn1.
  - intros f fd v [->|Hin]%elem_of_cons Hf Hfd Hidx Hv.
    + apply Hn'. by eapply Hg1.
    + by eapply Hg'.
Qed.

(** [delete] of a document the schema describes removes its index
    entries. *)
Lemma delete_run (d : Doc) (i : string) (s : State) :
  has_id d i → cache_usable (cache s) →
  (∀ key, key ∈ obj_keys d → key = "id" ∨ is_Some (obj_get (c_schema c) key)) →
  ∃ s', Collection.delete c d s = (Ret tt, s') ∧
        cache s' = cache s ∧ heap s' = heap s ∧ seed s' = seed s ∧
        (∀ f fd v, f ≠ "id" → obj_get (c_schema c) f = Some fd →
                   fd_index fd = true → obj_get d f = Some v →
                   fs s' !! index_key rs c f v = None).
Proof.
  intros [Hid Hi] Hc Hknown. unfold Collection.delete.
  unfold bind, lift. rewrite Hid. rewrite (data_path_plain c Hok) by done.
  destruct (storage_remove_plain (c_db c) rs Hroot
              (["data"; c_name c] ++ [i]) s)
    as (s1 & Hrm & _ & Hc1 & Hh1 & Hs1 & _);
    [simpl app; by plain_list3 c Hok|done|done|].
  destruct (unindex_all d (obj_keys d) s1)
    as (s' & Hrest & Hc' & Hh' & Hs' & _ & Hgone).
  { by rewrite Hc1. }
  { done. }
  { intros key Hkey. by apply obj_get_is_Some. }
  exists s'. rewrite (promise_all_cons_ret _ _ _ _ Hrm).
  split; [exact Hrest|].
  split_and!; try congruence.
  intros f fd v Hf Hfd Hidx Hv. eapply Hgone; try done.
  by eapply obj_get_elem.
Qed.

End DeleteEffects.
Section SingleEntry.

Context (c : Collection) (rs : list string).
Context (Hroot : canonical_root (c_db c) rs) (Hok : collection_ok c).


End SingleEntry.


(** ** Accumulation in a non-unique index *)

Section Accumulation.

Context (c : Collection) (rs : list string).
Context (Hroot : canonical_root (c_db c) rs) (Hok : collection_ok c).
Context (f : string) (fd : FieldDesc) (v : Json).
Context (Hf : f ≠ "id") (Hfd : obj_get (c_schema c) f = Some fd).
Context (Hidx : fd_index fd = true) (Hu : fd_unique fd = false).



End Accumulation.

(** ** The two passes of a query *)




Lemma probe_not_indexed (c : Collection) (q : Query) (cands : list JsVal)
    (key : string) (s : State) :
  is_indexed c key = false → Collection.probe c q cands key s = (Ret cands, s).
Proof.
  unfold is_indexed, Collection.probe. intros H. case_bool_decide; [done|].
  destruct (obj_get (c_schema c) key) as [fd|]; [|done]. by rewrite H.
Qed.


(** * Properties of the specification *)

(** C5. [Collection.create] never writes to storage: the file system and
    the cache are the same before and after a call, whether it returns the
    assembled document or throws (a missing required field, a uniqueness
    violation, or anything else). *)
Theorem create_never_writes (c : Collection) (ref : nat) (s : State) :
  fs (Collection.create c ref s).2 = fs s ∧
  cache (Collection.create c ref s).2 = cache s.
Proof.
  unfold Collection.create, bind.
  pose proof (create_fields_store c ref (obj_keys (c_schema c)) s) as [Hf Hc].
  destruct (Collection.create_fields c ref _ s) as [[[]|] s1]; simpl in *;
    [|done].
  destruct (emit_same_store (c_db c) (EvCreate ref) s1) as [(Hf' & Hc' & _) He].
  destruct (emit (c_db c) (EvCreate ref) s1) as [[[]|] s2]; simpl in *;
    by rewrite Hf', Hc'.
Qed.

(** C10. [Collection.create] mutates its argument in place.  Once the loop
    has reached the field [key] (the rounds for the fields before it
    returned), the caller's object holds what that round assigns -- the
    generated [id], or the resolved default of a required field that was
    missing -- in the final state of [create], whether [create] returns
    or throws afterwards; and when it returns, it returns the caller's
    reference.  Both [PlexDB] and [PlexServer] are covered ([c_db c] is
    any database). *)
Theorem create_mutates_argument (c : Collection) (ref : nat)
    (before after : list string) (key : string) (fd : FieldDesc)
    (d1 : Doc) (s s1 : State) :
  NoDup (obj_keys (c_schema c)) →
  obj_keys (c_schema c) = before ++ key :: after →
  obj_get (c_schema c) key = Some fd →
  Collection.create_fields c ref before s = (Ret tt, s1) →
  heap s1 !! ref = Some d1 →
  ∃ dfin,
    heap (Collection.create c ref s).2 !! ref = Some dfin ∧
    (∀ r, (Collection.create c ref s).1 = Ret r → r = ref) ∧
    (key = "id" → ∀ g, fd_default fd = Producer g →
       obj_get dfin "id" = Some (g (seed s1))) ∧
    (key ≠ "id" → fd_required fd = true → truthy (obj_get d1 key) = false →
       (∀ g, fd_default fd = Producer g →
          obj_get dfin key = Some (g (seed s1))) ∧
       (∀ j, fd_default fd = Constant j → truthy (Some j) = true →
          obj_get dfin key = Some j)).
Proof.
  intros Hnd Hkeys Hfd Hbefore Hd1.
  assert (key ∉ after) as Hnotin.
  { rewrite Hkeys in Hnd. apply NoDup_app in Hnd as (_ & _ & Hnd).
    by apply NoDup_cons in Hnd as [? _]. }
  (* the final heap: the round at [key], then the rounds after it *)
  assert (∃ dfin, heap (Collection.create c ref s).2 !! ref = Some dfin ∧
                  obj_get dfin key
                  = obj_get (resolved fd key d1 (seed s1)) key)
    as (dfin & Hfin & Hval).
  { unfold Collection.create. rewrite Hkeys.
    unfold bind at 1. rewrite create_fields_app.
    rewrite (bind_run _ _ _ _ _ Hbefore). simpl Collection.create_fields.
    unfold bind at 1.
    pose proof (create_field_round c ref key fd d1 s1 Hfd Hd1)
      as (_ & _ & Hh & _).
    destruct (Collection.create_field c ref key s1) as [[[]|e] s2];
      simpl in Hh; [|by eexists].
    destruct (create_fields_preserve c ref after _ s2 Hh)
      as (d' & Hd' & Hsame).
    destruct (Collection.create_fields c ref after s2) as [[[]|e] s3];
      simpl in Hd'.
    - unfold bind.
      destruct (emit_same_store (c_db c) (EvCreate ref) s3)
        as [(_ & _ & Hh' & _) He].
      destruct (emit (c_db c) (EvCreate ref) s3) as [[[]|] s4]; simpl in *;
        exists d'; rewrite Hh'; split; try done; by apply Hsame.
    - exists d'. split; [done|]. by apply Hsame. }
  exists dfin. split; [done|]. split_and!.
  - intros r. unfold Collection.create, bind.
    destruct (Collection.create_fields c ref (obj_keys (c_schema c)) s)
      as [[[]|] s2]; [|by simpl].
    destruct (emit (c_db c) (EvCreate ref) s2) as [[[]|] s3]; [|by simpl].
    simpl. by intros [= <-].
  - intros -> g Hg. rewrite Hval. unfold resolved. simpl. rewrite Hg.
    apply obj_get_set_eq.
  - intros Hkey Hreq Hfalsy. split.
    + intros g Hg. rewrite Hval. unfold resolved.
      rewrite bool_decide_eq_false_2 by done. rewrite Hreq, Hfalsy, Hg. simpl.
      apply obj_get_set_eq.
    + intros j Hj Htr. rewrite Hval. unfold resolved.
      rewrite bool_decide_eq_false_2 by done. rewrite Hreq, Hfalsy, Hj. simpl.
      rewrite Htr. apply obj_get_set_eq.
Qed.
(** ** The cache under the storage calls *)

Lemma write_json_cache (p : string) (v : JsVal) (s : State) :
  cache (write_json p v s).2 = cache s.
Proof.
  unfold write_json. destruct v as [j|]; [|done].
  unfold bind, gets, lift, set_fs.
  by destruct (Fs.write_file (fs s) p (JsonText j)).
Qed.

Lemma storage_write_cache (d : Db) (p : string) (v : JsVal) (s : State) :
  cache (storage_write d p v s).2
  = match Cache.assign (cache s) p v with
    | Ret c' => c'
    | Throw _ => cache s
    end.
Proof.
  unfold storage_write, bind, gets, lift, set_cache.
  destruct (Cache.assign (cache s) p v) as [c'|]; [|done].
  match goal with |- context [storage_prefix d p ?s0] =>
    pose proof (storage_prefix_state d p s0) as Hp;
    destruct (storage_prefix d p s0) as [[q|] s1]; simpl in Hp; subst; [|done]
  end.
  simpl. destruct (negb _).
  - destruct (Fs.mkdir_p (fs s) _) as [f'|]; [|done]. unfold set_fs.
    by rewrite write_json_cache.
  - unfold ret. by rewrite write_json_cache.
Qed.

Lemma storage_remove_cache (d : Db) (p : string) (s : State) :
  cache (storage_remove d p s).2 = cache s ∨
  ∃ q, Cache.delete (cache s) q = Ret (cache (storage_remove d p s).2).
Proof.
  unfold storage_remove, bind, gets, lift, set_cache.
  pose proof (storage_prefix_state d p s) as Hp.
  destruct (storage_prefix d p s) as [[q|] s1]; simpl in Hp; subst; [|by left].
  destruct (Cache.delete (cache s) q) as [c'|] eqn:Hd; [|by left].
  right. exists q. rewrite Hd. f_equal.
  match goal with |- context [storage_exists d p ?s0] =>
    pose proof (storage_exists_state d p s0) as He;
    destruct (storage_exists d p s0) as [[[]|] s1]; simpl in He; subst; try done
  end.
  match goal with |- context [storage_prefix d p ?s0] =>
    pose proof (storage_prefix_state d p s0) as Hp;
    by destruct (storage_prefix d p s0) as [[q'|] s1]; simpl in Hp; subst
  end.
Qed.

Lemma storage_makedir_cache (d : Db) (p : string) (s : State) :
  cache (storage_makedir d p s).2 = cache s.
Proof.
  unfold storage_makedir, bind, gets, lift, set_fs.
  pose proof (storage_prefix_state d p s) as Hp.
  destruct (storage_prefix d p s) as [[q|] s1]; simpl in Hp; subst; [|done].
  by destruct (Fs.mkdir_p (fs s) q).
Qed.

Lemma storage_list_state (d : Db) (p : string) (s : State) :
  (storage_list d p s).2 = s.
Proof.
  unfold storage_list, bind, gets, lift, ret.
  pose proof (storage_exists_state d p s) as He.
  destruct (storage_exists d p s) as [[[]|] s1]; simpl in He; subst;
    try reflexivity.
  change (negb true) with false. cbv beta iota.
  pose proof (storage_prefix_state d p s) as Hp.
  destruct (storage_prefix d p s) as [[q|] s1]; simpl in Hp; subst;
    [|reflexivity].
  by destruct (Fs.readdir (fs s) q).
Qed.




Lemma run_trace_app (step : Op → State → Obs * State) (a b : list Op)
    (s : State) :
  (run_trace step (a ++ b) s).2
  = (run_trace step b (run_trace step a s).2).2.
Proof.
  revert s. induction a as [|o a IH]; intros s; [done|].
  simpl. destruct (step o s) as [x s1]. specialize (IH s1).
  destruct (run_trace step (a ++ b) s1) as [xs s2].
  by destruct (run_trace step a s1) as [ys s3].
Qed.

Lemma run_trace_cons (step : Op → State → Obs * State) (o : Op)
    (ops : list Op) (s : State) :
  (run_trace step (o :: ops) s).2 = (run_trace step ops (step o s).2).2.
Proof.
  simpl. destruct (step o s) as [x s1]. simpl.
  by destruct (run_trace step ops s1).
Qed.

Lemma stroke_length (n : nat) : String.length (stroke n) = n.
Proof. induction n; simpl; congruence. Qed.

Lemma tally_path_inj (i j : nat) : tally_path i = tally_path j → i = j.
Proof.
  unfold tally_path. intros H%(inj (String.app "tally/")).
  by rewrite <- (stroke_length i), <- (stroke_length j), H.
Qed.

Lemma tally_path_slash (i : nat) : slash_free (tally_path i) = false.
Proof. reflexivity. Qed.

Section Tally.

Context (lt ge : Json → option bool) (d : Db).

Lemma tally_write_cache (i : nat) (v : JsVal) (s : State) :
  cache (run_op lt ge d (OpWrite (tally_path i) v) s).2
  = {| entries := entries (cache s);
       own := <[tally_path i := v]> (own (cache s));
       proto := proto (cache s) |}.
Proof.
  simpl. unfold observe.
  pose proof (storage_write_cache d (tally_path i) v s) as H.
  rewrite cache_assign_path in H by apply tally_path_slash.
  by destruct (storage_write d (tally_path i) v s) as [[]].
Qed.

Lemma tally_run (n a : nat) (s : State) :
  (∀ i, a ≤ i → own (cache s) !! tally_path i = None)%nat →
  let s' := (run_trace (run_op lt ge d)
               ((λ i, OpWrite (tally_path i) (Some (JNum (Z.of_nat i))))
                  <$> seq a n) s).2 in
  size (own (cache s')) = (size (own (cache s)) + n)%nat ∧
  entries (cache s') = entries (cache s) ∧
  proto (cache s') = proto (cache s) ∧
  own (cache s') !! "size" = own (cache s) !! "size".
Proof.
  revert a s. induction n as [|n IH]; intros a s Hfree.
  { simpl. split_and!; try done; lia. }
  cbn [seq fmap list_fmap]. cbv zeta. rewrite run_trace_cons.
  pose proof (tally_write_cache a (Some (JNum (Z.of_nat a))) s) as Hc.
  set (s1 := (run_op lt ge d (OpWrite (tally_path a) _) s).2) in *.
  destruct (IH (S a) s1) as (Hsize & He & Hp & Hs).
  { intros i Hi. rewrite Hc. simpl. rewrite lookup_insert_ne.
    - apply Hfree. lia.
    - intros ?%tally_path_inj. lia. }
  rewrite Hsize, He, Hp, Hs, Hc. simpl.
  rewrite map_size_insert_None by (apply Hfree; lia).
  rewrite lookup_insert_ne by done. split_and!; try done; lia.
Qed.

End Tally.

(** ** The cached engine against the engine with no cache *)

Lemma cache_assign_usable (c : JsMap) (k : string) (v : JsVal) :
  cache_usable c → k ∉ member_names →
  ∃ c', Cache.assign c k v = Ret c' ∧ cache_usable c'.
Proof.
  intros (He & Hp & Hh & Hd & Hs) Hk.
  assert (k ≠ "has" ∧ k ≠ "delete" ∧ k ≠ "size" ∧ k ≠ "__proto__")
    as (H1 & H2 & H3 & H4).
  { unfold member_names in Hk. rewrite !not_elem_of_cons in Hk.
    by destruct Hk as (? & ? & ? & ? & _). }
  exists {| entries := entries c; own := <[k := v]> (own c); proto := proto c |}.
  split.
  - unfold Cache.assign. destruct (own c !! k); [done|].
    rewrite (bool_decide_eq_false_2 (k = "size")) by done.
    by rewrite (bool_decide_eq_false_2 (k = "__proto__")) by done.
  - unfold cache_usable. simpl. by rewrite !lookup_insert_ne.
Qed.


Lemma storage_prefix_pure (d : Db) (p : string) (s : State) :
  storage_prefix d p s = (prefix_outcome d p, s).
Proof. unfold storage_prefix, prefix_outcome. by case_match. Qed.

Section Simulation.

Context (lt ge : Json → option bool) (d : Db).



End Simulation.

(** ** Evaluations *)

(** C4 (the defect, evaluated). With the root [/db], the logical path
    [../db2/x] resolves to [/db2/x], which is outside the root but starts
    with the string [/db]: [storage.prefix] accepts it, [storage.write]
    creates a file outside the root, and [storage.read] reads it back. *)
Theorem prefix_accepts_sibling :
  let d := open_PlexDB "/" "/db" in
  let s := initial_state ∅ in
  let s' := (storage_write d "../db2/x" (Some (JNum 1)) s).2 in
  root d = "/db" ∧
  storage_prefix d "../db2/x" s = (Ret "/db2/x", s) ∧
  ¬ Fs.key (root d) `prefix_of` Fs.key "/db2/x" ∧
  (storage_write d "../db2/x" (Some (JNum 1)) s).1 = Ret tt ∧
  fs s' !! ["db2"; "x"] = Some (File (JsonText (JNum 1))) ∧
  (storage_read d "../db2/x" s').1 = Ret (Some (JNum 1)) ∧
  (storage_exists d "../db2/x" s').1 = Ret true ∧
  (storage_list d "../db2" s').1 = Ret (Some ["x"]) ∧
  (storage_makedir d "../db2/y" s').1 = Ret tt ∧
  fs (storage_remove d "../db2/x" s').2 !! ["db2"; "x"] = None.
Proof.
  cbv zeta. split_and!; try (vm_compute; reflexivity).
  intros H. by apply prefix_cons_inv_1 in H.
Qed.
(** C8 (the defect, evaluated). [storage.write] keeps every value as a
    property of the Map object, and the eviction timer looks at the Map's
    entries, of which there are none: after writes to [n] distinct paths
    and a tick of the timer the cache holds all [n] values, for every [n].
    With [n = 10001] that is more than the mark of 10000. *)
Theorem cache_outgrows_mark (lt ge : Json → option bool) (d : Db) (f0 : FS)
    (n : nat) :
  Cache.resident
    (cache (run_trace (run_op lt ge d) (tally_writes n ++ [OpTick])
              (initial_state f0)).2) = n.
Proof.
  rewrite run_trace_app. unfold tally_writes.
  destruct (tally_run lt ge d n 0 (initial_state f0)) as (Hsize & He & Hp & Hs).
  { intros i _. apply lookup_empty. }
  set (s1 := (run_trace _ _ (initial_state f0)).2) in *.
  simpl in Hsize, He, Hp, Hs. rewrite map_size_empty in Hsize.
  assert (Cache.clear lt ge (cache s1) = Ret (cache s1)) as Hclear.
  { unfold Cache.clear, Cache.size. by rewrite Hs, Hp, He. }
  simpl. unfold observe, storage_cacheClear, bind, gets, lift, set_cache.
  rewrite Hclear. simpl. unfold Cache.resident. rewrite He, Hsize. done.
Qed.

(** ** The fixtures are well formed *)

Ltac decided := apply (bool_decide_unpack _); vm_compute; exact I.
Ltac evaluated := vm_compute; reflexivity.

Lemma demo_uuid_is_uuid (n : nat) : is_uuid (demo_uuid n) = true.
Proof.
  unfold demo_uuid.
  pose proof (hex_digit_is_hex (N.of_nat n mod 16)) as Hh.
  revert Hh. generalize (hex_digit (N.of_nat n mod 16)). intros ch Hh.
  unfold is_uuid. cbv -[is_hex_char]. rewrite Hh. reflexivity.
Qed.

Lemma demo_root : canonical_root demo_db ["db"].
Proof. unfold canonical_root, Path.plain. split; [decided|evaluated]. Qed.

Lemma demo_users_ok : collection_ok demo_users.
Proof. unfold collection_ok, Path.plain. decided. Qed.

Lemma demo_ids : id_generated demo_users demo_uuid.
Proof. split; [reflexivity|apply demo_uuid_is_uuid]. Qed.

Lemma empty_cache_usable : cache_usable Cache.empty.
Proof. by unfold cache_usable. Qed.
(** ** The theorems at the fixtures *)




(** C10 at the fixture: the second alice is refused, and the caller's object
    has the generated id all the same. *)
Lemma create_mutates_argument_witness :
  ∃ dfin,
    heap (Collection.create demo_users 1%nat demo_written).2 !! 1%nat
    = Some dfin ∧
    (∀ r, (Collection.create demo_users 1%nat demo_written).1 = Ret r →
          r = 1%nat) ∧
    ("id" = "id" → ∀ g,
       fd_default (id_descriptor PlexDB demo_uuid) = Producer g →
       obj_get dfin "id" = Some (g (seed demo_written))) ∧
    ("id" ≠ "id" → fd_required (id_descriptor PlexDB demo_uuid) = true →
     truthy (obj_get [("username", JStr "alice")] "id") = false →
     (∀ g, fd_default (id_descriptor PlexDB demo_uuid) = Producer g →
        obj_get dfin "id" = Some (g (seed demo_written))) ∧
     (∀ j, fd_default (id_descriptor PlexDB demo_uuid) = Constant j →
        truthy (Some j) = true → obj_get dfin "id" = Some j)).
Proof.
  apply (create_mutates_argument demo_users 1%nat []
           ["username"; "team"; "note"] "id"
           (id_descriptor PlexDB demo_uuid) [("username", JStr "alice")]
           demo_written demo_written).
  - decided.
  - reflexivity.
  - reflexivity.
  - reflexivity.
  - evaluated.
Defined.

(** ** Where the statements as worded fail *)





(** * More of the storage engine *)

(** ** Paths that [prefix] rejects *)

Lemma rejected_calls (d : Db) (p : string) (s : State) :
  cache_usable (cache s) →
  prefix_outcome d p = Throw PathEscapeError →
  storage_read d p s = (Throw PathEscapeError, s) ∧
  storage_exists d p s = (Throw PathEscapeError, s) ∧
  storage_list d p s = (Throw PathEscapeError, s) ∧
  storage_remove d p s = (Throw PathEscapeError, s) ∧
  storage_makedir d p s = (Throw PathEscapeError, s).
Proof.
  intros Hc Hout.
  assert (storage_exists d p s = (Throw PathEscapeError, s)) as Hex.
  { unfold storage_exists, bind, gets, lift.
    rewrite cache_has_usable by done. by rewrite storage_prefix_pure, Hout. }
  split_and!.
  - unfold storage_read, bind, gets, lift.
    rewrite cache_has_usable by done. by rewrite storage_prefix_pure, Hout.
  - done.
  - unfold storage_list, bind. by rewrite Hex.
  - unfold storage_remove, bind. by rewrite storage_prefix_pure, Hout.
  - unfold storage_makedir, bind. by rewrite storage_prefix_pure, Hout.
Qed.

Lemma rejected_write (d : Db) (p : string) (v : JsVal) (s : State) :
  cache_usable (cache s) → p ∉ member_names →
  prefix_outcome d p = Throw PathEscapeError →
  (storage_write d p v s).1 = Throw PathEscapeError ∧
  fs (storage_write d p v s).2 = fs s ∧
  own (cache (storage_write d p v s).2) !! p = Some v.
Proof.
  intros Hc Hp Hout. split_and!.
  - unfold storage_write, bind, gets, lift, set_cache.
    destruct (cache_assign_usable (cache s) p v Hc Hp) as (c' & -> & _).
    by rewrite storage_prefix_pure, Hout.
  - unfold storage_write, bind, gets, lift, set_cache.
    destruct (cache_assign_usable (cache s) p v Hc Hp) as (c' & -> & _).
    by rewrite storage_prefix_pure, Hout.
  - rewrite storage_write_cache.
    assert (Cache.assign (cache s) p v
            = Ret {| entries := entries (cache s);
                     own := <[p := v]> (own (cache s));
                     proto := proto (cache s) |}) as ->.
    { unfold member_names in Hp. rewrite !not_elem_of_cons in Hp.
      destruct Hp as (_ & _ & H3 & H4 & _).
      unfold Cache.assign. destruct (own (cache s) !! p); [done|].
      rewrite (bool_decide_eq_false_2 (p = "size")) by done.
      by rewrite (bool_decide_eq_false_2 (p = "__proto__")) by done. }
    simpl. by rewrite lookup_insert_eq.
Qed.

(** X1. When [prefix] rejects a logical path, each of the six storage
    calls on that path throws the same error and leaves the files as they
    were; [write] has then already put the value on the cache object. *)
Theorem rejected_path_everywhere (d : Db) (p : string) (v : JsVal)
    (s : State) :
  cache_usable (cache s) → p ∉ member_names →
  (storage_prefix d p s).1 = Throw PathEscapeError →
  storage_read d p s = (Throw PathEscapeError, s) ∧
  storage_exists d p s = (Throw PathEscapeError, s) ∧
  storage_list d p s = (Throw PathEscapeError, s) ∧
  storage_remove d p s = (Throw PathEscapeError, s) ∧
  storage_makedir d p s = (Throw PathEscapeError, s) ∧
  (storage_write d p v s).1 = Throw PathEscapeError ∧
  fs (storage_write d p v s).2 = fs s ∧
  own (cache (storage_write d p v s).2) !! p = Some v.
Proof.
  intros Hc Hp Hout. rewrite storage_prefix_pure in Hout. simpl in Hout.
  destruct (rejected_calls d p s Hc Hout) as (H1 & H2 & H3 & H4 & H5).
  destruct (rejected_write d p v s Hc Hp Hout) as (H6 & H7 & H8).
  by split_and!.
Qed.

(** ** Climbing out of the root *)

Lemma dots_slash_free (n : nat) :
  Forall (λ x, slash_free x = true) (replicate n "..").
Proof. induction n; by constructor. Qed.

Lemma split_join_slash_free (l : list string) :
  Forall (λ x, slash_free x = true) l → l ≠ [] →
  Path.split (Path.join l) = l.
Proof.
  induction l as [|x l IH]; [done|]. intros Hp _.
  apply Forall_cons in Hp as [Hx Hl].
  destruct l as [|y l].
  - simpl. by apply split_slash_free.
  - rewrite join_cons by done. rewrite split_append_slash.
    rewrite IH by done. by rewrite split_slash_free.
Qed.

Lemma join_dots_nonempty (n : nat) : Path.join (replicate (S n) "..") ≠ "".
Proof. destruct n; [done|]. simpl replicate. by rewrite join_cons. Qed.

Lemma ends_with_slash_dots (n : nat) :
  Path.ends_with_slash (Path.join (replicate (S n) "..")) = false.
Proof.
  induction n as [|n IH]; [done|].
  change (replicate (S (S n)) "..") with (".." :: replicate (S n) "..").
  rewrite join_cons by done.
  rewrite !ends_with_slash_append; [done| |].
  - apply join_dots_nonempty.
  - intros H. apply append_eq_empty in H as [H _]. done.
Qed.

(** Each [..] takes the last kept segment away, and at the root nothing. *)
Lemma foldl_norm_step_dots (n : nat) (acc : list string) :
  Forall Path.plain acc →
  foldl (Path.norm_step false) acc (replicate n "..") = drop n acc.
Proof.
  revert acc. induction n as [|n IH]; intros acc Hp; [done|].
  simpl. destruct acc as [|top rest].
  - change (Path.norm_step false [] "..") with (@nil string).
    rewrite IH by done. by rewrite !drop_nil.
  - apply Forall_cons in Hp as [Ht Hr].
    assert (Path.norm_step false (top :: rest) ".." = rest) as ->.
    { unfold Path.norm_step. simpl.
      rewrite (bool_decide_eq_false_2 (top = "..")); [done|].
      by destruct Ht as (_ & _ & ? & _). }
    by apply IH.
Qed.

Lemma normalize_segs_climb (rs : list string) (n : nat) :
  Forall Path.plain rs →
  Path.normalize_segs false (rs ++ replicate n "..")
  = take (length rs - n) rs.
Proof.
  intros Hp. unfold Path.normalize_segs. rewrite foldl_app.
  rewrite (foldl_norm_step_plain _ rs) by done. rewrite app_nil_r.
  rewrite foldl_norm_step_dots by (by apply List.Forall_rev).
  rewrite List.skipn_rev. by rewrite rev_involutive.
Qed.

Lemma length_append (a b : string) :
  String.length (a +:+ b) = (String.length a + String.length b)%nat.
Proof. induction a as [|ch a IH]; [done|]. rewrite append_cons. simpl. lia. Qed.

Lemma starts_with_length (a b : string) :
  Path.starts_with a b = true → (String.length a ≤ String.length b)%nat.
Proof.
  revert b. induction a as [|ch a IH]; intros b; simpl; [lia|].
  destruct b as [|ch' b]; [done|]. intros [_ H]%andb_true_iff.
  apply IH in H. simpl. lia.
Qed.

Lemma join_take_shorter (rs : list string) (m : nat) :
  Forall Path.plain rs → (m < length rs)%nat →
  (String.length (Path.join (take m rs)) < String.length (Path.join rs))%nat.
Proof.
  intros Hp Hm. rewrite <- (take_drop m rs) at 2.
  assert (drop m rs ≠ []) as Hd.
  { intros H. apply (f_equal length) in H. rewrite length_drop in H.
    simpl in H. lia. }
  destruct (take m rs) as [|x t] eqn:Et.
  - simpl app. change (Path.join []) with "". simpl String.length.
    assert (Path.join (drop m rs) ≠ "") as Hj.
    { apply join_nonempty; [|done]. by apply Forall_drop. }
    destruct (Path.join (drop m rs)); [done|]. simpl. lia.
  - rewrite join_app by done. rewrite !length_append. simpl. lia.
Qed.

Lemma normalize_abs_path_any (l : list string) :
  Forall Path.plain l → Path.normalize (Path.abs_path l) = Path.abs_path l.
Proof.
  intros Hp. destruct l as [|x l]; [done|]. by apply normalize_abs_path.
Qed.

Lemma resolve_abs_path_any (wd : string) (l : list string) :
  Forall Path.plain l → Path.resolve wd (Path.abs_path l) = Path.abs_path l.
Proof.
  intros Hp. destruct l as [|x l]; [done|]. by apply resolve_abs_path.
Qed.

Lemma posix_join_climb (rs : list string) (n : nat) :
  Forall Path.plain rs → rs ≠ [] →
  Path.posix_join [Path.abs_path rs; Path.join (replicate (S n) "..")]
  = Path.abs_path (take (length rs - S n) rs).
Proof.
  intros Hr Hne. unfold Path.posix_join.
  pose proof (join_dots_nonempty n) as Hj.
  rewrite filter_cons_True by done. rewrite filter_cons_True by done.
  rewrite filter_nil. rewrite join_cons by done.
  change (Path.join [Path.join (replicate (S n) "..")])
    with (Path.join (replicate (S n) "..")).
  unfold Path.normalize.
  rewrite bool_decide_eq_false_2
    by (intros H; by apply append_eq_empty in H as [H _]).
  rewrite is_absolute_append by done. rewrite is_absolute_abs_path.
  simpl negb.
  rewrite ends_with_slash_append
    by (intros H; by apply append_eq_empty in H as [H _]).
  rewrite ends_with_slash_append by done.
  rewrite ends_with_slash_dots.
  rewrite split_append_slash.
  rewrite split_join_slash_free by (done || apply dots_slash_free).
  rewrite split_abs_path by done.
  change (("" :: rs) ++ replicate (S n) "..")
    with ("" :: (rs ++ replicate (S n) "..")).
  rewrite normalize_segs_empty_l, normalize_segs_climb by done.
  case_bool_decide as Hres.
  - unfold Path.abs_path. by rewrite Hres.
  - unfold Path.abs_path. by rewrite append_empty_r.
Qed.

(** X2. Unless the database root is [/], the logical paths [..], [../..]
    and so on are rejected, however far they climb. *)
Theorem prefix_rejects_parent (d : Db) (rs : list string) (n : nat)
    (s : State) :
  canonical_root d rs → rs ≠ [] →
  storage_prefix d (Path.join (replicate (S n) "..")) s
  = (Throw PathEscapeError, s).
Proof.
  intros [Hrs Hr] Hne. rewrite storage_prefix_pure. f_equal.
  unfold prefix_outcome. rewrite Hr.
  rewrite posix_join_climb by done.
  assert (Forall Path.plain (take (length rs - S n) rs)) as Ht
    by (by apply Forall_take).
  rewrite normalize_abs_path_any, resolve_abs_path_any by done.
  destruct (Path.starts_with _ _) eqn:Es; [|done].
  apply starts_with_length in Es. unfold Path.abs_path in Es.
  rewrite !length_append in Es.
  assert (length rs ≠ 0)%nat by (by destruct rs).
  pose proof (join_take_shorter rs (length rs - S n) Hrs). lia.
Qed.
(** ** Writing, then reading *)

Lemma mkdir_from_ok (todo made : list string) (f : FS) :
  (∀ k t, k `prefix_of` made ++ todo → (length made < length k)%nat →
          f !! k ≠ Some (File t)) →
  ∃ f', Fs.mkdir_from f made todo = Ret f'.
Proof.
  revert made f. induction todo as [|seg todo IH]; intros made f Hfree.
  { by eexists. }
  simpl.
  assert ((made ++ [seg]) `prefix_of` made ++ seg :: todo) as Hpre.
  { exists todo. by rewrite <- app_assoc. }
  assert (length made < length (made ++ [seg]))%nat as Hlen
    by (rewrite length_app; simpl; lia).
  destruct (f !! (made ++ [seg])) as [[t|]|] eqn:Ek.
  - by destruct (Hfree _ t Hpre Hlen).
  - apply IH. intros k t Hk Hl. apply Hfree.
    + by rewrite <- app_assoc in Hk.
    + rewrite length_app in Hl. simpl in Hl. lia.
  - apply IH. intros k t Hk Hl.
    rewrite lookup_insert_ne.
    + apply Hfree; [by rewrite <- app_assoc in Hk|].
      rewrite length_app in Hl. simpl in Hl. lia.
    + intros <-. lia.
Qed.

Lemma parent_snoc (l : list string) (x : string) : Fs.parent (l ++ [x]) = l.
Proof.
  unfold Fs.parent. rewrite length_app. simpl.
  replace (length l + 1 - 1)%nat with (length l) by lia.
  by rewrite take_app_length.
Qed.

Section WriteRead.

Context (d : Db) (rs : list string) (Hroot : canonical_root d rs).



(** X4. Where there is nothing, nothing fails: [read] returns
    [undefined], [exists] is false, [list] returns [undefined], and
    [remove] returns with the state as it was. *)
Theorem missing_path_is_no_error (ls : list string) (s : State) :
  Forall Path.plain ls → ls ≠ [] → cache_usable (cache s) →
  fs s !! (rs ++ ls) = None →
  storage_read d (Path.join ls) s = (Ret None, s) ∧
  storage_exists d (Path.join ls) s = (Ret false, s) ∧
  storage_list d (Path.join ls) s = (Ret None, s) ∧
  storage_remove d (Path.join ls) s = (Ret tt, s).
Proof.
  intros Hl Hne Hc Hnone.
  assert (storage_exists d (Path.join ls) s = (Ret false, s)) as Hex.
  { rewrite (storage_exists_plain d rs Hroot) by done. by rewrite Hnone. }
  split_and!; [|done| |].
  - rewrite (storage_read_plain d rs Hroot) by done. by rewrite Hnone.
  - unfold storage_list, bind. by rewrite Hex.
  - unfold storage_remove, bind, gets, lift, set_cache.
    rewrite (storage_prefix_plain d rs ls) by done.
    rewrite cache_delete_usable by done. simpl.
    assert ({| fs := fs s; cache := cache s; heap := heap s; seed := seed s;
               events := events s |} = s) as -> by (by destruct s).
    by rewrite Hex.
Qed.

Lemma storage_remove_below (ls : list string) (s : State) :
  Forall Path.plain ls → ls ≠ [] → cache_usable (cache s) →
  is_Some (fs s !! (rs ++ ls)) →
  ∃ s', storage_remove d (Path.join ls) s = (Ret tt, s') ∧
        cache s' = cache s ∧
        (∀ k', (rs ++ ls) `prefix_of` k' → fs s' !! k' = None) ∧
        (∀ k', ¬ (rs ++ ls) `prefix_of` k' → fs s' !! k' = fs s !! k').
Proof.
  intros Hl Hne Hc [n E].
  assert (Forall Path.plain (rs ++ ls)) as Hall
    by (apply Forall_app; by destruct Hroot).
  unfold storage_remove, bind, gets, lift, set_cache, set_fs, ret.
  rewrite (storage_prefix_plain d rs ls) by done.
  rewrite cache_delete_usable by done.
  rewrite (storage_exists_plain d rs) by done. simpl. rewrite E. simpl.
  rewrite (storage_prefix_plain d rs ls) by done. simpl.
  eexists. split; [done|]. simpl. split; [done|].
  unfold Fs.rm_rf. rewrite key_abs_path by done. split.
  - intros k' Hk'. apply map_lookup_filter_None. right.
    intros n' _ Hn. by apply Hn.
  - intros k' Hk'. destruct (fs s !! k') as [n'|] eqn:E'.
    + by apply map_lookup_filter_Some.
    + apply map_lookup_filter_None. by left.
Qed.

(** X5. [remove] of a file or directory that is there takes it away with
    all that is below it: each such path then reads as [undefined] and
    does not exist.  A path that is not below it reads as before. *)
Theorem remove_takes_subtree (ls : list string) (s : State) :
  Forall Path.plain ls → ls ≠ [] → cache_usable (cache s) →
  is_Some (fs s !! (rs ++ ls)) →
  ∃ s', storage_remove d (Path.join ls) s = (Ret tt, s') ∧
        (∀ more, Forall Path.plain more →
           storage_read d (Path.join (ls ++ more)) s' = (Ret None, s') ∧
           storage_exists d (Path.join (ls ++ more)) s' = (Ret false, s')) ∧
        (∀ ls', Forall Path.plain ls' → ls' ≠ [] → ¬ ls `prefix_of` ls' →
           storage_read d (Path.join ls') s'
           = ((storage_read d (Path.join ls') s).1, s')).
Proof.
  intros Hl Hne Hc Hsome.
  destruct (storage_remove_below ls s Hl Hne Hc Hsome)
    as (s' & Hrm & Hcache & Hbelow & Hframe).
  assert (cache_usable (cache s')) as Hc' by (by rewrite Hcache).
  exists s'. split_and!; [done| |].
  - intros more Hmore.
    assert (Forall Path.plain (ls ++ more)) by (by apply Forall_app).
    assert (ls ++ more ≠ []) by (by destruct ls).
    rewrite (storage_read_plain d rs Hroot) by done.
    rewrite (storage_exists_plain d rs Hroot) by done.
    rewrite Hbelow; [done|]. rewrite app_assoc. by apply prefix_app_r.
  - intros ls' Hl' Hne' Hnp.
    rewrite !(storage_read_plain d rs Hroot) by done. simpl.
    rewrite Hframe; [done|]. intros Hp. by apply prefix_app_same in Hp.
Qed.

End WriteRead.
(** ** Directories *)

Lemma child_of_Some (k k' : list string) (x : string) :
  Fs.child_of k k' = Some x ↔ k' = k ++ [x].
Proof.
  unfold Fs.child_of. split.
  - destruct (drop (length k) k') as [|y [|z l]] eqn:Ed; try done.
    case_bool_decide as Ht; [|done]. intros [= ->].
    by rewrite <- (take_drop (length k) k'), Ht, Ed.
  - intros ->. rewrite drop_app_length, take_app_length.
    by rewrite bool_decide_eq_true_2.
Qed.

Lemma NoDup_omap_inj {A B} (f : A → option B) (l : list A) :
  NoDup l →
  (∀ a a' b, a ∈ l → a' ∈ l → f a = Some b → f a' = Some b → a = a') →
  NoDup (omap f l).
Proof.
  induction 1 as [|a l Ha Hl IH]; intros Hinj; [constructor|].
  simpl. destruct (f a) as [b|] eqn:Efa.
  - constructor.
    + intros Hb. apply list_elem_of_omap in Hb as (a' & Ha' & Hfa').
      assert (a = a') as <-; [|done].
      eapply Hinj; [apply list_elem_of_here|by apply list_elem_of_further|
                    done..].
    + apply IH. intros a1 a2 b' H1 H2. apply Hinj; by apply list_elem_of_further.
  - apply IH. intros a1 a2 b' H1 H2. apply Hinj; by apply list_elem_of_further.
Qed.

Lemma readdir_names (f : FS) (k : list string) :
  let names := omap (λ kv : list string * Node, Fs.child_of k kv.1)
                    (map_to_list f) in
  NoDup names ∧ ∀ x, x ∈ names ↔ is_Some (f !! (k ++ [x])).
Proof.
  split.
  - apply NoDup_omap_inj; [apply NoDup_map_to_list|].
    intros [k1 n1] [k2 n2] x H1 H2 E1 E2. simpl in *.
    apply child_of_Some in E1, E2. subst k1 k2.
    apply elem_of_map_to_list in H1, H2. congruence.
  - intros x. rewrite list_elem_of_omap. split.
    + intros ([k' n] & Hin & Hc). simpl in Hc.
      apply child_of_Some in Hc as ->.
      apply elem_of_map_to_list in Hin. by exists n.
    + intros [n Hn]. exists (k ++ [x], n). split.
      * by apply elem_of_map_to_list.
      * simpl. by apply child_of_Some.
Qed.

Lemma mkdir_from_keeps_dirs (todo made : list string) (f f' : FS)
    (k : list string) :
  Fs.mkdir_from f made todo = Ret f' → f !! k = Some Dir → f' !! k = Some Dir.
Proof.
  intros Hm Hk.
  destruct (mkdir_from_spec _ _ _ _ Hm k) as [->|(Hn & _)]; [done|].
  by rewrite Hk in Hn.
Qed.

Lemma mkdir_from_dirs (todo made : list string) (f f' : FS) :
  Fs.mkdir_from f made todo = Ret f' →
  ∀ k, k `prefix_of` made ++ todo → (length made < length k)%nat →
       f' !! k = Some Dir.
Proof.
  revert made f. induction todo as [|seg todo IH]; intros made f Hm k Hk Hl.
  { rewrite app_nil_r in Hk. apply prefix_length in Hk. lia. }
  simpl in Hm.
  assert (made ++ seg :: todo = (made ++ [seg]) ++ todo) as Eq
    by (by rewrite <- app_assoc).
  destruct (decide (length k = S (length made))) as [Hlk|Hlk].
  - assert (k = made ++ [seg]) as ->.
    { destruct Hk as [m Hm']. rewrite Eq in Hm'.
      apply app_inj_1 in Hm' as [? _]; [done|].
      rewrite length_app. simpl. lia. }
    destruct (f !! (made ++ [seg])) as [[t|]|] eqn:Ek; [done| |].
    + by apply (mkdir_from_keeps_dirs _ _ _ _ _ Hm).
    + apply (mkdir_from_keeps_dirs _ _ _ _ _ Hm). by rewrite lookup_insert_eq.
  - destruct (f !! (made ++ [seg])) as [[t|]|] eqn:Ek; [done| |].
    + apply (IH _ _ Hm); [by rewrite <- Eq|].
      rewrite length_app. simpl. lia.
    + apply (IH _ _ Hm); [by rewrite <- Eq|].
      rewrite length_app. simpl. lia.
Qed.

Lemma mkdir_from_idem (todo made : list string) (f : FS) :
  (∀ k, k `prefix_of` made ++ todo → (length made < length k)%nat →
        f !! k = Some Dir) →
  Fs.mkdir_from f made todo = Ret f.
Proof.
  revert made. induction todo as [|seg todo IH]; intros made Hd; [done|].
  simpl. rewrite Hd.
  - apply IH. intros k Hk Hl. apply Hd; [by rewrite <- app_assoc in Hk|].
    rewrite length_app in Hl. simpl in Hl. lia.
  - exists todo. by rewrite <- app_assoc.
  - rewrite length_app. simpl. lia.
Qed.

Section Directories.

Context (d : Db) (rs : list string) (Hroot : canonical_root d rs).

(** X6. [list] of a directory returns the names of the nodes directly
    under it, each once; [list] of a file throws [ENOTDIR]. *)
Theorem list_names (ls : list string) (s : State) :
  Forall Path.plain ls → ls ≠ [] → cache_usable (cache s) →
  match fs s !! (rs ++ ls) with
  | Some Dir =>
      ∃ names, storage_list d (Path.join ls) s = (Ret (Some names), s) ∧
               NoDup names ∧
               ∀ x, x ∈ names ↔ is_Some (fs s !! (rs ++ ls ++ [x]))
  | Some (File _) =>
      storage_list d (Path.join ls) s = (Throw (IOError "ENOTDIR"), s)
  | None => storage_list d (Path.join ls) s = (Ret None, s)
  end.
Proof.
  intros Hl Hne Hc.
  assert (Forall Path.plain (rs ++ ls)) as Hall
    by (apply Forall_app; by destruct Hroot).
  assert (rs ++ ls ≠ []) as Hne' by (by destruct rs, ls).
  unfold storage_list, bind.
  rewrite (storage_exists_plain d rs Hroot) by done.
  destruct (fs s !! (rs ++ ls)) as [[t|]|] eqn:E; simpl; [| |done].
  - rewrite (storage_prefix_plain d rs ls) by done.
    unfold gets, lift, Fs.readdir. simpl.
    rewrite key_abs_path by done. rewrite fs_lookup_cons by done.
    by rewrite E.
  - rewrite (storage_prefix_plain d rs ls) by done.
    unfold gets, lift, Fs.readdir, ret. simpl.
    rewrite key_abs_path by done. rewrite fs_lookup_cons by done.
    rewrite E. eexists. split; [done|].
    pose proof (readdir_names (fs s) (rs ++ ls)) as [Hnd Hin].
    split; [done|]. intros x. rewrite app_assoc. apply Hin.
Qed.

(** X7. [makedir] returns whenever no file is in the way; the directory
    is then there, nothing outside the path to it has changed, and a second
    [makedir] of the same path changes nothing more. *)
Theorem makedir_idempotent (ls : list string) (s : State) :
  Forall Path.plain ls → ls ≠ [] → cache_usable (cache s) →
  (∀ k t, k `prefix_of` rs ++ ls → fs s !! k ≠ Some (File t)) →
  ∃ s', storage_makedir d (Path.join ls) s = (Ret tt, s') ∧
        fs s' !! (rs ++ ls) = Some Dir ∧
        (∀ k, ¬ k `prefix_of` rs ++ ls → fs s' !! k = fs s !! k) ∧
        storage_exists d (Path.join ls) s' = (Ret true, s') ∧
        storage_makedir d (Path.join ls) s' = (Ret tt, s').
Proof.
  intros Hl Hne Hc Hfree.
  assert (Forall Path.plain (rs ++ ls)) as Hall
    by (apply Forall_app; by destruct Hroot).
  assert (rs ++ ls ≠ []) as Hne' by (by destruct rs, ls).
  unfold storage_makedir, bind, gets, lift, set_fs.
  rewrite (storage_prefix_plain d rs ls) by done.
  unfold Fs.mkdir_p. rewrite key_abs_path by done.
  destruct (mkdir_from_ok (rs ++ ls) [] (fs s)) as [f1 Em].
  { intros k t Hk _. by apply Hfree. }
  pose proof (mkdir_from_target _ [] _ _ Em Hne') as Ht. simpl in Ht.
  rewrite Em. eexists. split; [done|]. simpl. split_and!.
  - done.
  - intros k Hk.
    destruct (mkdir_from_spec _ _ _ _ Em k) as [?|(_ & _ & ?)]; done.
  - rewrite (storage_exists_plain d rs Hroot) by done. simpl.
    by rewrite Ht.
  - rewrite (storage_prefix_plain d rs ls) by done. simpl.
    rewrite key_abs_path by done.
    rewrite mkdir_from_idem; [done|].
    intros k Hk Hlen. by apply (mkdir_from_dirs _ _ _ _ Em).
Qed.

(** X8. [write] of [undefined] throws a [TypeError] and leaves the target
    as it was, but only after it has put the property on the cache object
    and made the directories that were missing above the target. *)
Theorem write_undefined (l : list string) (x : string) (s : State) :
  Forall Path.plain l → Path.plain x → Path.join (l ++ [x]) ∉ member_names →
  cache_usable (cache s) →
  (∀ k t, k `prefix_of` rs ++ l → fs s !! k ≠ Some (File t)) →
  let s' := (storage_write d (Path.join (l ++ [x])) None s).2 in
  (storage_write d (Path.join (l ++ [x])) None s).1 = Throw TypeError ∧
  fs s' !! (rs ++ l ++ [x]) = fs s !! (rs ++ l ++ [x]) ∧
  Fs.lookup (fs s') (rs ++ l) = Some Dir ∧
  own (cache s') !! Path.join (l ++ [x]) = Some None.
Proof.
  intros Hl Hx Hmem Hc Hfree.
  assert (Forall Path.plain (l ++ [x])) as Hlx
    by (apply Forall_app; split; [done|by constructor]).
  assert (Forall Path.plain (rs ++ l)) as Hrl
    by (apply Forall_app; by destruct Hroot).
  assert (Cache.assign (cache s) (Path.join (l ++ [x])) None
          = Ret {| entries := entries (cache s);
                   own := <[Path.join (l ++ [x]) := None]> (own (cache s));
                   proto := proto (cache s) |}) as Ha.
  { unfold member_names in Hmem. rewrite !not_elem_of_cons in Hmem.
    destruct Hmem as (_ & _ & H3 & H4 & _).
    unfold Cache.assign. destruct (own (cache s) !! _); [done|].
    rewrite (bool_decide_eq_false_2 (_ = "size")) by done.
    by rewrite (bool_decide_eq_false_2 (_ = "__proto__")) by done. }
  unfold storage_write, bind, gets, lift, set_cache, set_fs, ret.
  rewrite Ha. simpl.
  rewrite (storage_prefix_plain d rs (l ++ [x])) by (done || by destruct l).
  simpl. rewrite (app_assoc rs l [x]).
  unfold Fs.exists_sync. rewrite key_dirname by done.
  destruct (Fs.lookup (fs s) (rs ++ l)) as [n|] eqn:El; simpl.
  - split_and!; [done..| |by rewrite lookup_insert_eq].
    destruct n as [t|]; [|done]. exfalso.
    destruct (rs ++ l) as [|y l'] eqn:Erl; [done|].
    rewrite <- Erl in *. rewrite fs_lookup_cons in El by (by rewrite Erl).
    by apply (Hfree (rs ++ l) t).
  - unfold Fs.mkdir_p. rewrite key_dirname by done.
    destruct (mkdir_from_ok (rs ++ l) [] (fs s)) as [f1 Em].
    { intros k t Hk _. by apply Hfree. }
    rewrite Em. simpl.
    assert (rs ++ l ≠ []) as Hne by (intros E; by rewrite E in El).
    split_and!; [done| | |by rewrite lookup_insert_eq].
    + destruct (mkdir_from_spec _ _ _ _ Em ((rs ++ l) ++ [x]))
        as [?|(_ & _ & Hp)]; [done|].
      apply prefix_length in Hp. rewrite length_app in Hp. simpl in Hp. lia.
    + rewrite fs_lookup_cons by done.
      by apply (mkdir_from_target _ [] _ _ Em).
Qed.

End Directories.
(** ** What the cache object keeps *)

Lemma assign_own_dom (c c' : JsMap) (k : string) (v : JsVal) :
  Cache.assign c k v = Ret c' → dom (own c) ⊆ dom (own c').
Proof.
  unfold Cache.assign.
  assert (dom (own c) ⊆ dom (<[k := v]> (own c))) as Hins
    by (rewrite dom_insert; set_solver).
  destruct (own c !! k); [by intros [= <-]|].
  destruct (_ && _); [done|].
  destruct (_ && _); [|by intros [= <-]].
  destruct (Cache.is_object v); by intros [= <-].
Qed.

Lemma evict_own (ge : Json → option bool) (fuel : nat) (c c' : JsMap) :
  Cache.evict ge fuel c = Ret c' → own c' = own c.
Proof.
  revert c. induction fuel as [|fuel IH]; intros c; simpl.
  - destruct (Cache.at_mark ge (Cache.size c)) as [[]|]; try done.
    + by destruct (Cache.has_method c "delete").
    + by intros [= <-].
  - destruct (Cache.at_mark ge (Cache.size c)) as [[]|]; try done.
    + destruct (Cache.has_method c "delete"); [|done].
      intros H. by apply IH in H.
    + by intros [= <-].
Qed.

Lemma clear_own (lt ge : Json → option bool) (c c' : JsMap) :
  Cache.clear lt ge c = Ret c' → own c' = own c.
Proof.
  unfold Cache.clear.
  destruct (Cache.below_mark lt (Cache.size c)) as [[]|]; try done.
  - by intros [= <-].
  - destruct (Cache.keys_callable c); [|done]. apply evict_own.
Qed.

Lemma run_op_own_dom (lt ge : Json → option bool) (d : Db) (o : Op)
    (s : State) :
  dom (own (cache s)) ⊆ dom (own (cache (run_op lt ge d o s).2)).
Proof.
  destruct o as [p|p v|p|p|p|p|]; simpl; unfold observe.
  - pose proof (storage_read_state d p s) as H.
    destruct (storage_read d p s) as [[?|?] s']; simpl in *; by subst.
  - pose proof (storage_write_cache d p v s) as H.
    destruct (storage_write d p v s) as [[?|?] s']; simpl in *;
      rewrite H; destruct (Cache.assign (cache s) p v) eqn:Ea; try done;
      by apply assign_own_dom in Ea.
  - pose proof (storage_exists_state d p s) as H.
    destruct (storage_exists d p s) as [[?|?] s']; simpl in *; by subst.
  - pose proof (storage_list_state d p s) as H.
    destruct (storage_list d p s) as [[?|?] s']; simpl in *; by subst.
  - pose proof (storage_remove_cache d p s) as H.
    assert (own (cache (storage_remove d p s).2) = own (cache s)) as Ho.
    { destruct H as [->|[q Hq]]; [done|].
      unfold Cache.delete in Hq. destruct (Cache.has_method _ _); [|done].
      injection Hq as <-. done. }
    destruct (storage_remove d p s) as [[?|?] s']; simpl in *; by rewrite Ho.
  - pose proof (storage_makedir_cache d p s) as H.
    destruct (storage_makedir d p s) as [[?|?] s']; simpl in *; by rewrite H.
  - unfold storage_cacheClear, bind, gets, lift, set_cache.
    destruct (Cache.clear lt ge (cache s)) as [c'|] eqn:Ec; simpl; [|done].
    apply clear_own in Ec. by rewrite Ec.
Qed.

Lemma cache_never_releases_aux (lt ge : Json → option bool) (d : Db)
    (ops : list Op) (s : State) :
  dom (own (cache s))
  ⊆ dom (own (cache (run_trace (run_op lt ge d) ops s).2)).
Proof.
  revert s. induction ops as [|o ops IH]; intros s; [done|].
  rewrite run_trace_cons. etrans; [apply (run_op_own_dom lt ge d o)|apply IH].
Qed.

Lemma write_own (d : Db) (p : string) (v : JsVal) (s : State) :
  p ≠ "size" → p ≠ "__proto__" →
  own (cache (storage_write d p v s).2) = <[p := v]> (own (cache s)).
Proof.
  intros H1 H2. rewrite storage_write_cache.
  assert (Cache.assign (cache s) p v
          = Ret {| entries := entries (cache s);
                   own := <[p := v]> (own (cache s));
                   proto := proto (cache s) |}) as ->; [|done].
  unfold Cache.assign. destruct (own (cache s) !! p); [done|].
  rewrite (bool_decide_eq_false_2 (p = "size")) by done.
  by rewrite (bool_decide_eq_false_2 (p = "__proto__")) by done.
Qed.

(** X9. The cache object never lets go of a property.  Over any sequence
    of storage calls and eviction checks the names it holds only grow, so
    the path of a [write] is still held after everything that follows,
    a [remove] of that path included. *)
Theorem cache_never_releases (lt ge : Json → option bool) (d : Db)
    (ops : list Op) (s : State) :
  dom (own (cache s))
  ⊆ dom (own (cache (run_trace (run_op lt ge d) ops s).2)) ∧
  ∀ p v, p ≠ "size" → p ≠ "__proto__" →
    p ∈ dom (own (cache (run_trace (run_op lt ge d)
                           (OpWrite p v :: ops) s).2)).
Proof.
  split; [apply cache_never_releases_aux|].
  intros p v H1 H2. rewrite run_trace_cons.
  apply (cache_never_releases_aux lt ge d ops). simpl. unfold observe.
  pose proof (write_own d p v s H1 H2) as H.
  destruct (storage_write d p v s) as [[?|?] s1]; simpl in *;
    rewrite H, dom_insert; set_solver.
Qed.

Lemma has_shadowed (c : JsMap) (p : string) :
  "has" ∈ dom (own c) → Cache.has c p = Throw TypeError.
Proof.
  intros [v Hv]%elem_of_dom. unfold Cache.has, Cache.has_method.
  by rewrite Hv.
Qed.

(** X10. One [write] to the logical path [has] disables the engine for
    good: whatever is called afterwards, every [read], [exists] and
    [list] throws a [TypeError]. *)
Theorem has_shadow_is_permanent (lt ge : Json → option bool) (d : Db)
    (v : JsVal) (ops : list Op) (p : string) (s : State) :
  let s' := (run_trace (run_op lt ge d) (OpWrite "has" v :: ops) s).2 in
  storage_read d p s' = (Throw TypeError, s') ∧
  storage_exists d p s' = (Throw TypeError, s') ∧
  storage_list d p s' = (Throw TypeError, s').
Proof.
  intros s'.
  assert ("has" ∈ dom (own (cache s'))) as Hin.
  { unfold s'. rewrite run_trace_cons.
    apply (cache_never_releases_aux lt ge d ops). simpl. unfold observe.
    pose proof (write_own d "has" v s) as H.
    destruct (storage_write d "has" v s) as [[?|?] s1]; simpl in *;
      rewrite H, dom_insert by done; set_solver. }
  assert (storage_exists d p s' = (Throw TypeError, s')) as Hex.
  { unfold storage_exists, bind, gets, lift. by rewrite has_shadowed. }
  split_and!; [|done|].
  - unfold storage_read, bind, gets, lift. by rewrite has_shadowed.
  - unfold storage_list, bind. by rewrite Hex.
Qed.
(** ** The eviction loop on a Map that has entries *)

Lemma evict_rounds (ge : Json → option bool) (fuel : nat)
    (es : list (string * JsVal)) (ow : gmap string JsVal) :
  ow !! "size" = None → ow !! "delete" = None →
  Z.of_nat (length es) < 10000 + 200 * Z.of_nat fuel →
  ∃ r, Cache.evict ge fuel {| entries := es; own := ow; proto := None |}
       = Ret {| entries := drop (r * 200) es; own := ow; proto := None |} ∧
       (Z.of_nat (length es) < 10000 → r = O) ∧
       (10000 ≤ Z.of_nat (length es) →
        9800 ≤ Z.of_nat (length (drop (r * 200) es)) < 10000).
Proof.
  revert es. induction fuel as [|fuel IH]; intros es Hs Hd Hlen.
  - exists O. simpl. unfold Cache.size. simpl. rewrite Hs. simpl.
    rewrite (proj2 (Z.leb_gt _ _)) by lia.
    split_and!; [done|done|lia].
  - simpl. unfold Cache.size. simpl. rewrite Hs. simpl.
    destruct (10000 <=? Z.of_nat (length es)) eqn:Em.
    + apply Z.leb_le in Em.
      unfold Cache.has_method. simpl. rewrite Hd.
      destruct (IH (drop 200 es)) as (r & Hev & Hr0 & Hr1); [done..| |].
      { rewrite length_drop. lia. }
      assert (drop (S r * 200) es = drop (r * 200) (drop 200 es)) as Hdd
        by (rewrite drop_drop; f_equal; lia).
      exists (S r). rewrite Hev, Hdd.
      split_and!; [done|lia|]. intros _.
      rewrite length_drop in Hr0, Hr1.
      destruct (decide (Z.of_nat (length es - 200) < 10000)) as [Hlt|Hge].
      * rewrite (Hr0 Hlt). change (0 * 200)%nat with O. rewrite drop_0, length_drop. lia.
      * apply Hr1. lia.
    + apply Z.leb_gt in Em. exists O. split_and!; [done|done|lia].
Qed.

(** X11. On a Map object that is intact and has entries, one eviction
    check returns (the loop ends): it changes nothing below 10000
    entries, and from 10000 on it drops the oldest entries 200 at a time
    and leaves between 9800 and 9999 of them, the newest. *)
Theorem eviction_bounds (lt ge : Json → option bool) (c : JsMap) :
  proto c = None → own c !! "size" = None → own c !! "delete" = None →
  own c !! "keys" = None →
  ∃ r c', Cache.clear lt ge c = Ret c' ∧
          own c' = own c ∧ proto c' = proto c ∧
          entries c' = drop (r * 200) (entries c) ∧
          (Z.of_nat (length (entries c)) < 10000 → r = O) ∧
          (10000 ≤ Z.of_nat (length (entries c)) →
           9800 ≤ Z.of_nat (length (entries c')) < 10000).
Proof.
  destruct c as [es ow pr]. simpl. intros -> Hs Hd Hk.
  unfold Cache.clear, Cache.size. simpl. rewrite Hs. simpl.
  destruct (Z.of_nat (length es) <? 10000) eqn:Em.
  - apply Z.ltb_lt in Em. exists O. eexists. split; [done|]. simpl.
    split_and!; try done. lia.
  - apply Z.ltb_ge in Em. unfold Cache.keys_callable. simpl. rewrite Hk.
    destruct (evict_rounds ge (S (length es)) es ow Hs Hd)
      as (r & Hev & Hr0 & Hr1); [lia|].
    exists r. eexists. split; [apply Hev|]. simpl. split_and!; try done.
Qed.
(** ** A [PlexServer] opened on a relative folder *)

Lemma resolve_is_absolute (wd p : string) :
  Path.is_absolute wd = true → Path.is_absolute (Path.resolve wd p) = true.
Proof.
  intros Hwd. unfold Path.resolve. rewrite Hwd, orb_true_r. done.
Qed.

Lemma starts_with_relative (pre s : string) :
  pre ≠ "" → Path.is_absolute pre = false → Path.is_absolute s = true →
  Path.starts_with pre s = false.
Proof.
  destruct pre as [|a pre]; [done|]. intros _ Ha Hs.
  destruct s as [|b s]; [done|]. simpl in *.
  unfold Path.is_slash in *.
  apply bool_decide_eq_false in Ha. apply bool_decide_eq_true in Hs. subst b.
  by rewrite bool_decide_eq_false_2.
Qed.

(** X12. [PlexServer] keeps the folder as it is given.  Given a relative
    one, [prefix] compares the resolved, absolute path with it and
    rejects every logical path: no storage call gets through. *)
Theorem relative_root_rejects_all (wd folder p : string) (v : JsVal)
    (s : State) :
  Path.is_absolute wd = true → folder ≠ "" →
  Path.is_absolute folder = false → cache_usable (cache s) →
  let d := open_PlexServer wd folder in
  storage_prefix d p s = (Throw PathEscapeError, s) ∧
  storage_read d p s = (Throw PathEscapeError, s) ∧
  storage_exists d p s = (Throw PathEscapeError, s) ∧
  storage_list d p s = (Throw PathEscapeError, s) ∧
  storage_remove d p s = (Throw PathEscapeError, s) ∧
  storage_makedir d p s = (Throw PathEscapeError, s) ∧
  (p ∉ member_names →
   (storage_write d p v s).1 = Throw PathEscapeError ∧
   fs (storage_write d p v s).2 = fs s).
Proof.
  intros Hwd Hne Hrel Hc d.
  assert (prefix_outcome d p = Throw PathEscapeError) as Hout.
  { unfold prefix_outcome. simpl.
    rewrite starts_with_relative; [done..|]. by apply resolve_is_absolute. }
  destruct (rejected_calls d p s Hc Hout) as (H1 & H2 & H3 & H4 & H5).
  split_and!; try done.
  - by rewrite storage_prefix_pure, Hout.
  - intros Hp.
    by destruct (rejected_write d p v s Hc Hp Hout) as (H6 & H7 & _).
Qed.
(** * More of the collection layer *)

(** ** Queries *)

Lemma collect_same_store (c : Collection) (q : Query) (cands acc : list JsVal)
    (s : State) :
  (Collection.collect c q cands acc s).2 = s.
Proof.
  revert acc. induction cands as [|cand cands IH]; intros acc; [done|].
  simpl. unfold bind, lift.
  destruct (Collection.data_path c cand) as [p|]; [|done].
  pose proof (storage_read_state (c_db c) p s) as Hr.
  destruct (storage_read (c_db c) p s) as [[obj|] s0]; simpl in Hr; subst;
    [|done].
  destruct (Collection.every_match q (obj_keys q) obj) as [ok|]; [|done].
  apply IH.
Qed.

Lemma findAll_same_store (c : Collection) (q : Query) (s : State) :
  same_store s (Collection.findAll c q s).2.
Proof.
  unfold Collection.findAll, bind.
  pose proof (gather_state c q (obj_keys q) [] s) as Hg.
  destruct (Collection.gather c q (obj_keys q) [] s) as [[cands|] s0];
    simpl in Hg; subst; [|apply same_store_refl].
  pose proof (collect_same_store c q cands [] s) as Hc.
  destruct (Collection.collect c q cands [] s) as [[results|] s0];
    simpl in Hc; subst; [|apply same_store_refl].
  destruct (emit_same_store (c_db c) (EvQuery q results) s) as [Hs He].
  destruct (emit (c_db c) (EvQuery q results) s) as [[[]|] s0]; by simpl in *.
Qed.

(** X13. [findAll], [findOne] and [get] only read: whatever they return
    or throw, the files, the cache object and the callers' objects are
    as before. *)
Theorem queries_only_read (c : Collection) (q : Query) (i : string)
    (s : State) :
  same_store s (Collection.findAll c q s).2 ∧
  same_store s (Collection.findOne c q s).2 ∧
  (Collection.get c i s).2 = s.
Proof.
  split_and!.
  - apply findAll_same_store.
  - apply findOne_same_store.
  - apply storage_read_state.
Qed.

Lemma gather_nothing (c : Collection) (q : Query) (keys : list string)
    (cands : list JsVal) (s : State) :
  (∀ key, key ∈ keys → key = "id" ∨ is_indexed c key = false) →
  Collection.gather c q keys cands s = (Ret cands, s).
Proof.
  induction keys as [|key keys IH]; intros Hk; [done|].
  simpl. unfold bind.
  assert (Collection.probe c q cands key s = (Ret cands, s)) as ->.
  { destruct (Hk key) as [->|Hi]; [apply list_elem_of_here|done|].
    by apply probe_not_indexed. }
  apply IH. intros k Hin. apply Hk. by apply list_elem_of_further.
Qed.

Lemma query_needs_an_index_aux (c : Collection) (q : Query) (s : State) :
  (∀ key, key ∈ obj_keys q → key = "id" ∨ is_indexed c key = false) →
  Collection.findOne c q s = (Ret None, s).
Proof.
  intros Hk. unfold Collection.findOne, bind.
  by rewrite (gather_nothing c q (obj_keys q) [] s Hk).
Qed.

(** X14. A query finds nothing unless it names an indexed field other
    than [id]: the empty query, a query by [id] alone, by fields that are
    not indexed or that the schema does not know all return no document,
    whatever is stored, and without an error. *)
Theorem query_needs_an_index (c : Collection) (q : Query) (s : State) :
  (∀ key, key ∈ obj_keys q → key = "id" ∨ is_indexed c key = false) →
  (Collection.findAll c q s).1 = Ret [] ∧
  Collection.findOne c q s = (Ret None, s).
Proof.
  intros Hk. unfold Collection.findAll, Collection.findOne, bind.
  rewrite (gather_nothing c q (obj_keys q) [] s Hk). simpl.
  split; [|done]. unfold ret.
  destruct (emit_same_store (c_db c) (EvQuery q []) s) as [_ He].
  by destruct (emit (c_db c) (EvQuery q []) s) as [[[]|] s0].
Qed.
(** ** Where [create] stops *)

Lemma create_stops_at (c : Collection) (ref : nat)
    (before after : list string) (key : string) (e : Error)
    (s s1 s2 : State) :
  obj_keys (c_schema c) = before ++ key :: after →
  Collection.create_fields c ref before s = (Ret tt, s1) →
  Collection.create_field c ref key s1 = (Throw e, s2) →
  Collection.create c ref s = (Throw e, s2).
Proof.
  intros Hkeys Hbefore Hround. unfold Collection.create. rewrite Hkeys.
  apply bind_throw. rewrite create_fields_app.
  rewrite (bind_run _ _ _ _ _ Hbefore). simpl Collection.create_fields.
  by apply bind_throw.
Qed.

(** X15. [create] throws the missing-field error when it reaches a
    required field that has no default and whose value in the argument is
    absent or falsy ([0], [false], the empty string and [null] count as
    not supplied); the argument keeps what the earlier fields put in it. *)
Theorem create_missing_required (c : Collection) (ref : nat)
    (before after : list string) (key : string) (fd : FieldDesc)
    (d1 : Doc) (s s1 : State) :
  obj_keys (c_schema c) = before ++ key :: after →
  obj_get (c_schema c) key = Some fd → key ≠ "id" →
  Collection.create_fields c ref before s = (Ret tt, s1) →
  heap s1 !! ref = Some d1 →
  fd_required fd = true → truthy (obj_get d1 key) = false →
  Collection.no_default (fd_default fd) = true →
  Collection.create c ref s = (Throw MissingRequiredFieldError, s1).
Proof.
  intros Hkeys Hfd Hkey Hbefore Hd1 Hreq Hfalsy Hno.
  apply (create_stops_at c ref before after key _ s s1 s1 Hkeys Hbefore).
  unfold Collection.create_field. rewrite Hfd.
  rewrite bool_decide_eq_false_2 by done.
  rewrite (bind_run _ _ _ _ _ (deref_run ref d1 s1 Hd1)).
  rewrite Hreq, Hfalsy, Hno. done.
Qed.

(** X16. A field that is unique and indexed has to be there: when the
    argument of [create] lacks it and the field is not required, the
    lookup for a collision calls [pathsafe] on [undefined], and [create]
    throws a [TypeError]. *)
Theorem create_absent_unique (c : Collection) (ref : nat)
    (before after : list string) (key : string) (fd : FieldDesc)
    (d1 : Doc) (s s1 : State) :
  obj_keys (c_schema c) = before ++ key :: after →
  obj_get (c_schema c) key = Some fd → key ≠ "id" →
  Collection.create_fields c ref before s = (Ret tt, s1) →
  heap s1 !! ref = Some d1 →
  fd_required fd = false → obj_get d1 key = None →
  fd_unique fd = true → fd_index fd = true →
  Collection.create c ref s = (Throw TypeError, s1).
Proof.
  intros Hkeys Hfd Hkey Hbefore Hd1 Hreq Habs Hu Hidx.
  apply (create_stops_at c ref before after key _ s s1 s1 Hkeys Hbefore).
  unfold Collection.create_field. rewrite Hfd.
  rewrite bool_decide_eq_false_2 by done.
  rewrite (bind_run _ _ _ _ _ (deref_run ref d1 s1 Hd1)).
  rewrite Hreq. simpl andb. cbv iota.
  unfold bind at 1. unfold ret at 1. rewrite Hu.
  rewrite (bind_run _ _ _ _ _ (deref_run ref d1 s1 Hd1)).
  rewrite Habs. apply bind_throw.
  unfold Collection.findOne. apply bind_throw.
  simpl Collection.gather. apply bind_throw.
  unfold Collection.probe. rewrite bool_decide_eq_false_2 by done.
  rewrite Hfd, Hidx. apply bind_throw.
  unfold Collection.index_path, Collection.query_get. simpl obj_get.
  rewrite bool_decide_eq_true_2 by done. done.
Qed.

Section UniqueNeedsIndex.

Context (c : Collection).
Context (Hno : ∀ key fd, obj_get (c_schema c) key = Some fd → key ≠ "id" →
                 fd_unique fd = true → fd_index fd = false).

Lemma set_field_outcome (ref : nat) (key : string) (v : Json) (s : State) :
  (Collection.set_field ref key v s).1 ≠ Throw UniqueConstraintViolation.
Proof. rewrite set_field_run. by destruct (heap s !! ref). Qed.

Lemma create_field_no_violation (ref : nat) (key : string) (s : State) :
  (Collection.create_field c ref key s).1 ≠ Throw UniqueConstraintViolation.
Proof.
  unfold Collection.create_field.
  destruct (obj_get (c_schema c) key) as [fd|] eqn:Hfd; [|done].
  case_bool_decide as Hkey.
  - destruct (fd_default fd) as [|j|g]; try done.
    unfold bind, fresh. apply set_field_outcome.
  - unfold bind at 1. unfold Collection.deref at 1.
    destruct (heap s !! ref) as [d|] eqn:Hd; [|done].
    unfold bind at 1.
    assert (∀ s1 : State,
              ((if fd_unique fd
                then d' <- Collection.deref ref ;;
                     found <- Collection.findOne c [(key, obj_get d' key)] ;;
                     if truthy found then throw UniqueConstraintViolation
                     else ret tt
                else ret tt) s1).1 ≠ Throw UniqueConstraintViolation)
      as Hcheck.
    { intros s1. destruct (fd_unique fd) eqn:Hu; [|done].
      unfold bind at 1. unfold Collection.deref at 1.
      destruct (heap s1 !! ref) as [d'|]; [|done].
      assert (Collection.findOne c [(key, obj_get d' key)] s1 = (Ret None, s1))
        as Hfind.
      { apply query_needs_an_index_aux. intros k Hk.
        apply list_elem_of_singleton in Hk as ->. right.
        unfold is_indexed. simpl. rewrite Hfd. by apply (Hno key). }
      by rewrite (bind_run _ _ _ _ _ Hfind). }
    destruct (fd_required fd && negb (truthy (obj_get d key))).
    + destruct (Collection.no_default (fd_default fd)); [done|].
      destruct (fd_default fd) as [|j|g].
      * apply Hcheck.
      * pose proof (set_field_outcome ref key j s) as Hs.
        destruct (Collection.set_field ref key j s) as [[[]|e] s1];
          [apply Hcheck|done].
      * unfold bind at 1. unfold fresh at 1.
        match goal with
        | |- context [Collection.set_field ref key ?v ?s0] =>
            pose proof (set_field_outcome ref key v s0) as Hs;
            destruct (Collection.set_field ref key v s0) as [[[]|e] s1]
        end; [apply Hcheck|done].
    + apply Hcheck.
Qed.

Lemma create_fields_no_violation (ref : nat) (keys : list string)
    (s : State) :
  (Collection.create_fields c ref keys s).1 ≠ Throw UniqueConstraintViolation.
Proof.
  revert s. induction keys as [|key keys IH]; intros s; [done|].
  simpl. unfold bind at 1.
  pose proof (create_field_no_violation ref key s) as Hf.
  destruct (Collection.create_field c ref key s) as [[[]|e] s1]; [apply IH|done].
Qed.

(** X17. [unique] does nothing without [index]: when no field other than
    [id] is both unique and indexed, [create] never throws the
    unique-constraint error, whatever is stored. *)
Theorem unique_needs_index (ref : nat) (s : State) :
  match (Collection.create c ref s).1 with
  | Throw UniqueConstraintViolation => False
  | _ => True
  end.
Proof.
  unfold Collection.create, bind.
  pose proof (create_fields_no_violation ref (obj_keys (c_schema c)) s) as Hf.
  destruct (Collection.create_fields c ref (obj_keys (c_schema c)) s)
    as [[[]|e] s1]; simpl in *.
  - destruct (emit_same_store (c_db c) (EvCreate ref) s1) as [_ He].
    by destruct (emit (c_db c) (EvCreate ref) s1) as [[[]|] s2].
  - by destruct e.
Qed.

End UniqueNeedsIndex.
(** ** What [delete] takes away, and what else goes with it *)

Section DeleteMore.

Context (c : Collection) (rs : list string).
Context (Hroot : canonical_root (c_db c) rs) (Hok : collection_ok c).

Lemma unindex_frame (d : Doc) (key : string) (s s' : State) (k : list string) :
  cache_usable (cache s) →
  Collection.unindex c d key s = (Ret tt, s') →
  (∀ v, obj_get d key = Some v → ¬ index_key rs c key v `prefix_of` k) →
  fs s' !! k = fs s !! k.
Proof.
  intros Hc Hrun Hk. unfold Collection.unindex in Hrun.
  case_bool_decide as Hkey; [by injection Hrun as <-|].
  destruct (obj_get (c_schema c) key) as [fd|] eqn:Hfd; [|done].
  destruct (fd_index fd) eqn:Hidx; [|by injection Hrun as <-].
  pose proof (schema_key_plain c Hok _ _ Hfd) as Hplain.
  destruct (obj_get d key) as [w|] eqn:Hw; [|done].
  unfold bind at 1, lift at 1 in Hrun.
  rewrite (index_path_plain c Hok) in Hrun by done.
  destruct (storage_remove_plain (c_db c) rs Hroot
              (["index"; c_name c; key] ++ [hex_encode (json_stringify w)]) s)
    as (s1 & Hrm & (Hgone & Hframe & Hnone) & Hc1 & Hh1 & Hs1 & _);
    [simpl app; by plain_list3 c Hok|done|done|].
  rewrite (bind_run _ _ _ _ _ Hrm) in Hrun.
  destruct (emit_state (c_db c) (EvDelete (obj_get d "id")) s1)
    as (s2 & He & Hf2 & _).
  rewrite He in Hrun. injection Hrun as <-. rewrite Hf2.
  apply Hframe. by apply Hk.
Qed.

Lemma unindex_all_frame (d : Doc) (keys : list string) (s s' : State)
    (k : list string) :
  cache_usable (cache s) →
  (∀ key, key ∈ keys → key = "id" ∨ is_Some (obj_get (c_schema c) key)) →
  (∀ key, key ∈ keys → is_Some (obj_get d key)) →
  promise_all (Collection.unindex c d <$> keys) s = (Ret tt, s') →
  (∀ key v, key ∈ keys → obj_get d key = Some v →
            ¬ index_key rs c key v `prefix_of` k) →
  fs s' !! k = fs s !! k.
Proof.
  revert s. induction keys as [|key keys IH]; intros s Hc Hknown Hd Hrun Hk.
  { by injection Hrun as <-. }
  destruct (unindex_run c rs Hroot Hok d key s Hc)
    as (s1 & H1 & Hc1 & _).
  { apply Hknown, list_elem_of_here. }
  { apply Hd, list_elem_of_here. }
  rewrite fmap_cons, (promise_all_cons_ret _ _ _ _ H1) in Hrun.
  rewrite (IH s1); try done.
  - apply (unindex_frame d key s s1 k Hc H1).
    intros v. apply Hk, list_elem_of_here.
  - by rewrite Hc1.
  - intros ??. by apply Hknown, list_elem_of_further.
  - intros ??. by apply Hd, list_elem_of_further.
  - intros key' v Hin. apply Hk. by apply list_elem_of_further.
Qed.

(** [delete] of a document the schema describes: the call returns, the
    document's file and index entries are gone, and nothing is touched
    but they. *)
Lemma delete_whole (d : Doc) (i : string) (s : State) :
  has_id d i → cache_usable (cache s) →
  (∀ key, key ∈ obj_keys d → key = "id" ∨ is_Some (obj_get (c_schema c) key)) →
  ∃ s', Collection.delete c d s = (Ret tt, s') ∧
        cache s' = cache s ∧
        fs s' !! data_key rs c i = None ∧
        (∀ f fd v, f ≠ "id" → obj_get (c_schema c) f = Some fd →
                   fd_index fd = true → obj_get d f = Some v →
                   fs s' !! index_key rs c f v = None) ∧
        (∀ k, ¬ data_key rs c i `prefix_of` k →
              (∀ key v, obj_get d key = Some v →
                        ¬ index_key rs c key v `prefix_of` k) →
              fs s' !! k = fs s !! k).
Proof.
  intros [Hid Hi] Hc Hknown.
  destruct (delete_run c rs Hroot Hok d i s (conj Hid Hi) Hc Hknown)
    as (s' & Hdel & Hc' & _ & _ & Hgone).
  exists s'. split_and!; try done.
  - unfold Collection.delete in Hdel. unfold bind, lift in Hdel.
    rewrite Hid in Hdel. rewrite (data_path_plain c Hok) in Hdel by done.
    destruct (storage_remove_plain (c_db c) rs Hroot
                (["data"; c_name c] ++ [i]) s)
      as (s1 & Hrm & (Hg1 & _) & Hc1 & _);
      [simpl app; by plain_list3 c Hok|done|done|].
    rewrite (promise_all_cons_ret _ _ _ _ Hrm) in Hdel.
    destruct (unindex_all c rs Hroot Hok d (obj_keys d) s1)
      as (s2 & Hrest & _ & _ & _ & Hnone & _).
    { by rewrite Hc1. }
    { done. }
    { intros key Hkey. by apply obj_get_is_Some. }
    rewrite Hrest in Hdel. injection Hdel as <-. by apply Hnone.
  - intros k Hkd Hki.
    unfold Collection.delete in Hdel. unfold bind, lift in Hdel.
    rewrite Hid in Hdel. rewrite (data_path_plain c Hok) in Hdel by done.
    destruct (storage_remove_plain (c_db c) rs Hroot
                (["data"; c_name c] ++ [i]) s)
      as (s1 & Hrm & (_ & Hf1 & _) & Hc1 & _);
      [simpl app; by plain_list3 c Hok|done|done|].
    rewrite (promise_all_cons_ret _ _ _ _ Hrm) in Hdel.
    rewrite (unindex_all_frame d (obj_keys d) s1 s' k); try done.
    + by apply Hf1.
    + by rewrite Hc1.
    + intros key Hkey. by apply obj_get_is_Some.
    + intros key v _. apply Hki.
Qed.

Lemma get_run (i : string) (s : State) :
  Path.plain i → cache_usable (cache s) →
  Collection.get c i s = (read_node (fs s !! data_key rs c i), s).
Proof.
  intros Hi Hc. unfold Collection.get.
  rewrite posix_join_plain; [|by plain_list3 c Hok|done].
  change ["data"; c_name c; i] with (["data"; c_name c] ++ [i]).
  by rewrite (read_data c rs Hroot Hok).
Qed.


(** X20. [delete] removes the whole index entry of each indexed field of
    the document.  For a field that is not unique the entry is shared:
    after one of the documents listed under a value is deleted, [findAll]
    by that value returns none of the others, though each of them is
    still stored and returned by [get]. *)
Theorem delete_forgets_the_others (f : string) (fd : FieldDesc) (v : Json)
    (idocs : list (string * Doc)) (i : string) (d : Doc) (s : State) :
  f ≠ "id" → obj_get (c_schema c) f = Some fd →
  fd_index fd = true → fd_unique fd = false →
  cache_usable (cache s) →
  index_holds rs c f v idocs (fs s) → (i, d) ∈ idocs →
  (∀ key, key ∈ obj_keys d → key = "id" ∨ is_Some (obj_get (c_schema c) key)) →
  ∃ s', Collection.delete c d s = (Ret tt, s') ∧
        (Collection.findAll c [(f, Some v)] s').1 = Ret [] ∧
        ∀ i' d', (i', d') ∈ idocs → i' ≠ i →
                 Collection.get c i' s' = (Ret (Some (JObj d')), s').
Proof.
  intros Hf Hfd Hidx Hu Hc (_ & _ & Hall) Hin Hknown.
  rewrite Forall_forall in Hall.
  destruct (Hall _ Hin) as (Hid & Hv & Hdat). simpl in Hid, Hv, Hdat.
  destruct (delete_whole d i s Hid Hc Hknown)
    as (s' & Hdel & Hc' & _ & Hgone & Hframe).
  assert (cache_usable (cache s')) as Hcu by (by rewrite Hc').
  exists s'. split_and!; [done| |].
  - unfold Collection.findAll. simpl obj_keys. unfold bind.
    rewrite (gather_single c f v).
    rewrite (probe_single c rs Hroot Hok f fd v Hf Hfd Hidx) by done.
    rewrite (Hgone f fd v Hf Hfd Hidx Hv). simpl.
    destruct (emit_same_store (c_db c) (EvQuery [(f, Some v)] []) s')
      as [_ He].
    by destruct (emit (c_db c) (EvQuery [(f, Some v)] []) s') as [[[]|] s0].
  - intros i' d' Hin' Hne.
    destruct (Hall _ Hin') as ((_ & Hplain') & _ & Hdata'). simpl in *.
    rewrite get_run by done.
    rewrite Hframe; [by rewrite Hdata'| |].
    + intros Hp. apply (data_key_prefix c rs) in Hp. congruence.
    + intros key w _. apply index_key_not_under_data.
Qed.

End DeleteMore.
(** ** Fields the schema does not know *)


(** ** Writing a document again *)

Section WriteAgain.

Context (c : Collection) (rs : list string).
Context (Hroot : canonical_root (c_db c) rs) (Hok : collection_ok c).




End WriteAgain.
(** * Setting up, opening and closing *)

Lemma plain_plexmeta : Path.plain ".plexmeta".
Proof. by split_and!. Qed.

Lemma posix_join_child (ps : list string) (x : string) :
  Forall Path.plain ps → Path.plain x →
  Path.posix_join [Path.abs_path ps; x] = Path.abs_path (ps ++ [x]).
Proof.
  intros Hps Hx. change x with (Path.join [x]) at 1.
  apply posix_join_root; [done| |done]. by constructor.
Qed.

Lemma lookup_snoc (f : FS) (k : list string) (x : string) :
  Fs.lookup f (k ++ [x]) = f !! (k ++ [x]).
Proof. apply fs_lookup_cons. by destruct k. Qed.

Section CreateNew.

Context (wd : string) (ls : list string) (x : string) (f : FS).
Context (Hls : Forall Path.plain ls) (Hx : Path.plain x).

Local Abbreviation P := (ls ++ [x]).
Local Abbreviation path := (Path.abs_path (ls ++ [x])).

Lemma plain_P : Forall Path.plain P.
Proof. apply Forall_app. split; [done|by constructor]. Qed.

Lemma createNew_parent :
  FsMore.is_directory f (Path.resolve wd (Path.dirname path))
  = match Fs.lookup f ls with
    | Some Dir => Ret true
    | Some (File _) => Ret false
    | None => Throw (IOError "ENOENT")
    end.
Proof.
  rewrite dirname_abs_path by done.
  rewrite resolve_abs_path_any by done.
  unfold FsMore.is_directory. by rewrite key_abs_path.
Qed.

(** X24. [createNew] on a path that is free, under a directory that is
    there, makes the folder with [.plexmeta], [index] and [data] in it and
    changes nothing else; [new PlexDB] and [new PlexServer] of that path
    then succeed and hold the metadata that was written. *)
Theorem createNew_then_open :
  Fs.lookup f ls = Some Dir →
  (∀ k, P `prefix_of` k → f !! k = None) →
  let f' := <[P ++ ["data"] := Dir]>
              (<[P ++ ["index"] := Dir]>
                 (<[P ++ [".plexmeta"] := File (JsonText plexmeta0)]>
                    (<[P := Dir]> f))) in
  createNew wd path f = (Created, f') ∧
  new_PlexDB wd path f' = Ret (open_PlexDB wd path, plexmeta0) ∧
  root (open_PlexDB wd path) = path ∧
  new_PlexServer wd path f' = Ret (open_PlexServer wd path, plexmeta0).
Proof.
  intros Hpar Hfree f'. pose proof plain_P as HP.
  assert (∀ y, Path.plain y → Forall Path.plain (P ++ [y])) as HPy.
  { intros y Hy. apply Forall_app. split; [done|by constructor]. }
  assert (∀ y, f !! (P ++ [y]) = None) as Hchild.
  { intros y. apply Hfree. by apply prefix_app_r. }
  assert (∀ y, P ++ [y] ≠ P) as Hne.
  { intros y H. apply (f_equal length) in H. rewrite length_app in H.
    simpl in H. lia. }
  assert (∀ y z, y ≠ z → P ++ [y] ≠ P ++ [z]) as Hyz.
  { intros y z Hn H. apply app_inv_head in H. congruence. }
  assert (Path.resolve wd path = path) as Hres
    by (by apply resolve_abs_path_any).
  assert (∀ y, P ≠ P ++ [y]) as Hne' by (intros y; apply not_eq_sym, Hne).
  assert (".plexmeta" ≠ "index" ∧ ".plexmeta" ≠ "data" ∧ "index" ≠ "data")
    as (Hmi & Hmd & Hid) by done.
  split_and!.
  - unfold createNew. rewrite createNew_parent, Hpar.
    rewrite Hres. unfold Fs.exists_sync. rewrite key_abs_path by done.
    rewrite (lookup_snoc _ ls x). rewrite (Hfree P) by done.
    unfold FsMore.mkdir. rewrite key_abs_path by done.
    rewrite (lookup_snoc _ ls x). rewrite (Hfree P) by done.
    rewrite (parent_snoc ls x), Hpar.
    unfold setup_files. cbv zeta.
    rewrite !posix_join_child
      by (done || apply plain_plexmeta || apply plain_index || apply plain_data).
    rewrite !resolve_abs_path_any
      by (apply HPy; (apply plain_plexmeta || apply plain_index || apply plain_data)).
    unfold Fs.write_file, FsMore.mkdir.
    rewrite !key_abs_path
      by (apply HPy; (apply plain_plexmeta || apply plain_index || apply plain_data)).
    rewrite !(lookup_snoc _ P), !(parent_snoc P), !(lookup_snoc _ ls x).
    repeat first
      [ rewrite lookup_insert_eq
      | rewrite Hchild
      | rewrite lookup_insert_ne by (done || by apply Hyz) ].
    done.
  - unfold new_PlexDB, read_meta, open_PlexDB. simpl root. rewrite Hres.
    rewrite posix_join_child by (done || apply plain_plexmeta).
    rewrite resolve_abs_path_any by (apply HPy, plain_plexmeta).
    unfold Fs.read_file. rewrite key_abs_path by (apply HPy, plain_plexmeta).
    rewrite (lookup_snoc _ P). unfold f'.
    rewrite (lookup_insert_ne _ (P ++ ["data"])) by (by apply Hyz).
    rewrite (lookup_insert_ne _ (P ++ ["index"])) by (by apply Hyz).
    by rewrite lookup_insert_eq.
  - done.
  - unfold new_PlexServer, read_meta, open_PlexServer. simpl root.
    rewrite posix_join_child by (done || apply plain_plexmeta).
    rewrite resolve_abs_path_any by (apply HPy, plain_plexmeta).
    unfold Fs.read_file. rewrite key_abs_path by (apply HPy, plain_plexmeta).
    rewrite (lookup_snoc _ P). unfold f'.
    rewrite (lookup_insert_ne _ (P ++ ["data"])) by (by apply Hyz).
    rewrite (lookup_insert_ne _ (P ++ ["index"])) by (by apply Hyz).
    by rewrite lookup_insert_eq.
Qed.


(** X26. [createNew] cannot be run twice: on a folder that already has
    [index] and [data] in it, both [mkdir] calls reject with [EEXIST], but
    [.plexmeta] has by then been written over with the initial
    metadata. *)
Theorem createNew_twice (old : option FileText) :
  Fs.lookup f ls = Some Dir → f !! P = Some Dir →
  f !! (P ++ ["index"]) = Some Dir → f !! (P ++ ["data"]) = Some Dir →
  f !! (P ++ [".plexmeta"]) = File <$> old →
  createNew wd path f
  = (FailedOneOf [IOError "EEXIST"; IOError "EEXIST"],
     <[P ++ [".plexmeta"] := File (JsonText plexmeta0)]> f).
Proof.
  intros Hpar Hdir Hindex Hdata Hmeta. pose proof plain_P as HP.
  assert (∀ y, Path.plain y → Forall Path.plain (P ++ [y])) as HPy.
  { intros y Hy. apply Forall_app. split; [done|by constructor]. }
  assert (∀ y z, y ≠ z → P ++ [y] ≠ P ++ [z]) as Hyz.
  { intros y z Hn H. apply app_inv_head in H. congruence. }
  assert (Path.resolve wd path = path) as Hres
    by (by apply resolve_abs_path_any).
  unfold createNew. rewrite createNew_parent, Hpar.
  rewrite Hres. unfold Fs.exists_sync. rewrite key_abs_path by done.
  rewrite (lookup_snoc _ ls x), Hdir.
  unfold setup_files. cbv zeta.
  rewrite !posix_join_child
    by (done || apply plain_plexmeta || apply plain_index || apply plain_data).
  rewrite !resolve_abs_path_any
    by (apply HPy; (apply plain_plexmeta || apply plain_index || apply plain_data)).
  unfold Fs.write_file, FsMore.mkdir.
  rewrite !key_abs_path
    by (apply HPy; (apply plain_plexmeta || apply plain_index || apply plain_data)).
  rewrite !(lookup_snoc _ P), !(parent_snoc P), !(lookup_snoc _ ls x).
  rewrite Hmeta, Hdir.
  assert (match File <$> old with
          | Some Dir => Throw (IOError "EISDIR")
          | _ => Ret (<[P ++ [".plexmeta"] := File (JsonText plexmeta0)]> f)
          end
          = Ret (<[P ++ [".plexmeta"] := File (JsonText plexmeta0)]> f)) as ->
    by (by destruct old).
  rewrite lookup_insert_ne by (by apply Hyz). rewrite Hindex. cbv iota beta.
  rewrite lookup_insert_ne by (by apply Hyz). by rewrite Hdata.
Qed.

End CreateNew.
(** ** Saving the metadata *)


Section SaveMeta.

Context (d : Db) (rs : list string) (Hroot : canonical_root d rs).



End SaveMeta.
(** ** [tree] *)

Lemma below_Some (k k' : list string) (x : string) :
  FsMore.below k k' = Some x ↔
  ∃ more, more ≠ [] ∧ k' = k ++ more ∧ x = Path.join more.
Proof.
  unfold FsMore.below. split.
  - case_bool_decide as H; [|done]. destruct H as [Ht Hl]. intros [= <-].
    exists (drop (length k) k'). split_and!; [|by rewrite <- Ht at 1; rewrite take_drop|done].
    intros Hd. apply (f_equal length) in Hd. rewrite length_drop in Hd.
    simpl in Hd. lia.
  - intros (more & Hne & -> & ->).
    rewrite bool_decide_eq_true_2.
    + by rewrite drop_app_length.
    + split; [by rewrite take_app_length|].
      rewrite length_app. destruct more; [done|]. simpl. lia.
Qed.

Section Tree.

Context (d : Db) (rs : list string) (Hroot : canonical_root d rs).

(** X28. [tree] of a directory returns the paths, from that directory, of
    the nodes below it at any depth; [tree] of a file throws [ENOTDIR],
    and [tree] of a path that is not there returns [undefined]. *)
Theorem tree_names (ls : list string) (s : State) :
  Forall Path.plain ls → ls ≠ [] → cache_usable (cache s) →
  match fs s !! (rs ++ ls) with
  | Some Dir =>
      ∃ names, storage_tree d (Path.join ls) s = (Ret (Some names), s) ∧
               ∀ x, x ∈ names ↔
                    ∃ more, more ≠ [] ∧ x = Path.join more ∧
                            is_Some (fs s !! (rs ++ ls ++ more))
  | Some (File _) =>
      storage_tree d (Path.join ls) s = (Throw (IOError "ENOTDIR"), s)
  | None => storage_tree d (Path.join ls) s = (Ret None, s)
  end.
Proof.
  intros Hl Hne Hc.
  assert (Forall Path.plain (rs ++ ls)) as Hall
    by (apply Forall_app; by destruct Hroot).
  assert (rs ++ ls ≠ []) as Hne' by (by destruct rs, ls).
  unfold storage_tree, bind.
  rewrite (storage_exists_plain d rs Hroot) by done.
  destruct (fs s !! (rs ++ ls)) as [[t|]|] eqn:E; simpl; [| |done].
  - rewrite (storage_prefix_plain d rs ls) by done.
    unfold gets, lift, FsMore.readdir_recursive. simpl.
    rewrite key_abs_path by done. rewrite fs_lookup_cons by done.
    by rewrite E.
  - rewrite (storage_prefix_plain d rs ls) by done.
    unfold gets, lift, FsMore.readdir_recursive, ret. simpl.
    rewrite key_abs_path by done. rewrite fs_lookup_cons by done.
    rewrite E. eexists. split; [done|].
    intros x. rewrite list_elem_of_omap. split.
    + intros ([k' n] & Hin & Hb). simpl in Hb.
      apply below_Some in Hb as (more & Hm & -> & ->).
      apply elem_of_map_to_list in Hin.
      exists more. split_and!; [done..|]. rewrite app_assoc. by exists n.
    + intros (more & Hm & -> & [n Hn]). rewrite app_assoc in Hn.
      exists ((rs ++ ls) ++ more, n). split.
      * by apply elem_of_map_to_list.
      * simpl. apply below_Some. by exists more.
Qed.

End Tree.
(** ** [new Collection] *)


Lemma obj_set_keys_elem {A} (o : list (string * A)) (key k : string) (v : A) :
  k ∈ (obj_set o key v).*1 → k = key ∨ k ∈ o.*1.
Proof.
  induction o as [|[k' w] o IH]; simpl.
  - intros ?%list_elem_of_singleton. by left.
  - case_bool_decide; simpl.
    + intros [->|?]%elem_of_cons; right;
        [apply list_elem_of_here|by apply list_elem_of_further].
    + intros [->|?]%elem_of_cons; [right; apply list_elem_of_here|].
      destruct IH as [?|?]; [done|by left|right; by apply list_elem_of_further].
Qed.

Lemma obj_set_keys_NoDup {A} (o : list (string * A)) (key : string) (v : A) :
  NoDup o.*1 → NoDup (obj_set o key v).*1.
Proof.
  induction o as [|[k w] o IH]; intros Hnd; simpl.
  - apply NoDup_singleton.
  - apply NoDup_cons in Hnd as [Hk Hnd]. case_bool_decide; simpl.
    + by apply NoDup_cons.
    + apply NoDup_cons. split; [|by apply IH].
      intros [->|?]%obj_set_keys_elem; done.
Qed.


Section NewCollection.

Context (uuid : nat → string) (d : Db) (rs : list string).
Context (Hroot : canonical_root d rs).




End NewCollection.
(** ** [pathsafe] *)

Lemma unescape_escape (c : ascii) (r : string) :
  unescape_head (escape_char c +:+ r) = Some (c, r).
Proof. destruct c as [[] [] [] [] [] [] [] []]; reflexivity. Qed.

Lemma escape_string_inj (a b : string) :
  escape_string a +:+ String (ascii_of_N 34) ""
  = escape_string b +:+ String (ascii_of_N 34) "" → a = b.
Proof.
  revert b. induction a as [|c a IH]; intros [|c' b]; simpl; try done.
  - rewrite append_assoc. intros H. apply (f_equal unescape_head) in H.
    by rewrite unescape_escape in H.
  - rewrite append_assoc. intros H. apply (f_equal unescape_head) in H.
    by rewrite unescape_escape in H.
  - rewrite !append_assoc. intros H. apply (f_equal unescape_head) in H.
    rewrite !unescape_escape in H. injection H as -> H. f_equal. by apply IH.
Qed.

Lemma hex_val_digit (n : N) : (n < 16)%N → hex_val (hex_digit n) = Some n.
Proof.
  intros Hn. destruct n as [|p]; [done|].
  do 4 (destruct p as [p|p|]; try done); lia.
Qed.

Lemma hex_byte_inj (c c' : ascii) : hex_byte c = hex_byte c' → c = c'.
Proof.
  unfold hex_byte. intros [= H1 H2].
  pose proof (N_ascii_bounded c) as Hc. pose proof (N_ascii_bounded c') as Hc'.
  apply (f_equal hex_val) in H1, H2.
  rewrite !hex_val_digit in H1, H2
    by (try apply N.mod_lt; try apply N.Div0.div_lt_upper_bound; lia).
  injection H1 as H1. injection H2 as H2.
  rewrite <- (ascii_N_embedding c), <- (ascii_N_embedding c'). f_equal.
  rewrite (N.div_mod (N_of_ascii c) 16), (N.div_mod (N_of_ascii c') 16) by lia.
  congruence.
Qed.

Lemma hex_encode_inj (a b : string) : hex_encode a = hex_encode b → a = b.
Proof.
  revert b. induction a as [|c a IH]; intros [|c' b]; try done.
  change (hex_encode (String c a)) with (hex_byte c +:+ hex_encode a).
  change (hex_encode (String c' b)) with (hex_byte c' +:+ hex_encode b).
  unfold hex_byte. rewrite !append_cons, !append_empty_l.
  intros [= H1 H2 H3]. f_equal; [|by apply IH].
  apply hex_byte_inj. unfold hex_byte. by rewrite H1, H2.
Qed.

(** X23. [pathsafe] turns every value into one path segment: a string of
    hexadecimal digits that is not empty, so that no value can name a
    path outside its index directory.  Distinct strings get distinct
    segments, and [undefined] makes it throw a [TypeError]. *)
Theorem pathsafe_segments :
  (∀ j, ∃ h, pathsafe (Some j) = Ret h ∧ all_hex h = true ∧ Path.plain h) ∧
  (∀ a b, pathsafe (Some (JStr a)) = pathsafe (Some (JStr b)) → a = b) ∧
  pathsafe None = Throw TypeError.
Proof.
  split_and!; [| |done].
  - intros j. eexists. split; [done|]. split; [apply all_hex_encode|].
    by apply (pathsafe_plain (Some j)).
  - intros a b [= H]. apply hex_encode_inj in H.
    change (json_stringify (JStr a)) with (quote a) in H.
    change (json_stringify (JStr b)) with (quote b) in H.
    unfold quote in H. by apply escape_string_inj.
Qed.
(** ** [queryAll] *)

Section QueryAll.

Context (c : Collection) (rs : list string).
Context (Hroot : canonical_root (c_db c) rs) (Hok : collection_ok c).
Context {R : Type} (task : JsVal → Outcome R).

Lemma list_data_run (s : State) :
  cache_usable (cache s) →
  fs s !! (rs ++ ["data"; c_name c]) = Some Dir →
  ∃ ids, storage_list (c_db c) (Path.posix_join ["data"; c_name c]) s
         = (Ret (Some ids), s) ∧
         NoDup ids ∧
         ∀ x, x ∈ ids ↔ is_Some (fs s !! data_key rs c x).
Proof.
  intros Hc Hdir.
  assert (Forall Path.plain ["data"; c_name c]) as Hl
    by (by plain_list3 c Hok).
  assert (Forall Path.plain (rs ++ ["data"; c_name c])) as Hall
    by (apply Forall_app; by destruct Hroot).
  assert (rs ++ ["data"; c_name c] ≠ []) as Hne by (by destruct rs).
  rewrite posix_join_plain by done.
  unfold storage_list, bind.
  rewrite (storage_exists_plain (c_db c) rs Hroot) by done.
  rewrite Hdir. simpl.
  rewrite (storage_prefix_plain (c_db c) rs ["data"; c_name c]) by done.
  unfold gets, lift, Fs.readdir, ret. simpl.
  rewrite key_abs_path by done. rewrite fs_lookup_cons by done.
  rewrite Hdir. eexists. split; [done|].
  pose proof (readdir_names (fs s) (rs ++ ["data"; c_name c])) as [Hnd Hin].
  split; [done|]. intros x. unfold data_key.
  change ["data"; c_name c; x] with (["data"; c_name c] ++ [x]).
  rewrite app_assoc. apply Hin.
Qed.

Lemma visit_each (s : State) (ids : list string) (s1 : State) :
  fs s1 = fs s → cache_usable (cache s1) →
  (∀ x, x ∈ ids →
     Path.plain x ∧
     ∃ j r, fs s !! data_key rs c x = Some (File (JsonText j)) ∧
            task (Some j) = Ret r) →
  ∃ results s',
    promise_all_values
      ((λ id,
          data <- storage_read (c_db c)
                    (Path.posix_join ["data"; c_name c; id]) ;;
          _ <- emit (c_db c) (EvQuery [] [data]) ;;
          lift (task data)) <$> ids) s1 = (Ret results, s') ∧
    fs s' = fs s ∧ cache s' = cache s1 ∧
    Forall2 (λ x r, ∃ j, fs s !! data_key rs c x = Some (File (JsonText j)) ∧
                         task (Some j) = Ret r) ids results.
Proof.
  match goal with
  | |- context [promise_all_values (?g <$> _)] => set (visit := g)
  end.
  revert s1. induction ids as [|x ids IH]; intros s1 Hfs Hc Hall.
  { exists [], s1. by split_and!. }
  destruct (Hall x) as (Hx & j & r & Hnode & Htask); [apply list_elem_of_here|].
  rewrite fmap_cons. simpl promise_all_values. unfold visit at 1.
  rewrite posix_join_plain; [|by plain_list3 c Hok|done].
  change ["data"; c_name c; x] with (["data"; c_name c] ++ [x]).
  unfold bind at 1. rewrite (read_data c rs Hroot Hok) by done.
  rewrite Hfs, Hnode. simpl read_node. cbv iota beta.
  destruct (emit_state (c_db c) (EvQuery [] [Some j]) s1)
    as (s2 & He & Hf2 & Hc2 & _).
  unfold bind at 1. rewrite He. unfold lift. rewrite Htask.
  destruct (IH s2) as (results & s' & Hrun & Hf' & Hc' & Hres).
  { by rewrite Hf2. }
  { by rewrite Hc2. }
  { intros y Hy. apply Hall. by apply list_elem_of_further. }
  rewrite Hrun. exists (r :: results), s'. split_and!; try done.
  - congruence.
  - constructor; [by exists j|done].
Qed.

(** X30. [queryAll] runs the task on every document of the collection:
    it lists [data/<name>], reads each entry and returns the values of the
    task in the order of the listing, leaving files and cache as they
    were.  When the directory is not there, it throws a [TypeError]. *)
Theorem queryAll_visits_all (s : State) :
  cache_usable (cache s) →
  fs s !! (rs ++ ["data"; c_name c]) = Some Dir →
  (∀ x n, fs s !! data_key rs c x = Some n →
          Path.plain x ∧
          ∃ j r, n = File (JsonText j) ∧ task (Some j) = Ret r) →
  (∃ ids results s',
     queryAll c task s = (Ret results, s') ∧
     fs s' = fs s ∧ cache s' = cache s ∧
     NoDup ids ∧ (∀ x, x ∈ ids ↔ is_Some (fs s !! data_key rs c x)) ∧
     Forall2 (λ x r, ∃ j, fs s !! data_key rs c x
                          = Some (File (JsonText j)) ∧
                          task (Some j) = Ret r) ids results) ∧
  (∀ s0, cache_usable (cache s0) →
         fs s0 !! (rs ++ ["data"; c_name c]) = None →
         queryAll c task s0 = (Throw TypeError, s0)).
Proof.
  intros Hc Hdir Hall. split.
  - destruct (list_data_run s Hc Hdir) as (ids & Hlist & Hnd & Hin).
    destruct (visit_each s ids s) as (results & s' & Hrun & Hf & Hc' & Hres);
      [done|done| |].
    { intros x Hx. apply Hin in Hx as [n Hn].
      destruct (Hall x n Hn) as (Hp & j & r & -> & Ht).
      split; [done|]. by exists j, r. }
    exists ids, results, s'. unfold queryAll.
    rewrite (bind_run _ _ _ _ _ Hlist). by split_and!.
  - intros s0 Hc0 Hnone. unfold queryAll.
    assert (Forall Path.plain ["data"; c_name c]) as Hl
      by (by plain_list3 c Hok).
    rewrite posix_join_plain by done.
    unfold bind, storage_list, bind.
    rewrite (storage_exists_plain (c_db c) rs Hroot) by done.
    by rewrite Hnone.
Qed.

End QueryAll.
(** * The further properties at the example data *)

Ltac plain_now := unfold Path.plain; decided.
Ltac nothing_there := intros; simpl; rewrite lookup_empty; done.

(** X1 at the path [../x] of the database at [/db]. *)
Lemma rejected_path_everywhere_witness :
  storage_read demo_db "../x" (initial_state ∅)
  = (Throw PathEscapeError, initial_state ∅) ∧
  storage_exists demo_db "../x" (initial_state ∅)
  = (Throw PathEscapeError, initial_state ∅) ∧
  storage_list demo_db "../x" (initial_state ∅)
  = (Throw PathEscapeError, initial_state ∅) ∧
  storage_remove demo_db "../x" (initial_state ∅)
  = (Throw PathEscapeError, initial_state ∅) ∧
  storage_makedir demo_db "../x" (initial_state ∅)
  = (Throw PathEscapeError, initial_state ∅) ∧
  (storage_write demo_db "../x" (Some (JNum 1)) (initial_state ∅)).1
  = Throw PathEscapeError ∧
  fs (storage_write demo_db "../x" (Some (JNum 1)) (initial_state ∅)).2
  = fs (initial_state ∅) ∧
  own (cache (storage_write demo_db "../x" (Some (JNum 1))
                (initial_state ∅)).2) !! "../x" = Some (Some (JNum 1)).
Proof.
  apply (rejected_path_everywhere demo_db "../x" (Some (JNum 1))
           (initial_state ∅)).
  - by unfold cache_usable.
  - decided.
  - evaluated.
Defined.

(** X2 at the database at [/db]: two levels up. *)
Lemma prefix_rejects_parent_witness :
  storage_prefix demo_db (Path.join (replicate 2 "..")) (initial_state ∅)
  = (Throw PathEscapeError, initial_state ∅).
Proof.
  apply (prefix_rejects_parent demo_db ["db"] 1 (initial_state ∅)).
  - split; [plain_now|evaluated].
  - discriminate.
Defined.


(** X4 at the path [notes/a] of an empty file system. *)
Lemma missing_path_is_no_error_witness :
  storage_read demo_db (Path.join ["notes"; "a"]) (initial_state ∅)
  = (Ret None, initial_state ∅) ∧
  storage_exists demo_db (Path.join ["notes"; "a"]) (initial_state ∅)
  = (Ret false, initial_state ∅) ∧
  storage_list demo_db (Path.join ["notes"; "a"]) (initial_state ∅)
  = (Ret None, initial_state ∅) ∧
  storage_remove demo_db (Path.join ["notes"; "a"]) (initial_state ∅)
  = (Ret tt, initial_state ∅).
Proof.
  apply (missing_path_is_no_error demo_db ["db"]).
  - split; [plain_now|evaluated].
  - plain_now.
  - discriminate.
  - by unfold cache_usable.
  - reflexivity.
Defined.

(** X5 at the directory [data/user], with alice in it. *)
Lemma remove_takes_subtree_witness :
  ∃ s', storage_remove demo_db (Path.join ["data"; "user"]) demo_written
        = (Ret tt, s') ∧
        (∀ more, Forall Path.plain more →
           storage_read demo_db (Path.join (["data"; "user"] ++ more)) s'
           = (Ret None, s') ∧
           storage_exists demo_db (Path.join (["data"; "user"] ++ more)) s'
           = (Ret false, s')) ∧
        (∀ ls', Forall Path.plain ls' → ls' ≠ [] →
           ¬ ["data"; "user"] `prefix_of` ls' →
           storage_read demo_db (Path.join ls') s'
           = ((storage_read demo_db (Path.join ls') demo_written).1, s')).
Proof.
  apply (remove_takes_subtree demo_db ["db"]).
  - split; [plain_now|evaluated].
  - plain_now.
  - discriminate.
  - vm_compute. by repeat split.
  - vm_compute. by eexists.
Defined.

(** X6 at the directory [data/user], with alice in it. *)
Lemma list_names_witness :
  match fs demo_written !! (["db"] ++ ["data"; "user"]) with
  | Some Dir =>
      ∃ names,
        storage_list demo_db (Path.join ["data"; "user"]) demo_written
        = (Ret (Some names), demo_written) ∧
        NoDup names ∧
        ∀ x, x ∈ names ↔
             is_Some (fs demo_written !! (["db"] ++ ["data"; "user"] ++ [x]))
  | Some (File _) =>
      storage_list demo_db (Path.join ["data"; "user"]) demo_written
      = (Throw (IOError "ENOTDIR"), demo_written)
  | None =>
      storage_list demo_db (Path.join ["data"; "user"]) demo_written
      = (Ret None, demo_written)
  end.
Proof.
  apply (list_names demo_db ["db"]).
  - split; [plain_now|evaluated].
  - plain_now.
  - discriminate.
  - vm_compute. by repeat split.
Defined.

(** X7 at the path [data/user] of an empty file system. *)
Lemma makedir_idempotent_witness :
  ∃ s', storage_makedir demo_db (Path.join ["data"; "user"]) (initial_state ∅)
        = (Ret tt, s') ∧
        fs s' !! (["db"] ++ ["data"; "user"]) = Some Dir ∧
        (∀ k, ¬ k `prefix_of` ["db"] ++ ["data"; "user"] →
              fs s' !! k = fs (initial_state ∅) !! k) ∧
        storage_exists demo_db (Path.join ["data"; "user"]) s'
        = (Ret true, s') ∧
        storage_makedir demo_db (Path.join ["data"; "user"]) s'
        = (Ret tt, s').
Proof.
  apply (makedir_idempotent demo_db ["db"]).
  - split; [plain_now|evaluated].
  - plain_now.
  - discriminate.
  - by unfold cache_usable.
  - nothing_there.
Defined.

(** X8 at the path [data/a] of an empty file system. *)
Lemma write_undefined_witness :
  (storage_write demo_db (Path.join (["data"] ++ ["a"])) None
     (initial_state ∅)).1 = Throw TypeError ∧
  fs (storage_write demo_db (Path.join (["data"] ++ ["a"])) None
        (initial_state ∅)).2 !! (["db"] ++ ["data"] ++ ["a"])
  = fs (initial_state ∅) !! (["db"] ++ ["data"] ++ ["a"]) ∧
  Fs.lookup (fs (storage_write demo_db (Path.join (["data"] ++ ["a"])) None
                   (initial_state ∅)).2) (["db"] ++ ["data"]) = Some Dir ∧
  own (cache (storage_write demo_db (Path.join (["data"] ++ ["a"])) None
                (initial_state ∅)).2) !! Path.join (["data"] ++ ["a"])
  = Some None.
Proof.
  apply (write_undefined demo_db ["db"]).
  - split; [plain_now|evaluated].
  - plain_now.
  - plain_now.
  - decided.
  - by unfold cache_usable.
  - nothing_there.
Defined.
(** X11 at a Map with 10050 entries. *)
Lemma eviction_bounds_witness :
  ∃ r c', Cache.clear no_coercion no_coercion full_map = Ret c' ∧
          own c' = own full_map ∧ proto c' = proto full_map ∧
          entries c' = drop (r * 200) (entries full_map) ∧
          (Z.of_nat (length (entries full_map)) < 10000 → r = O) ∧
          (10000 ≤ Z.of_nat (length (entries full_map)) →
           9800 ≤ Z.of_nat (length (entries c')) < 10000).
Proof.
  apply (eviction_bounds no_coercion no_coercion full_map); reflexivity.
Defined.

(** X12 at a [PlexServer] opened on the folder [db]. *)
Lemma relative_root_rejects_all_witness :
  let d := open_PlexServer "/" "db" in
  let s := initial_state ∅ in
  storage_prefix d "x" s = (Throw PathEscapeError, s) ∧
  storage_read d "x" s = (Throw PathEscapeError, s) ∧
  storage_exists d "x" s = (Throw PathEscapeError, s) ∧
  storage_list d "x" s = (Throw PathEscapeError, s) ∧
  storage_remove d "x" s = (Throw PathEscapeError, s) ∧
  storage_makedir d "x" s = (Throw PathEscapeError, s) ∧
  ("x" ∉ member_names →
   (storage_write d "x" (Some (JNum 1)) s).1 = Throw PathEscapeError ∧
   fs (storage_write d "x" (Some (JNum 1)) s).2 = fs s).
Proof.
  apply (relative_root_rejects_all "/" "db" "x" (Some (JNum 1))
           (initial_state ∅)).
  - reflexivity.
  - discriminate.
  - reflexivity.
  - by unfold cache_usable.
Defined.

(** X14 at a query by [note], which is not indexed, with alice stored. *)
Lemma query_needs_an_index_witness :
  (Collection.findAll demo_users [("note", Some (JStr "first"))]
     demo_written).1 = Ret [] ∧
  Collection.findOne demo_users [("note", Some (JStr "first"))] demo_written
  = (Ret None, demo_written).
Proof.
  apply (query_needs_an_index demo_users [("note", Some (JStr "first"))]
           demo_written).
  intros key Hin. apply list_elem_of_singleton in Hin as ->.
  right. reflexivity.
Defined.

(** X15 at an object with a nick and no email. *)
Lemma create_missing_required_witness :
  Collection.create strict_users 0%nat strict_start
  = (Throw MissingRequiredFieldError, strict_start).
Proof.
  apply (create_missing_required strict_users 0%nat ["nick"] ["id"] "email"
           (field false false true NoDefault) [("nick", JStr "al")]
           strict_start strict_start).
  - reflexivity.
  - reflexivity.
  - discriminate.
  - evaluated.
  - reflexivity.
  - reflexivity.
  - reflexivity.
  - reflexivity.
Defined.

(** X16 at an empty object. *)
Lemma create_absent_unique_witness :
  Collection.create strict_users 1%nat strict_start
  = (Throw TypeError, strict_start).
Proof.
  apply (create_absent_unique strict_users 1%nat [] ["email"; "id"] "nick"
           (field true true false NoDefault) [] strict_start strict_start);
    try reflexivity.
  discriminate.
Defined.

(** X17 at a collection whose unique field is not indexed. *)
Lemma unique_needs_index_witness :
  match (Collection.create loose_users 0%nat strict_start).1 with
  | Throw UniqueConstraintViolation => False
  | _ => True
  end.
Proof.
  apply (unique_needs_index loose_users).
  intros key fd Hget Hkey Hu.
  change (c_schema loose_users)
    with [("name", field false true false NoDefault);
          ("id", id_descriptor PlexDB demo_uuid)] in Hget.
  simpl in Hget.
  case_bool_decide; [by injection Hget as <-|].
  case_bool_decide; [by subst|done].
Defined.


(** X20 at bob and carol of team red: bob is deleted. *)
Lemma delete_forgets_the_others_witness :
  ∃ s', Collection.delete demo_users demo_bob demo_team = (Ret tt, s') ∧
        (Collection.findAll demo_users [("team", Some (JStr "red"))] s').1
        = Ret [] ∧
        ∀ i' d', (i', d') ∈ [(demo_uuid 1, demo_bob); (demo_uuid 2, demo_carol)] →
                 i' ≠ demo_uuid 1 →
                 Collection.get demo_users i' s' = (Ret (Some (JObj d')), s').
Proof.
  apply (delete_forgets_the_others demo_users ["db"]) with
    (fd := field true false false NoDefault).
  - split; [plain_now|evaluated].
  - unfold collection_ok, Path.plain. decided.
  - discriminate.
  - reflexivity.
  - reflexivity.
  - reflexivity.
  - vm_compute. by repeat split.
  - unfold index_holds. split_and!.
    + left. evaluated.
    + decided.
    + unfold has_id, Path.plain.
      repeat (apply Forall_cons_2; [split_and!; (evaluated || decided)|]).
      apply Forall_nil_2.
  - apply list_elem_of_here.
  - intros key Hin. unfold demo_bob in Hin. simpl in Hin.
    repeat (apply elem_of_cons in Hin as [->|Hin]);
      [right; by eexists|right; by eexists|by left|by apply elem_of_nil in Hin].
Defined.


(** X24 at the path [/db] of an empty file system. *)
Lemma createNew_then_open_witness :
  let f' := <[([] ++ ["db"]) ++ ["data"] := Dir]>
              (<[([] ++ ["db"]) ++ ["index"] := Dir]>
                 (<[([] ++ ["db"]) ++ [".plexmeta"]
                    := File (JsonText plexmeta0)]>
                    (<[[] ++ ["db"] := Dir]> (∅ : FS)))) in
  createNew "/" (Path.abs_path ([] ++ ["db"])) ∅ = (Created, f') ∧
  new_PlexDB "/" (Path.abs_path ([] ++ ["db"])) f'
  = Ret (open_PlexDB "/" (Path.abs_path ([] ++ ["db"])), plexmeta0) ∧
  root (open_PlexDB "/" (Path.abs_path ([] ++ ["db"])))
  = Path.abs_path ([] ++ ["db"]) ∧
  new_PlexServer "/" (Path.abs_path ([] ++ ["db"])) f'
  = Ret (open_PlexServer "/" (Path.abs_path ([] ++ ["db"])), plexmeta0).
Proof.
  apply (createNew_then_open "/" [] "db" ∅).
  - apply Forall_nil_2.
  - plain_now.
  - reflexivity.
  - intros k _. apply lookup_empty.
Defined.


(** X26 at the database just set up at [/db]. *)
Lemma createNew_twice_witness :
  createNew "/" (Path.abs_path ([] ++ ["db"])) fresh_db
  = (FailedOneOf [IOError "EEXIST"; IOError "EEXIST"],
     <[([] ++ ["db"]) ++ [".plexmeta"] := File (JsonText plexmeta0)]> fresh_db).
Proof.
  apply (createNew_twice "/" [] "db" fresh_db) with
    (old := Some (JsonText plexmeta0)).
  - apply Forall_nil_2.
  - plain_now.
  - reflexivity.
  - evaluated.
  - evaluated.
  - evaluated.
  - evaluated.
Defined.


(** X28 at the directory [index], with alice stored. *)
Lemma tree_names_witness :
  match fs demo_written !! (["db"] ++ ["index"]) with
  | Some Dir =>
      ∃ names, storage_tree demo_db (Path.join ["index"]) demo_written
               = (Ret (Some names), demo_written) ∧
               ∀ x, x ∈ names ↔
                    ∃ more, more ≠ [] ∧ x = Path.join more ∧
                            is_Some (fs demo_written
                                       !! (["db"] ++ ["index"] ++ more))
  | Some (File _) =>
      storage_tree demo_db (Path.join ["index"]) demo_written
      = (Throw (IOError "ENOTDIR"), demo_written)
  | None =>
      storage_tree demo_db (Path.join ["index"]) demo_written
      = (Ret None, demo_written)
  end.
Proof.
  apply (tree_names demo_db ["db"]).
  - split; [plain_now|evaluated].
  - plain_now.
  - discriminate.
  - vm_compute. by repeat split.
Defined.


(** X30 at the [user] collection with bob and carol stored, and the task
    that returns the document. *)
Lemma queryAll_visits_all_witness :
  (∃ ids results s',
     queryAll demo_users (λ v, Ret v) demo_team = (Ret results, s') ∧
     fs s' = fs demo_team ∧ cache s' = cache demo_team ∧
     NoDup ids ∧
     (∀ x, x ∈ ids ↔ is_Some (fs demo_team !! data_key ["db"] demo_users x)) ∧
     Forall2 (λ x r, ∃ j, fs demo_team !! data_key ["db"] demo_users x
                          = Some (File (JsonText j)) ∧
                          (λ v, Ret v) (Some j) = Ret r) ids results) ∧
  (∀ s0, cache_usable (cache s0) →
         fs s0 !! (["db"] ++ ["data"; c_name demo_users]) = None →
         queryAll demo_users (λ v, Ret v) s0 = (Throw TypeError, s0)).
Proof.
  apply (queryAll_visits_all demo_users ["db"]).
  - split; [plain_now|evaluated].
  - unfold collection_ok, Path.plain. decided.
  - vm_compute. by repeat split.
  - evaluated.
  - intros x n H. apply elem_of_map_to_list in H.
    set (l := map_to_list (fs demo_team)) in H. vm_compute in l. subst l.
    unfold data_key in H. simpl app in H.
    repeat (apply elem_of_cons in H as [H|H]); try (by apply elem_of_nil in H);
      try discriminate H;
      (injection H as Hx Hn; subst x n; split; [plain_now|by eexists _, _]).
Defined.
